(** * esp::sim::ReplayBatchRenderer: environment life cycle and keyframe replay

    A shallow embedding of [src/esp/sim/ReplayBatchRenderer.cpp] and the
    properties of its constructor, destructor, keyframe and sensor-transform
    operations and accessors.

    Scene nodes live in a node store shared by every environment (the C++
    heap); sensors and environment records refer to nodes by identity, so
    that aliasing between environments is visible in the model.  The
    operations run in a small state-and-failure monad with four outcomes:
    normal return, a failed [ESP_CHECK] (an error reported to the caller,
    with whatever was written before it), a failed
    [CORRADE_INTERNAL_ASSERT] (the process aborts) and undefined behaviour.

    The file embeds the one source file of the renderer.  Everything it
    calls (the keyframe player, the scene manager, the sensor factory, the
    resource manager) is declared elsewhere; those parts are small models
    that follow the design text, each marked as such. *)

From Stdlib Require Import ZArith String Ascii List Sorted Lia.
From Stdlib Require OrderedTypeEx.
From stdpp Require Import base option list sorting gmap strings pretty.

Local Open Scope Z_scope.

(** ** Values that are only stored and copied *)

(** A [Magnum::Float] by its IEEE-754 binary32 bit pattern: this file never
    computes with floats, it moves them from a keyframe to a node. *)
Definition Float : Type := Z.

Record Vector3 : Type := mkVector3 { vx : Float; vy : Float; vz : Float }.

Record Quaternion : Type := mkQuaternion { qvector : Vector3; qscalar : Float }.

(** [gfx::replay::Transform]: what a keyframe records under a user name. *)
Record Transform : Type := mkTransform
  { translation : Vector3; rotation : Quaternion }.

Definition float_zero : Float := 0.
Definition float_one : Float := 1065353216.

Definition zeroVector : Vector3 := mkVector3 float_zero float_zero float_zero.
Definition identityRotation : Quaternion := mkQuaternion zeroVector float_one.

(** ** Scene nodes and the node store *)

Definition NodeId : Type := nat.

Record SceneNode : Type := mkSceneNode
  { nodeParent : option NodeId;
    nodeTranslation : Vector3;
    nodeRotation : Quaternion }.

(** A node as [createChild] makes it.  The transform it starts with is not
    given by this file; the identity stands for it, and no statement below
    reads the transform of a node before it was written. *)
Definition newNode (parent : option NodeId) : SceneNode :=
  mkSceneNode parent zeroVector identityRotation.

Definition SceneNode_setRotation (r : Quaternion) (n : SceneNode) : SceneNode :=
  mkSceneNode (nodeParent n) (nodeTranslation n) r.

Definition SceneNode_setTranslation (t : Vector3) (n : SceneNode) : SceneNode :=
  mkSceneNode (nodeParent n) t (nodeRotation n).

(** ** Sensors and the sensor map *)

Record SensorSpec : Type := mkSensorSpec { uuid : string }.

(** A sensor is a feature of one scene node; [sensor.node()] is [sensorNode]. *)
Record Sensor : Type := mkSensor { sensorNode : NodeId; sensorSpec : SensorSpec }.

(** [std::map<std::string, std::reference_wrapper<Sensor>>]: the sequence a
    range-for visits, kept in strictly ascending key order.  [std::string]
    compares byte-wise, as [String.compare] does. *)
Definition SensorMap : Type := list (string * Sensor).

Definition string_lt (a b : string) : Prop := String.ltb a b = true.

Fixpoint SensorMap_emplace (k : string) (v : Sensor) (m : SensorMap) : SensorMap :=
  match m with
  | [] => [(k, v)]
  | (k', v') :: rest =>
      match String.compare k k' with
      | Lt => (k, v) :: (k', v') :: rest
      | Eq => (k', v') :: rest
      | Gt => (k', v') :: SensorMap_emplace k v rest
      end
  end.

(** ** Keyframes and the keyframe player *)

(** The types of this part are declared outside this file; of asset and
    light descriptions only what tells two of them apart is kept. *)
Record AssetInfo : Type := mkAssetInfo { filepath : string }.

Record RenderAssetInstanceCreationInfo : Type := mkCreationInfo
  { creationFilepath : string; creationIsSemantic : bool }.

Record LightInfo : Type := mkLightInfo { lightVector : Vector3; lightColor : Vector3 }.

Definition LightSetup : Type := list LightInfo.

(** What the shared resource cache makes of one asset reference.  The cache
    and the asset files are outside this file: whether the load fails under
    "the cache's own error policy", and otherwise in which of the two graphs
    it is given it places the instance, and with what transform, is its own
    business and a parameter here. *)
Inductive AssetOutcome : Type :=
| AssetFails (msg : string)
| AssetPlaced (inSemanticGraph : bool) (placement : Transform).

(** Modelled from the spec: [gfx::replay::Keyframe], not in this file, "a
    structure containing: asset-instance creation/update/removal directives,
    an optional light setup, and a mapping from named user transform to
    (translation, rotation)".  Of the directives, the asset references that
    applying the keyframe instantiates are kept. *)
Record Keyframe : Type := mkKeyframe
  { creations : list (AssetInfo * RenderAssetInstanceCreationInfo);
    lights : option LightSetup;
    userTransforms : gmap string Transform }.

(** Modelled from the spec: [gfx::replay::Player], not in this file: the
    keyframes it holds and the asset instances it created for them.  The two
    callbacks a player is built with are closures over [this] and, for the
    asset callback, [envIdx]; the closure is kept as its captured index and
    [this] is the state the monad threads. *)
Record Player : Type := mkPlayer
  { assetCallbackEnvIdx : Z;
    keyframes_ : list Keyframe;
    createdInstances_ : list NodeId }.

(** ** Environment records and the renderer *)

Record EnvironmentRecord : Type := mkEnvironmentRecord
  { player_ : Player;
    sceneID_ : Z;
    semanticSceneID_ : Z;
    sensorParentNode_ : NodeId;
    sensorMap_ : SensorMap }.

Record SceneGraph : Type := mkSceneGraph { rootNode : NodeId }.

Record SceneManager : Type := mkSceneManager { sceneGraphs_ : list SceneGraph }.

(** Modelled from the spec: the "shared Resource Cache",
    [assets::ResourceManager], not in this file.  Kept of it: the light setup
    last given to it, if any was, and what it makes of an asset reference. *)
Record ResourceManager : Type := mkResourceManager
  { lightSetup_ : option LightSetup;
    assetOutcome_ : AssetInfo -> RenderAssetInstanceCreationInfo -> AssetOutcome }.

Record ReplayBatchRendererConfiguration : Type := mkConfiguration
  { numEnvironments : Z;
    sensorSpecifications : list SensorSpec;
    gpuDeviceId : Z;
    forceSeparateSemanticSceneGraph : bool;
    leaveContextWithBackgroundRenderer : bool }.

Record WindowlessContext : Type := mkWindowlessContext { contextDevice : Z }.

Record RendererFlags : Type := mkRendererFlags
  { flagBackgroundRenderer : bool;
    flagLeaveContextWithBackgroundRenderer : bool }.

Record Renderer : Type := mkRenderer
  { rendererFlags : RendererFlags; rendererHasContext : bool }.

Record ReplayBatchRenderer : Type := mkReplayBatchRenderer
  { config_ : ReplayBatchRendererConfiguration;
    resourceManager_ : option ResourceManager;
    sceneManager_ : SceneManager;
    envs_ : list EnvironmentRecord;
    context_ : option WindowlessContext;
    renderer_ : option Renderer }.

(** What the destructor and the sensor loop do to their collaborators, in
    the order they do it. *)
Inductive Event : Type :=
| EvPlayerClose (envIdx : Z)
| EvDeleteSensor (sensor : Sensor)
| EvResourceManagerReset
| EvSetRotation (node : NodeId) (r : Quaternion)
| EvSetTranslation (node : NodeId) (t : Vector3).

(** The renderer object, the node store it points into and the log of
    events so far (oldest first). *)
Record State : Type := mkState
  { this : ReplayBatchRenderer;
    heap : gmap NodeId SceneNode;
    log : list Event }.

Definition with_heap (h : gmap NodeId SceneNode) (s : State) : State :=
  mkState (this s) h (log s).

Definition with_this (r : ReplayBatchRenderer) (s : State) : State :=
  mkState r (heap s) (log s).

Definition with_log (l : list Event) (s : State) : State :=
  mkState (this s) (heap s) l.

Definition with_envs (es : list EnvironmentRecord) (r : ReplayBatchRenderer)
  : ReplayBatchRenderer :=
  mkReplayBatchRenderer (config_ r) (resourceManager_ r) (sceneManager_ r) es
    (context_ r) (renderer_ r).

Definition with_sceneManager (sm : SceneManager) (r : ReplayBatchRenderer)
  : ReplayBatchRenderer :=
  mkReplayBatchRenderer (config_ r) (resourceManager_ r) sm (envs_ r)
    (context_ r) (renderer_ r).

Definition with_resourceManager (rm : option ResourceManager)
  (r : ReplayBatchRenderer) : ReplayBatchRenderer :=
  mkReplayBatchRenderer (config_ r) rm (sceneManager_ r) (envs_ r)
    (context_ r) (renderer_ r).

Definition with_context (c : option WindowlessContext)
  (r : ReplayBatchRenderer) : ReplayBatchRenderer :=
  mkReplayBatchRenderer (config_ r) (resourceManager_ r) (sceneManager_ r)
    (envs_ r) c (renderer_ r).

Definition with_renderer (rd : option Renderer)
  (r : ReplayBatchRenderer) : ReplayBatchRenderer :=
  mkReplayBatchRenderer (config_ r) (resourceManager_ r) (sceneManager_ r)
    (envs_ r) (context_ r) rd.

Definition with_player (p : Player) (e : EnvironmentRecord) : EnvironmentRecord :=
  mkEnvironmentRecord p (sceneID_ e) (semanticSceneID_ e)
    (sensorParentNode_ e) (sensorMap_ e).

(** ** Outcomes and the monad *)

(** How a call ends: it returns; it reports an error to the caller, who
    still has the object; an assertion fails and the process is gone; or the
    call steps outside what C++ defines. *)
Inductive Result (A : Type) : Type :=
| Ok (a : A) (s : State)
| Error (msg : string) (s : State)
| Fatal
| Undefined.

Arguments Ok {A} a s.
Arguments Error {A} msg s.
Arguments Fatal {A}.
Arguments Undefined {A}.

Definition M (A : Type) : Type := State -> Result A.

#[global] Instance M_ret : MRet M := fun A a s => Ok a s.

#[global] Instance M_bind : MBind M := fun A B k m s =>
  match m s with
  | Ok a s' => k a s'
  | Error msg s' => Error msg s'
  | Fatal => Fatal
  | Undefined => Undefined
  end.

Definition getState : M State := fun s => Ok s s.
Definition emit (e : Event) : M unit :=
  fun s => Ok tt (with_log (log s ++ [e]) s).
Definition modifyThis (f : ReplayBatchRenderer -> ReplayBatchRenderer) : M unit :=
  fun s => Ok tt (with_this (f (this s)) s).
Definition modifyHeap (f : gmap NodeId SceneNode -> gmap NodeId SceneNode) : M unit :=
  fun s => Ok tt (with_heap (f (heap s)) s).

(** Modelled from the spec: [CORRADE_INTERNAL_ASSERT(cond)], a macro not in
    this file, a "fatal assertion" that is "not recoverable": the run aborts
    when the condition is false. *)
Definition CORRADE_INTERNAL_ASSERT (cond : bool) : M unit :=
  fun s => if cond then Ok tt s else Fatal.

(** Modelled from the spec: [ESP_CHECK(cond, msg)], a macro not in this
    file, "reported as descriptive failures", "caller-recoverable", with
    "partial side effects on failure ... not rolled back": [msg] goes to the
    caller when the condition is false and what was written before stays
    written. *)
Definition ESP_CHECK (cond : bool) (msg : string) : M unit :=
  fun s => if cond then Ok tt s else Error msg s.

Fixpoint forEach {A} (f : A -> M unit) (l : list A) : M unit :=
  match l with
  | [] => mret tt
  | a :: rest => f a;; forEach f rest
  end.


(** ** Collaborators declared outside this file *)

(** Where C++ leaves the behaviour undefined: an index beyond a vector, a
    released pointer, an id its store never handed out. *)
Definition undefined {A} : M A := fun _ => Undefined.

(** An error of a callee that the code here does not catch: it goes to the
    caller as it is, and what was written before stays written. *)
Definition throw {A} (msg : string) : M A := fun s => Error msg s.

Definition abort {A} : M A := fun _ => Fatal.

(** Modelled from the spec: [SceneNode::createChild], not in this file.  The
    scene graph store "supports creating a new graph and a root-relative
    child node": a node that did not exist before, below [parent]. *)
Definition SceneNode_createChild (parent : NodeId) : M NodeId :=
  fun s =>
    let n := fresh (dom (heap s)) in
    Ok n (with_heap (<[n := newNode (Some parent)]> (heap s)) s).

(** Modelled from the spec: [SceneManager::initSceneGraph], not in this file.
    "A central store owns all scene graphs in a growable collection, and
    components elsewhere hold small integer ids": the new graph gets a root
    node of its own and the next position of the collection as its id. *)
Definition SceneManager_initSceneGraph : M Z :=
  fun s =>
    let root := fresh (dom (heap s)) in
    let graphs := sceneGraphs_ (sceneManager_ (this s)) in
    Ok (Z.of_nat (length graphs))
       (mkState
          (with_sceneManager (mkSceneManager (graphs ++ [mkSceneGraph root])) (this s))
          (<[root := newNode None]> (heap s))
          (log s)).

Definition SceneManager_lookup (sm : SceneManager) (sceneID : Z) : option SceneGraph :=
  if 0 <=? sceneID then sceneGraphs_ sm !! Z.to_nat sceneID else None.

(** Modelled from the spec: [SceneManager::getSceneGraph], not in this file.
    The graph stored under an id; an id the store never handed out is
    outside its contract. *)
Definition SceneManager_getSceneGraph (sceneID : Z) : M SceneGraph :=
  fun s =>
    match SceneManager_lookup (sceneManager_ (this s)) sceneID with
    | Some g => Ok g s
    | None => Undefined
    end.

(** Modelled from the spec: [sensor::SensorFactory::createSensors], not in
    this file.  "Instantiate sensors from the per-environment sensor
    specifications, attached under the sensor-parent node": one child node
    and one sensor per specification, in the order given, entered in the map
    under the specification's name (a name already present keeps its first
    sensor, as [std::map::emplace] does).  Of a specification only its name
    is kept, and the specifications are taken to be ones the factory
    resolves: what it does with one it cannot resolve is not modelled. *)
Fixpoint SensorFactory_createSensors (parentNode : NodeId)
  (specs : list SensorSpec) (acc : SensorMap) : M SensorMap :=
  match specs with
  | [] => mret acc
  | spec :: rest =>
      n ← SceneNode_createChild parentNode;
      SensorFactory_createSensors parentNode rest
        (SensorMap_emplace (uuid spec) (mkSensor n spec) acc)
  end.


(** A write through a node reference.  The reference must be to a live
    node: writing to a node that has been released is a use of a dangling
    reference. *)
Definition SceneNode_write (f : SceneNode -> SceneNode) (n : NodeId) : M unit :=
  fun s =>
    match heap s !! n with
    | Some _ => modifyHeap (alter f n) s
    | None => Undefined
    end.

(** Modelled from the spec: [SceneNode::setRotation], not in this file;
    sensors "expose a settable transform (translation + rotation)".
    [sensor.node().setRotation(rotation)] overwrites the rotation of the
    node. *)
Definition setRotation (n : NodeId) (r : Quaternion) : M unit :=
  emit (EvSetRotation n r);;
  SceneNode_write (SceneNode_setRotation r) n.

(** Modelled from the spec: [SceneNode::setTranslation], not in this file;
    [sensor.node().setTranslation(translation)] overwrites the translation
    of the node. *)
Definition setTranslation (n : NodeId) (t : Vector3) : M unit :=
  emit (EvSetTranslation n t);;
  SceneNode_write (SceneNode_setTranslation t) n.

(** Modelled from the spec: [assets::ResourceManager::setLightSetup], not in
    this file: "forwards to the shared Resource Cache's global light setup".
    A released cache cannot be called. *)
Definition ResourceManager_setLightSetup (lightSetup : LightSetup) : M unit :=
  s ← getState;
  match resourceManager_ (this s) with
  | Some rm =>
      modifyThis (with_resourceManager
                    (Some (mkResourceManager (Some lightSetup) (assetOutcome_ rm))))
  | None => undefined
  end.

(** Modelled from the spec: [assets::ResourceManager::loadAndCreateRenderAssetInstance],
    not in this file.  It is given "both the environment's primary and
    semantic scene-graph ids so the cache can place the instance correctly
    in whichever graph(s) apply" and "returns the newly created (or reused)
    scene node, or fails via the cache's own error policy (propagated, not
    caught)".  Which of these happens for an asset reference is the cache's
    own: a failure goes to the caller; otherwise the node returned is a
    node below the root of one of the two graphs given, with the transform
    the cache gives it.  A node the cache hands out a second time is not
    told apart from a new one: either way it is a node that no environment
    record refers to.  Decoding the asset is not modelled. *)
Definition ResourceManager_loadAndCreateRenderAssetInstance
  (assetInfo : AssetInfo) (creation : RenderAssetInstanceCreationInfo)
  (sceneIDs : list Z) : M NodeId :=
  s ← getState;
  match resourceManager_ (this s) with
  | Some rm =>
      match assetOutcome_ rm assetInfo creation with
      | AssetFails msg => throw msg
      | AssetPlaced inSemanticGraph placement =>
          match sceneIDs !! (if inSemanticGraph then 1%nat else 0%nat) with
          | Some sceneID =>
              g ← SceneManager_getSceneGraph sceneID;
              n ← SceneNode_createChild (rootNode g);
              SceneNode_write
                (fun node => mkSceneNode (nodeParent node) (translation placement)
                               (rotation placement)) n;;
              mret n
          | None => undefined
          end
      end
  | None => undefined
  end.

(** *** The keyframe player, [gfx::replay::Player] *)

(** Modelled from the spec: [Player::getNumKeyframes], not in this file: how
    many keyframes the player holds. *)
Definition Player_getNumKeyframes (p : Player) : Z :=
  Z.of_nat (length (keyframes_ p)).

(** Modelled from the spec: [Player::getUserTransform], not in this file.
    "Look up a user transform recorded in the keyframe under the name": the
    translation and rotation when the held keyframe records the name
    ([true] and the two out-parameters in C++), nothing otherwise. *)
Definition Player_getUserTransform (p : Player) (name : string)
  : option (Vector3 * Quaternion) :=
  kf ← head (keyframes_ p);
  t ← userTransforms kf !! name;
  Some (translation t, rotation t).

(** [env.player_] is a reference into [envs_]: the player of the record at
    [envIndex] is changed in place. *)
Definition updatePlayer (envIndex : Z) (f : Player -> Player) : M unit :=
  modifyThis (fun r =>
    with_envs (alter (fun e => with_player (f (player_ e)) e) (Z.to_nat envIndex)
                 (envs_ r)) r).

Definition readPlayer (envIndex : Z) : M Player :=
  fun s =>
    match envs_ (this s) !! Z.to_nat envIndex with
    | Some e => Ok (player_ e) s
    | None => Undefined
    end.

(** Modelled from the spec: the part of [Player::setSingleKeyframe] and
    [Player::close], not in this file, that leaves "no leftover instances
    from a previous keyframe": the nodes the player created leave the node
    store. *)
Definition Player_releaseInstances (envIndex : Z) : M unit :=
  p ← readPlayer envIndex;
  forEach (fun n => modifyHeap (delete n)) (createdInstances_ p);;
  updatePlayer envIndex (fun p =>
    mkPlayer (assetCallbackEnvIdx p) (keyframes_ p) []).

Section Player.

(* The callbacks the player was constructed with. *)
Variable assetCallback :
  Z -> AssetInfo -> RenderAssetInstanceCreationInfo -> M NodeId.
Variable lightCallback : LightSetup -> M unit.

(** Modelled from the spec: the part of [Player::setSingleKeyframe], not in
    this file, that "invokes the asset-instantiation callback" for one asset
    reference and keeps the node it returns. *)
Definition Player_createInstance (envIndex : Z)
  (c : AssetInfo * RenderAssetInstanceCreationInfo) : M unit :=
  p ← readPlayer envIndex;
  n ← assetCallback (assetCallbackEnvIdx p) c.1 c.2;
  updatePlayer envIndex (fun p =>
    mkPlayer (assetCallbackEnvIdx p) (keyframes_ p) (createdInstances_ p ++ [n])).

(** Modelled from the spec: [Player::setSingleKeyframe], not in this file.
    "Replace the environment's Player state with exactly that one keyframe
    (any previously held keyframe is discarded, not merged)"; applying it
    "invokes the asset-instantiation callback for every asset reference in
    the keyframe" and "the lighting callback if the keyframe carries a
    light setup"; there are "no leftover instances from a previous
    keyframe". *)
Definition Player_setSingleKeyframe (envIndex : Z) (keyframe : Keyframe) : M unit :=
  Player_releaseInstances envIndex;;
  updatePlayer envIndex (fun p =>
    mkPlayer (assetCallbackEnvIdx p) [keyframe] (createdInstances_ p));;
  forEach (Player_createInstance envIndex) (creations keyframe);;
  match lights keyframe with
  | Some l => lightCallback l
  | None => mret tt
  end.

End Player.


(** What the constructor finds outside the program: whether a GL context is
    current ([Magnum::GL::Context::hasCurrent()]), on which devices one can
    be created, and what the resource manager it creates will make of the
    asset references it is given. *)
Record Platform : Type := mkPlatform
  { glHasCurrent : bool;
    glDeviceUsable : Z -> bool;
    assetOutcome : AssetInfo -> RenderAssetInstanceCreationInfo -> AssetOutcome }.

(** Modelled from the spec: [gfx::WindowlessContext::create_unique], not in
    this file.  "GPU context/renderer creation failure is fatal". *)
Definition WindowlessContext_create (gl : Platform) (device : Z)
  : M WindowlessContext :=
  if glDeviceUsable gl device then mret (mkWindowlessContext device) else abort.

(** ** The renderer, [ReplayBatchRenderer.cpp] *)

Definition dquote : string := String "034"%char EmptyString.

(** A [SceneGraph&] into the store is kept as the position of the graph it
    names: two references are to the same graph exactly when the positions
    are equal. *)
Abbreviation SceneGraphRef := nat (only parsing).

(** Modelled from the spec: the reference [SceneManager::getSceneGraph]
    returns, "a reference into orchestrator-owned state". *)
Definition SceneManager_getSceneGraphRef (sceneID : Z) : M SceneGraphRef :=
  SceneManager_getSceneGraph sceneID;;
  mret (Z.to_nat sceneID).

(** Modelled from the spec: [SceneGraph::getRootNode], not in this file; a
    scene graph is "a tree of transformable nodes" and this is its root. *)
Definition SceneGraph_getRootNode (g : SceneGraphRef) : M NodeId :=
  fun s =>
    match sceneGraphs_ (sceneManager_ (this s)) !! g with
    | Some sg => Ok (rootNode sg) s
    | None => Undefined
    end.

Section ReplayBatchRenderer.

(** Declared outside this file: the keyframe parser
    [Player::keyframeFromString] ([inl] is its parse error), the constant
    [ID_UNDEFINED] and the build option of the same name. *)
Variable keyframeFromString : string -> string + Keyframe.
Variable ID_UNDEFINED : Z.
Variable ESP_BUILD_WITH_BACKGROUND_RENDERER : bool.

(** [envIndex >= 0 && envIndex < envs_.size()] *)
Definition envIndexInRange (envIndex : Z) (s : State) : bool :=
  (0 <=? envIndex) && (envIndex <? Z.of_nat (length (envs_ (this s)))).

Definition assertEnvIndex (envIndex : Z) : M unit :=
  s ← getState;
  CORRADE_INTERNAL_ASSERT (envIndexInRange envIndex s).

(** [envs_[envIndex]]; every use but the destructor's follows the
    assertion. *)
Definition envAt (envIndex : Z) : M EnvironmentRecord :=
  fun s =>
    match envs_ (this s) !! Z.to_nat envIndex with
    | Some e => Ok e s
    | None => Undefined
    end.

Definition loadAndCreateRenderAssetInstance (envIndex : Z)
  (assetInfo : AssetInfo) (creation : RenderAssetInstanceCreationInfo)
  : M NodeId :=
  assertEnvIndex envIndex;;
  env ← envAt envIndex;
  let tempIDs := [sceneID_ env; semanticSceneID_ env] in
  ResourceManager_loadAndCreateRenderAssetInstance assetInfo creation tempIDs.

(** The two lambdas of the constructor; [assetCallback] applied to the
    index it captured. *)
Definition assetCallback (envIdx : Z) (assetInfo : AssetInfo)
  (creation : RenderAssetInstanceCreationInfo) : M NodeId :=
  loadAndCreateRenderAssetInstance envIdx assetInfo creation.

Definition lightCallback (lightSetup : LightSetup) : M unit :=
  ResourceManager_setLightSetup lightSetup.

(** One iteration of the constructor's loop. *)
Definition constructEnvironment (cfg : ReplayBatchRendererConfiguration)
  (envIdx : Z) : M unit :=
  sceneID ← SceneManager_initSceneGraph;
  semanticSceneID ← (if forceSeparateSemanticSceneGraph cfg
                     then SceneManager_initSceneGraph
                     else mret sceneID);
  sceneGraph ← SceneManager_getSceneGraphRef sceneID;
  root ← SceneGraph_getRootNode sceneGraph;
  parentNode ← SceneNode_createChild root;
  sensorMap ← SensorFactory_createSensors parentNode (sensorSpecifications cfg) [];
  modifyThis (fun r =>
    with_envs (envs_ r ++
               [mkEnvironmentRecord (mkPlayer envIdx [] []) sceneID
                  semanticSceneID parentNode sensorMap]) r).

Definition rendererFlagsFor (cfg : ReplayBatchRendererConfiguration)
  (haveContext : bool) : RendererFlags :=
  if ESP_BUILD_WITH_BACKGROUND_RENDERER
  then mkRendererFlags haveContext
         (haveContext && leaveContextWithBackgroundRenderer cfg)
  else mkRendererFlags false false.

(** The constructor's body.  The resource manager it creates has been given
    no light setup yet and makes of asset references what the platform says.
    Of [Renderer::create] and [acquireGlContext] the flags and the fact
    that the context was acquired are kept; a failure of theirs is not
    modelled. *)
Definition constructorBody (cfg : ReplayBatchRendererConfiguration)
  (gl : Platform) : M unit :=
  modifyThis (with_resourceManager
                (Some (mkResourceManager None (assetOutcome gl))));;
  modifyThis (with_sceneManager (mkSceneManager []));;
  forEach (constructEnvironment cfg) (seqZ 0 (numEnvironments cfg));;
  (if glHasCurrent gl then mret tt
   else c ← WindowlessContext_create gl (gpuDeviceId cfg);
        modifyThis (with_context (Some c)));;
  s ← getState;
  let flags := rendererFlagsFor cfg (bool_decide (is_Some (context_ (this s)))) in
  modifyThis (with_renderer (Some (mkRenderer flags false)));;
  modifyThis (with_renderer (Some (mkRenderer flags true))).

(** The object before the constructor's body runs: [config_ = cfg] and
    every other member empty. *)
Definition unconstructed (cfg : ReplayBatchRendererConfiguration) : State :=
  mkState (mkReplayBatchRenderer cfg None (mkSceneManager []) [] None None) ∅ [].

Definition constructor (cfg : ReplayBatchRendererConfiguration)
  (gl : Platform) : Result unit :=
  constructorBody cfg gl (unconstructed cfg).



Definition noKeyframeMessage (envIndex : Z) : string :=
  "setSensorTransformsFromKeyframe: for environment " +:+ pretty envIndex
  +:+ ", you have not yet called setEnvironmentKeyframe.".

Definition noUserTransformMessage (userName : string) (envIndex : Z) : string :=
  "setSensorTransformsFromKeyframe: couldn't find user transform " +:+ dquote
  +:+ userName +:+ dquote +:+ " for environment " +:+ pretty envIndex +:+ ".".

(** The body of the loop over [env.sensorMap_]. *)
Definition setSensorTransform (envIndex : Z) (prefix : string)
  (player : Player) (kv : string * Sensor) : M unit :=
  let sensorName := kv.1 in
  let sensor := kv.2 in
  let userName := prefix +:+ sensorName in
  let found := Player_getUserTransform player userName in
  ESP_CHECK (bool_decide (is_Some found))
    (noUserTransformMessage userName envIndex);;
  match found with
  | Some (translation, rotation) =>
      setRotation (sensorNode sensor) rotation;;
      setTranslation (sensorNode sensor) translation
  | None => undefined
  end.

Definition setSensorTransformsFromKeyframe (envIndex : Z) (prefix : string)
  : M unit :=
  assertEnvIndex envIndex;;
  env ← envAt envIndex;
  ESP_CHECK (Player_getNumKeyframes (player_ env) =? 1)
    (noKeyframeMessage envIndex);;
  forEach (setSensorTransform envIndex prefix (player_ env)) (sensorMap_ env).

Definition getEnvironmentSensorParentNode (envIndex : Z) : M NodeId :=
  assertEnvIndex envIndex;;
  env ← envAt envIndex;
  mret (sensorParentNode_ env).

Definition getEnvironmentSensors (envIndex : Z) : M SensorMap :=
  assertEnvIndex envIndex;;
  env ← envAt envIndex;
  mret (sensorMap_ env).

Definition getSceneGraph (envIndex : Z) : M SceneGraphRef :=
  assertEnvIndex envIndex;;
  env ← envAt envIndex;
  SceneManager_getSceneGraphRef (sceneID_ env).

Definition getSemanticSceneGraph (envIndex : Z) : M SceneGraphRef :=
  assertEnvIndex envIndex;;
  env ← envAt envIndex;
  SceneManager_getSceneGraphRef
    (if semanticSceneID_ env =? ID_UNDEFINED
     then sceneID_ env
     else semanticSceneID_ env).

Definition Player_keyframeFromString (serKeyframe : string) : M Keyframe :=
  fun s =>
    match keyframeFromString serKeyframe with
    | inr keyframe => Ok keyframe s
    | inl msg => Error msg s
    end.

Definition setEnvironmentKeyframe (envIndex : Z) (serKeyframe : string)
  : M unit :=
  assertEnvIndex envIndex;;
  keyframe ← Player_keyframeFromString serKeyframe;
  Player_setSingleKeyframe assetCallback lightCallback envIndex keyframe.

(** The state a call leaves behind, when it leaves one. *)
Definition stateAfter {A} (r : Result A) : option State :=
  match r with
  | Ok _ s => Some s
  | Error _ s => Some s
  | Fatal => None
  | Undefined => None
  end.

(** States of a constructed renderer: the constructor's, and those the two
    mutating operations of the public interface lead to, also when they
    report an error.  What a caller writes through the references the
    accessors hand out is not part of the renderer's behaviour and is left
    out. *)
Inductive reachable : State -> Prop :=
| reachable_constructor cfg gl s :
    constructor cfg gl = Ok tt s -> reachable s
| reachable_setEnvironmentKeyframe s envIndex serKeyframe s' :
    reachable s ->
    stateAfter (setEnvironmentKeyframe envIndex serKeyframe s) = Some s' ->
    reachable s'
| reachable_setSensorTransformsFromKeyframe s envIndex prefix s' :
    reachable s ->
    stateAfter (setSensorTransformsFromKeyframe envIndex prefix s) = Some s' ->
    reachable s'.

End ReplayBatchRenderer.

(** ** A small renderer to run the operations on *)

Module Sample.

Definition rgbPose : Transform :=
  mkTransform (mkVector3 1 2 3) (mkQuaternion (mkVector3 0 0 0) 1065353216).

Definition depthPose : Transform :=
  mkTransform (mkVector3 4 5 6) (mkQuaternion (mkVector3 0 1065353216 0) 0).

Definition chair : AssetInfo * RenderAssetInstanceCreationInfo :=
  (mkAssetInfo "chair.glb", mkCreationInfo "chair.glb" false).

(** A keyframe that records a pose for both sensors, and one for the depth
    sensor only. *)
Definition fullKeyframe : Keyframe :=
  mkKeyframe [chair] (Some [])
    (<["sensor_rgb" := rgbPose]> (<["sensor_depth" := depthPose]> ∅)).

Definition depthKeyframe : Keyframe :=
  mkKeyframe [chair] None (<["sensor_depth" := depthPose]> ∅).

(** A keyframe that records no pose at all. *)
Definition bareKeyframe : Keyframe := mkKeyframe [] None ∅.

(** A keyframe whose second asset the cache does not find. *)
Definition lostAsset : AssetInfo * RenderAssetInstanceCreationInfo :=
  (mkAssetInfo "missing.glb", mkCreationInfo "missing.glb" false).

Definition brokenKeyframe : Keyframe :=
  mkKeyframe [chair; lostAsset] (Some [])
    (<["sensor_rgb" := rgbPose]> (<["sensor_depth" := depthPose]> ∅)).

Definition keyframeFromString (serKeyframe : string) : string + Keyframe :=
  if String.eqb serKeyframe "full" then inr fullKeyframe
  else if String.eqb serKeyframe "depth" then inr depthKeyframe
  else if String.eqb serKeyframe "bare" then inr bareKeyframe
  else if String.eqb serKeyframe "broken" then inr brokenKeyframe
  else inl "keyframeFromString: parse error"%string.

Definition cfg : ReplayBatchRendererConfiguration :=
  mkConfiguration 2 [mkSensorSpec "rgb"; mkSensorSpec "depth"] 0 false false.

Definition cfgSeparate : ReplayBatchRendererConfiguration :=
  mkConfiguration 2 [mkSensorSpec "rgb"; mkSensorSpec "depth"] 0 true false.

Definition cfgEmpty : ReplayBatchRendererConfiguration :=
  mkConfiguration 0 [mkSensorSpec "rgb"; mkSensorSpec "depth"] 0 false false.

(** A cache that loads every asset but the one it does not find, and places
    an instance in the semantic graph exactly when the reference asks for a
    semantic instance. *)
Definition assets (assetInfo : AssetInfo)
  (creation : RenderAssetInstanceCreationInfo) : AssetOutcome :=
  if String.eqb (filepath assetInfo) "missing.glb"
  then AssetFails "ResourceManager: cannot load missing.glb"
  else AssetPlaced (creationIsSemantic creation)
         (mkTransform zeroVector identityRotation).

Definition gl : Platform := mkPlatform true (fun _ => true) assets.

Definition stateOf {A} (r : Result A) : State :=
  default (unconstructed cfg) (stateAfter r).

(** The record of environment [i]. *)
Definition env (s : State) (i : nat) : EnvironmentRecord :=
  default (mkEnvironmentRecord (mkPlayer 0 [] []) 0 0 0%nat []) (envs_ (this s) !! i).

Definition constructed : State := stateOf (constructor false cfg gl).

Definition constructedSeparate : State :=
  stateOf (constructor false cfgSeparate gl).

Definition withFull : State :=
  stateOf (setEnvironmentKeyframe keyframeFromString 0 "full" constructed).

Definition withDepth : State :=
  stateOf (setEnvironmentKeyframe keyframeFromString 0 "depth" constructed).

Definition withBare : State :=
  stateOf (setEnvironmentKeyframe keyframeFromString 0 "bare" constructed).

End Sample.

(** ** Well-formed states *)

Definition sensorNodes (m : SensorMap) : list NodeId :=
  map (fun kv => sensorNode kv.2) m.

(** The nodes an environment record refers to. *)
Definition envNodes (e : EnvironmentRecord) : list NodeId :=
  sensorParentNode_ e :: sensorNodes (sensorMap_ e).

Definition ownedNodes (r : ReplayBatchRenderer) : list NodeId :=
  envs_ r ≫= envNodes.

Record wf_env (s : State) (i : nat) (e : EnvironmentRecord) : Prop := mk_wf_env
  { wf_callback : assetCallbackEnvIdx (player_ e) = Z.of_nat i;
    wf_sorted : StronglySorted string_lt (map fst (sensorMap_ e));
    wf_single : (length (keyframes_ (player_ e)) <= 1)%nat;
    wf_scene : is_Some (SceneManager_lookup (sceneManager_ (this s)) (sceneID_ e));
    wf_semantic :
      is_Some (SceneManager_lookup (sceneManager_ (this s)) (semanticSceneID_ e));
    wf_flag :
      if forceSeparateSemanticSceneGraph (config_ (this s))
      then semanticSceneID_ e <> sceneID_ e
      else semanticSceneID_ e = sceneID_ e;
    wf_created :
      forall n, n ∈ createdInstances_ (player_ e) -> n ∉ ownedNodes (this s) }.

Record wf (s : State) : Prop := mk_wf
  { wf_envs : forall i e, envs_ (this s) !! i = Some e -> wf_env s i e;
    wf_nodup : NoDup (ownedNodes (this s));
    wf_alive : forall n, n ∈ ownedNodes (this s) -> is_Some (heap s !! n);
    wf_cache : is_Some (resourceManager_ (this s)) }.

(** As many records as the configuration asks for. *)
Definition wf_count (s : State) : Prop :=
  length (envs_ (this s)) = Z.to_nat (numEnvironments (config_ (this s))).



(** What the loop logs for a sensor whose transform is recorded. *)
Definition sensorWrites (prefix : string) (player : Player) (kv : string * Sensor)
  : list Event :=
  match Player_getUserTransform player (prefix +:+ kv.1) with
  | Some (t, r) => [EvSetRotation (sensorNode kv.2) r;
                    EvSetTranslation (sensorNode kv.2) t]
  | None => []
  end.

(** The first sensor of the map, in its order, whose user transform the
    keyframe does not record. *)
Definition firstMissing (kf : Keyframe) (prefix : string) (m : SensorMap)
  : option string :=
  fst <$> List.find (fun kv => bool_decide (userTransforms kf !! (prefix +:+ kv.1) = None)) m.

(** ** Reasoning about runs *)

(** [m] run from [s] returns normally, with a result and a state that
    satisfy [Q]. *)
Definition returns {A} (m : M A) (s : State) (Q : A -> State -> Prop) : Prop :=
  match m s with
  | Ok a s' => Q a s'
  | Error _ _ => False
  | Fatal => False
  | Undefined => False
  end.

(** [m] run from [s] returns normally, with a result and a state that
    satisfy [Q], or reports an error, with a message and a state that
    satisfy [E]. *)
Definition leaves {A} (m : M A) (s : State) (E : string -> State -> Prop)
  (Q : A -> State -> Prop) : Prop :=
  match m s with
  | Ok a s' => Q a s'
  | Error msg s' => E msg s'
  | Fatal => False
  | Undefined => False
  end.

(** The cache of state [s] fails on the asset reference [c], with [msg]. *)
Definition assetFailsIn (s : State)
  (c : AssetInfo * RenderAssetInstanceCreationInfo) (msg : string) : Prop :=
  exists rm,
    resourceManager_ (this s) = Some rm /\
    assetOutcome_ rm c.1 c.2 = AssetFails msg.

(** What a step on behalf of environment [i] may change: the player of
    record [i], nodes that no record refers to, the shared cache. *)
Record frame (i : nat) (s s' : State) : Prop := mk_frame
  { frame_config : config_ (this s') = config_ (this s);
    frame_scene : sceneManager_ (this s') = sceneManager_ (this s);
    frame_envs :
      exists f, envs_ (this s') =
                alter (fun e => with_player (f (player_ e)) e) i (envs_ (this s));
    frame_heap :
      forall n, n ∈ ownedNodes (this s) -> heap s' !! n = heap s !! n;
    frame_log : log s' = log s }.

(** The node store after the two writes of the sensor loop on node [n]. *)
Definition writeTransform (n : NodeId) (t : Vector3) (r : Quaternion)
  (h : gmap NodeId SceneNode) : gmap NodeId SceneNode :=
  alter (SceneNode_setTranslation t) n (alter (SceneNode_setRotation r) n h).

(** The keyframes held by the player of environment [i]. *)
Definition keyframesAt (i : nat) (s : State) : option (list Keyframe) :=
  (fun e => keyframes_ (player_ e)) <$> envs_ (this s) !! i.

(** Every player as the constructor leaves it. *)
Definition freshlyBuilt (s : State) : Prop :=
  forall e, e ∈ envs_ (this s) ->
    createdInstances_ (player_ e) = [] /\ keyframes_ (player_ e) = [].

Definition pushEnvironment (e : EnvironmentRecord) (s : State) : State :=
  with_this (with_envs (envs_ (this s) ++ [e]) (this s)) s.

(** The state after the player of record [i] was changed in place. *)
Definition playerUpdated (i : nat) (f : Player -> Player) (s : State) : State :=
  with_this (with_envs (alter (fun e => with_player (f (player_ e)) e) i
                          (envs_ (this s))) (this s)) s.

(** What a step that only allocates may change: new nodes, new scene
    graphs. *)
Record grows (s s' : State) : Prop := mk_grows
  { grows_config : config_ (this s') = config_ (this s);
    grows_cache :
      is_Some (resourceManager_ (this s)) -> is_Some (resourceManager_ (this s'));
    grows_envs : envs_ (this s') = envs_ (this s);
    grows_scene :
      sceneGraphs_ (sceneManager_ (this s)) `prefix_of`
      sceneGraphs_ (sceneManager_ (this s'));
    grows_heap : heap s ⊆ heap s';
    grows_log : log s' = log s }.

(** ** What the constructor builds *)

(** [std::map::emplace] on the keys alone. *)
Fixpoint names_emplace (k : string) (ks : list string) : list string :=
  match ks with
  | [] => [k]
  | k' :: rest =>
      match String.compare k k' with
      | Lt => k :: k' :: rest
      | Eq => k' :: rest
      | Gt => k' :: names_emplace k rest
      end
  end.

(** The keys of the sensor map that [createSensors] builds from a list of
    specifications. *)
Definition sensorNames (specs : list SensorSpec) : list string :=
  foldl (fun ks spec => names_emplace (uuid spec) ks) [] specs.

(** Scene graphs the constructor's loop creates per iteration. *)
Definition graphsPerEnvironment (cfg : ReplayBatchRendererConfiguration) : nat :=
  if forceSeparateSemanticSceneGraph cfg then 2%nat else 1%nat.

Definition namedByUuid (kv : string * Sensor) : Prop :=
  uuid (sensorSpec kv.2) = kv.1.

(** What record [i] and the nodes it refers to look like from construction
    on: its graph ids, its sensor names, and the wiring of its nodes (the
    sensor parent below the root of the primary graph, every sensor below
    the sensor parent). *)
Record built_env (s : State) (i : nat) (e : EnvironmentRecord) : Prop := mk_built_env
  { built_scene :
      sceneID_ e = Z.of_nat (graphsPerEnvironment (config_ (this s)) * i);
    built_semantic :
      semanticSceneID_ e =
      Z.of_nat (graphsPerEnvironment (config_ (this s)) * i
                + (graphsPerEnvironment (config_ (this s)) - 1));
    built_names :
      map fst (sensorMap_ e) = sensorNames (sensorSpecifications (config_ (this s)));
    built_uuid : Forall namedByUuid (sensorMap_ e);
    built_parent :
      exists g node,
        SceneManager_lookup (sceneManager_ (this s)) (sceneID_ e) = Some g /\
        heap s !! sensorParentNode_ e = Some node /\
        nodeParent node = Some (rootNode g);
    built_sensors :
      forall kv, kv ∈ sensorMap_ e ->
        exists node,
          heap s !! sensorNode kv.2 = Some node /\
          nodeParent node = Some (sensorParentNode_ e) }.

Record built (s : State) : Prop := mk_built
  { built_graphs :
      length (sceneGraphs_ (sceneManager_ (this s))) =
      (graphsPerEnvironment (config_ (this s)) * length (envs_ (this s)))%nat;
    built_envs : forall i e, envs_ (this s) !! i = Some e -> built_env s i e }.

(** ** What the destructor releases *)




(** ** The order on sensor names *)

Lemma string_lt_compare a b : string_lt a b <-> String.compare a b = Lt.
Proof.
  unfold string_lt, String.ltb. destruct (String.compare a b); split; congruence.
Qed.

Lemma string_lt_trans a b c : string_lt a b -> string_lt b c -> string_lt a c.
Proof.
  rewrite !string_lt_compare.
  change String.compare with OrderedTypeEx.String_as_OT.cmp.
  rewrite !OrderedTypeEx.String_as_OT.cmp_lt.
  apply OrderedTypeEx.String_as_OT.lt_trans.
Qed.

Lemma string_lt_irrefl a : ~ string_lt a a.
Proof.
  rewrite string_lt_compare.
  change String.compare with OrderedTypeEx.String_as_OT.cmp.
  rewrite OrderedTypeEx.String_as_OT.cmp_lt. intros H.
  exact (OrderedTypeEx.String_as_OT.lt_not_eq _ _ H eq_refl).
Qed.

Lemma string_compare_Gt a b : String.compare a b = Gt -> string_lt b a.
Proof.
  intros H. apply string_lt_compare.
  rewrite String.compare_antisym, H. reflexivity.
Qed.

Lemma string_lt_asym a b : string_lt a b -> ~ string_lt b a.
Proof. intros H1 H2. exact (string_lt_irrefl a (string_lt_trans _ _ _ H1 H2)). Qed.

(** ** [std::map::emplace] on the ordered sequence *)

Lemma SensorMap_emplace_cases k v m :
  SensorMap_emplace k v m = m \/
  exists m1 m2, m = m1 ++ m2 /\ SensorMap_emplace k v m = m1 ++ (k, v) :: m2.
Proof.
  induction m as [|[k' v'] m IH]; simpl.
  - right. exists [], []. auto.
  - destruct (String.compare k k').
    + left. reflexivity.
    + right. exists [], ((k', v') :: m). auto.
    + destruct IH as [IH | (m1 & m2 & Hm & IH)].
      * left. rewrite IH. reflexivity.
      * right. exists ((k', v') :: m1), m2. rewrite IH, Hm. auto.
Qed.

Lemma SensorMap_emplace_keys (P : string -> Prop) k v m :
  P k -> Forall P (map fst m) -> Forall P (map fst (SensorMap_emplace k v m)).
Proof.
  intros Hk Hm.
  destruct (SensorMap_emplace_cases k v m) as [-> | (m1 & m2 & -> & ->)]; [done|].
  rewrite map_app, Forall_app in Hm. destruct Hm.
  rewrite map_app, Forall_app. simpl. auto.
Qed.

Lemma SensorMap_emplace_sorted k v m :
  StronglySorted string_lt (map fst m) ->
  StronglySorted string_lt (map fst (SensorMap_emplace k v m)).
Proof.
  induction m as [|[k' v'] m IH]; simpl; intros Hs.
  - repeat constructor.
  - inversion Hs as [|? ? Hs' Hall]; subst.
    destruct (String.compare k k') eqn:Hc; simpl.
    + assumption.
    + apply string_lt_compare in Hc. constructor; [assumption|].
      constructor; [assumption|].
      eapply Forall_impl; [exact Hall|]. intros x Hx.
      exact (string_lt_trans _ _ _ Hc Hx).
    + constructor; [auto|].
      apply SensorMap_emplace_keys; [|assumption].
      apply string_compare_Gt. assumption.
Qed.

Lemma SensorMap_emplace_nodes k v m :
  sensorNode v ∉ sensorNodes m ->
  NoDup (sensorNodes m) ->
  NoDup (sensorNodes (SensorMap_emplace k v m)) /\
  (forall n, n ∈ sensorNodes (SensorMap_emplace k v m) ->
             n = sensorNode v \/ n ∈ sensorNodes m).
Proof.
  intros Hv Hnd. unfold sensorNodes in *.
  destruct (SensorMap_emplace_cases k v m) as [-> | (m1 & m2 & -> & ->)]; [auto|].
  rewrite map_app in *. simpl. split.
  - apply NoDup_app in Hnd as (H1 & H12 & H2).
    rewrite elem_of_app in Hv.
    apply NoDup_app. split; [assumption|]. split.
    + intros x Hx1 Hx2. apply elem_of_cons in Hx2 as [-> | Hx2].
      * apply Hv. left. exact Hx1.
      * exact (H12 _ Hx1 Hx2).
    + apply NoDup_cons. split; [|assumption].
      intros Hx. apply Hv. right. exact Hx.
  - intros n. rewrite map_app, !elem_of_app, elem_of_cons. tauto.
Qed.


(** ** Runs that return *)

Ltac split_ands := repeat match goal with |- _ /\ _ => split end.

Lemma returns_bind {A B} (m : M A) (k : A -> M B) s (Q : B -> State -> Prop) :
  returns m s (fun a s' => returns (k a) s' Q) -> returns (m ≫= k) s Q.
Proof. unfold returns, mbind, M_bind. destruct (m s); auto. Qed.

Lemma returns_ret {A} (a : A) s (Q : A -> State -> Prop) :
  Q a s -> returns (mret a) s Q.
Proof. auto. Qed.

Lemma returns_mono {A} (m : M A) s (Q Q' : A -> State -> Prop) :
  returns m s Q -> (forall a s', Q a s' -> Q' a s') -> returns m s Q'.
Proof. unfold returns. destruct (m s); auto. Qed.

Lemma returns_Ok {A} (m : M A) s (Q : A -> State -> Prop) :
  returns m s Q <-> exists a s', m s = Ok a s' /\ Q a s'.
Proof.
  unfold returns. split.
  - destruct (m s) as [a s'| | |]; [eauto | tauto | tauto | tauto].
  - intros (a & s' & -> & H). exact H.
Qed.

Lemma returns_forEach {A} (f : A -> M unit) (l : list A) (I : State -> Prop) s :
  I s ->
  (forall a s0, a ∈ l -> I s0 -> returns (f a) s0 (fun _ s' => I s')) ->
  returns (forEach f l) s (fun _ s' => I s').
Proof.
  revert s. induction l as [|a l IH]; intros s Hs Hf; simpl.
  - exact Hs.
  - apply returns_bind. eapply returns_mono.
    + apply Hf; [left | exact Hs].
    + intros [] s' Hs'. apply IH; [exact Hs'|].
      intros b s0 Hb. apply Hf. right. exact Hb.
Qed.

(** ** Allocation *)

Lemma grows_refl s : grows s s.
Proof. split; auto; reflexivity. Qed.

Lemma grows_trans s1 s2 s3 : grows s1 s2 -> grows s2 s3 -> grows s1 s3.
Proof.
  intros [a1 b1 c1 d1 e1 f1] [a2 b2 c2 d2 e2 f2]. split; try congruence.
  - auto.
  - etransitivity; eassumption.
  - etransitivity; eassumption.
Qed.

Lemma grows_dom s s' n : grows s s' -> n ∈ dom (heap s) -> n ∈ dom (heap s').
Proof.
  intros G. rewrite !elem_of_dom. intros [x Hx]. exists x.
  eapply lookup_weaken; [exact Hx | apply G].
Qed.

Lemma SceneManager_lookup_prefix sm sm' sceneID :
  sceneGraphs_ sm `prefix_of` sceneGraphs_ sm' ->
  is_Some (SceneManager_lookup sm sceneID) ->
  is_Some (SceneManager_lookup sm' sceneID).
Proof.
  unfold SceneManager_lookup. intros Hp. destruct (0 <=? sceneID); [|auto].
  intros [g Hg]. exists g. eapply prefix_lookup_Some; eassumption.
Qed.

Lemma SceneNode_createChild_returns parent s :
  returns (SceneNode_createChild parent) s (fun n s' =>
    grows s s' /\ (n ∉ dom (heap s)) /\ (n ∈ dom (heap s')) /\
    this s' = this s).
Proof.
  unfold returns, SceneNode_createChild. simpl.
  pose proof (is_fresh (dom (heap s))) as Hf.
  split; [|split; [exact Hf|split; [|reflexivity]]].
  - split; simpl; auto; try reflexivity.
    apply insert_subseteq. apply not_elem_of_dom. exact Hf.
  - rewrite dom_insert_L. apply elem_of_union_l, elem_of_singleton. reflexivity.
Qed.

Lemma SceneManager_initSceneGraph_returns s :
  returns SceneManager_initSceneGraph s (fun sceneID s' =>
    grows s s' /\
    sceneID = Z.of_nat (length (sceneGraphs_ (sceneManager_ (this s)))) /\
    length (sceneGraphs_ (sceneManager_ (this s'))) =
    S (length (sceneGraphs_ (sceneManager_ (this s)))) /\
    is_Some (SceneManager_lookup (sceneManager_ (this s')) sceneID)).
Proof.
  unfold returns, SceneManager_initSceneGraph. simpl.
  pose proof (is_fresh (dom (heap s))) as Hf.
  split; [|split; [reflexivity|split]].
  - split; simpl; auto; try reflexivity.
    + apply prefix_app_r. reflexivity.
    + apply insert_subseteq. apply not_elem_of_dom. exact Hf.
  - rewrite length_app. simpl. lia.
  - unfold SceneManager_lookup. simpl.
    destruct (Z.leb_spec 0 (Z.of_nat (length (sceneGraphs_ (sceneManager_ (this s))))));
      [|lia].
    rewrite Nat2Z.id. rewrite lookup_app_r by lia.
    rewrite Nat.sub_diag. simpl. eauto.
Qed.

Lemma SensorFactory_createSensors_returns parent specs :
  forall acc s,
    StronglySorted string_lt (map fst acc) ->
    NoDup (sensorNodes acc) ->
    (forall n, n ∈ sensorNodes acc -> n ∈ dom (heap s)) ->
    returns (SensorFactory_createSensors parent specs acc) s (fun m s' =>
      grows s s' /\
      sceneManager_ (this s') = sceneManager_ (this s) /\
      StronglySorted string_lt (map fst m) /\
      NoDup (sensorNodes m) /\
      (forall n, n ∈ sensorNodes m -> n ∈ dom (heap s')) /\
      (forall n, n ∈ sensorNodes m -> n ∈ sensorNodes acc \/ n ∉ dom (heap s))).
Proof.
  induction specs as [|spec specs IH]; intros acc s Hsorted Hnd Hdom; simpl.
  - apply returns_ret. repeat split; auto using grows_refl.
  - apply returns_bind. eapply returns_mono; [apply SceneNode_createChild_returns|].
    intros n s1 (G1 & Hfresh & Hin & Hsm1).
    assert (Hn : sensorNode (mkSensor n spec) ∉ sensorNodes acc).
    { simpl. intros Hn. apply Hfresh. apply Hdom. exact Hn. }
    destruct (SensorMap_emplace_nodes (uuid spec) (mkSensor n spec) acc Hn Hnd)
      as [Hnd' Hsub].
    eapply returns_mono.
    + apply IH.
      * apply SensorMap_emplace_sorted. exact Hsorted.
      * exact Hnd'.
      * intros x Hx. destruct (Hsub x Hx) as [-> | Hx'].
        -- exact Hin.
        -- eapply grows_dom; [exact G1 | apply Hdom; exact Hx'].
    + intros m s2 (G2 & Hsm2 & Hs & Hn2 & Hd2 & Hnew).
      split; [eapply grows_trans; eassumption|].
      split; [congruence|]. split; [exact Hs|]. split; [exact Hn2|].
      split; [exact Hd2|].
      intros x Hx. destruct (Hnew x Hx) as [Hx' | Hx'].
      * destruct (Hsub x Hx') as [-> | Hacc]; [right; exact Hfresh | left; exact Hacc].
      * right. intros Hxs. apply Hx'. eapply grows_dom; eassumption.
Qed.

(** ** Well-formedness is kept by allocation and by a new record *)

Lemma ownedNodes_spec r n :
  n ∈ ownedNodes r <-> exists e, e ∈ envs_ r /\ n ∈ envNodes e.
Proof.
  unfold ownedNodes. rewrite list_elem_of_bind.
  split; intros (e & H1 & H2); exists e; auto.
Qed.

Lemma wf_env_transfer s s' i e :
  config_ (this s') = config_ (this s) ->
  sceneGraphs_ (sceneManager_ (this s)) `prefix_of`
    sceneGraphs_ (sceneManager_ (this s')) ->
  (forall n, n ∈ createdInstances_ (player_ e) -> n ∉ ownedNodes (this s')) ->
  wf_env s i e -> wf_env s' i e.
Proof.
  intros Hc Hp Hcr [H1 H2 H3 H4 H5 H6 H7]. split; auto.
  - eapply SceneManager_lookup_prefix; eassumption.
  - eapply SceneManager_lookup_prefix; eassumption.
  - rewrite Hc. exact H6.
Qed.

Lemma wf_grows s s' : wf s -> grows s s' -> wf s'.
Proof.
  intros [He Hn Ha Hc] G.
  assert (Ho : ownedNodes (this s') = ownedNodes (this s)).
  { unfold ownedNodes. rewrite (grows_envs _ _ G). reflexivity. }
  split.
  - intros i e Hi. rewrite (grows_envs _ _ G) in Hi.
    eapply wf_env_transfer; [apply G | apply G | | apply He; exact Hi].
    rewrite Ho. apply (wf_created _ _ _ (He i e Hi)).
  - rewrite Ho. exact Hn.
  - intros n Hin. rewrite Ho in Hin. destruct (Ha n Hin) as [x Hx].
    exists x. eapply lookup_weaken; [exact Hx | apply G].
  - apply G. exact Hc.
Qed.

Lemma ownedNodes_push e s :
  ownedNodes (this (pushEnvironment e s)) = ownedNodes (this s) ++ envNodes e.
Proof.
  unfold ownedNodes, pushEnvironment. simpl.
  rewrite bind_app. simpl. rewrite app_nil_r. reflexivity.
Qed.

Lemma wf_push s e :
  wf s ->
  wf_env s (length (envs_ (this s))) e ->
  createdInstances_ (player_ e) = [] ->
  NoDup (envNodes e) ->
  (forall n, n ∈ envNodes e -> (n ∉ ownedNodes (this s)) /\ is_Some (heap s !! n)) ->
  (forall i e0 n, envs_ (this s) !! i = Some e0 ->
                  n ∈ createdInstances_ (player_ e0) -> n ∉ envNodes e) ->
  wf (pushEnvironment e s).
Proof.
  intros [He Hn Ha Hc] Hnew Hcr Hnd Hfresh Hold.
  split.
  - intros i e0 Hi. simpl in Hi.
    apply lookup_app_Some in Hi as [Hi | [Hlen Hi]].
    + eapply wf_env_transfer with (s := s); [reflexivity | reflexivity | | apply He; exact Hi].
      intros n Hin. rewrite ownedNodes_push, elem_of_app.
      intros [Ho | Ho].
      * exact (wf_created _ _ _ (He i e0 Hi) n Hin Ho).
      * exact (Hold i e0 n Hi Hin Ho).
    + destruct (i - length (envs_ (this s)))%nat eqn:Hd; simpl in Hi; [|done].
      injection Hi as <-. assert (i = length (envs_ (this s))) as -> by lia.
      eapply wf_env_transfer with (s := s); [reflexivity | reflexivity | | exact Hnew].
      rewrite Hcr. intros n Hin. inversion Hin.
  - rewrite ownedNodes_push. apply NoDup_app. split; [exact Hn|]. split; [|exact Hnd].
    intros x Hx1 Hx2. exact (proj1 (Hfresh x Hx2) Hx1).
  - intros n. rewrite ownedNodes_push, elem_of_app. intros [Hin | Hin].
    + apply Ha. exact Hin.
    + apply Hfresh. exact Hin.
  - exact Hc.
Qed.

(** ** The constructor *)

Lemma SceneManager_lookup_Some sm sceneID g :
  SceneManager_lookup sm sceneID = Some g ->
  0 <= sceneID /\ sceneGraphs_ sm !! Z.to_nat sceneID = Some g /\
  sceneID < Z.of_nat (length (sceneGraphs_ sm)).
Proof.
  unfold SceneManager_lookup. destruct (Z.leb_spec 0 sceneID); [|done].
  intros Hg. split; [assumption|]. split; [assumption|].
  apply lookup_lt_Some in Hg. lia.
Qed.

Lemma semanticSceneID_returns (flag : bool) sceneID s :
  is_Some (SceneManager_lookup (sceneManager_ (this s)) sceneID) ->
  returns (if flag then SceneManager_initSceneGraph else mret sceneID) s
    (fun semanticSceneID s' =>
       grows s s' /\
       is_Some (SceneManager_lookup (sceneManager_ (this s')) semanticSceneID) /\
       if flag then semanticSceneID <> sceneID else semanticSceneID = sceneID).
Proof.
  intros [g Hg]. destruct flag.
  - eapply returns_mono; [apply SceneManager_initSceneGraph_returns|].
    intros sem s' (G & Hid & _ & Hv). split; [exact G|]. split; [exact Hv|].
    apply SceneManager_lookup_Some in Hg. lia.
  - apply returns_ret. split; [apply grows_refl|]. split; [eauto|reflexivity].
Qed.

Lemma SceneManager_getSceneGraphRef_returns sceneID s :
  is_Some (SceneManager_lookup (sceneManager_ (this s)) sceneID) ->
  SceneManager_getSceneGraphRef sceneID s = Ok (Z.to_nat sceneID) s.
Proof.
  intros [g Hg]. unfold SceneManager_getSceneGraphRef, SceneManager_getSceneGraph.
  unfold mbind, M_bind. rewrite Hg. reflexivity.
Qed.

Lemma SceneGraph_getRootNode_returns sceneID s :
  is_Some (SceneManager_lookup (sceneManager_ (this s)) sceneID) ->
  exists root, SceneGraph_getRootNode (Z.to_nat sceneID) s = Ok root s.
Proof.
  intros [g Hg]. apply SceneManager_lookup_Some in Hg as (_ & Hg & _).
  unfold SceneGraph_getRootNode. rewrite Hg. eauto.
Qed.

Lemma constructEnvironment_returns cfg s :
  wf s -> config_ (this s) = cfg -> freshlyBuilt s ->
  returns (constructEnvironment cfg (Z.of_nat (length (envs_ (this s))))) s
    (fun _ s' =>
       wf s' /\ config_ (this s') = cfg /\ freshlyBuilt s' /\
       length (envs_ (this s')) = S (length (envs_ (this s))) /\
       log s' = log s).
Proof.
  intros Hwf Hcfg Hfb. unfold constructEnvironment.
  apply returns_bind.
  eapply returns_mono; [apply SceneManager_initSceneGraph_returns|].
  intros sceneID s1 (G1 & _ & _ & Hv1).
  apply returns_bind.
  eapply returns_mono; [apply semanticSceneID_returns; exact Hv1|].
  intros semanticSceneID s2 (G2 & Hv2 & Hflag).
  pose proof (SceneManager_lookup_prefix _ _ _ (grows_scene _ _ G2) Hv1) as Hv1'.
  apply returns_bind. unfold returns at 1.
  rewrite (SceneManager_getSceneGraphRef_returns _ _ Hv1').
  apply returns_bind. unfold returns at 1.
  destruct (SceneGraph_getRootNode_returns _ _ Hv1') as [root ->].
  apply returns_bind.
  eapply returns_mono; [apply SceneNode_createChild_returns|].
  intros parentNode s3 (G3 & Hp2 & Hp3 & Hsm3).
  apply returns_bind.
  eapply returns_mono.
  { apply (SensorFactory_createSensors_returns parentNode (sensorSpecifications cfg) [] s3).
    - constructor.
    - constructor.
    - intros n Hn. inversion Hn. }
  intros sensorMap s4 (G4 & Hsm4 & Hsorted & Hnd & Hdom & Hnew).
  assert (G : grows s s4).
  { eapply grows_trans; [exact G1|]. eapply grows_trans; [exact G2|].
    eapply grows_trans; [exact G3|exact G4]. }
  assert (G24 : grows s2 s4) by (eapply grows_trans; eassumption).
  pose proof (wf_grows _ _ Hwf G) as Hwf4.
  assert (Hown : forall n, n ∈ ownedNodes (this s4) -> n ∈ dom (heap s)).
  { intros n Hn. unfold ownedNodes in Hn. rewrite (grows_envs _ _ G) in Hn.
    apply elem_of_dom. apply (wf_alive _ Hwf). exact Hn. }
  set (e := mkEnvironmentRecord
              (mkPlayer (Z.of_nat (length (envs_ (this s)))) [] []) sceneID
              semanticSceneID parentNode sensorMap).
  change (let s' := pushEnvironment e s4 in
          wf s' /\ config_ (this s') = cfg /\ freshlyBuilt s' /\
          length (envs_ (this s')) = S (length (envs_ (this s))) /\
          log s' = log s).
  simpl. split; [|split; [|split; [|split]]].
  - apply wf_push.
    + exact Hwf4.
    + rewrite (grows_envs _ _ G). split; simpl.
      * reflexivity.
      * exact Hsorted.
      * lia.
      * eapply SceneManager_lookup_prefix; [apply G24 | exact Hv1'].
      * eapply SceneManager_lookup_prefix; [apply G24 | exact Hv2].
      * rewrite (grows_config _ _ G), Hcfg. exact Hflag.
      * intros n Hn. inversion Hn.
    + reflexivity.
    + simpl. apply NoDup_cons. split; [|exact Hnd].
      intros Hin. destruct (Hnew _ Hin) as [Hin' | Hin']; [inversion Hin'|].
      exact (Hin' Hp3).
    + intros n Hn. simpl in Hn. apply elem_of_cons in Hn as [-> | Hn].
      * split.
        -- intros Ho. apply Hp2. eapply grows_dom; [|apply Hown; exact Ho].
           exact (grows_trans _ _ _ G1 G2).
        -- apply elem_of_dom. eapply grows_dom; [exact G4 | exact Hp3].
      * split.
        -- intros Ho. destruct (Hnew _ Hn) as [Hin' | Hin']; [inversion Hin'|].
           apply Hin'. eapply grows_dom; [|apply Hown; exact Ho].
           exact (grows_trans _ _ _ G1 (grows_trans _ _ _ G2 G3)).
        -- apply elem_of_dom. apply Hdom. exact Hn.
    + intros i e0 n Hi Hn. rewrite (grows_envs _ _ G) in Hi.
      apply list_elem_of_lookup_2 in Hi. destruct (Hfb e0 Hi) as [Hc _].
      rewrite Hc in Hn. inversion Hn.
  - rewrite (grows_config _ _ G). exact Hcfg.
  - intros e0. unfold pushEnvironment. simpl. rewrite (grows_envs _ _ G).
    rewrite elem_of_app. intros [He0 | He0]; [apply Hfb; exact He0|].
    apply list_elem_of_singleton in He0 as ->. split; reflexivity.
  - rewrite length_app, (grows_envs _ _ G). simpl. lia.
  - apply G.
Qed.

Lemma bind_Ok_inv {A B} (m : M A) (k : A -> M B) s b s2 :
  (m ≫= k) s = Ok b s2 -> exists a s1, m s = Ok a s1 /\ k a s1 = Ok b s2.
Proof.
  unfold mbind, M_bind. destruct (m s) as [a s1| | |]; [eauto | done | done | done].
Qed.

Lemma bind_Ok {A B} (m : M A) (k : A -> M B) s a s1 :
  m s = Ok a s1 -> (m ≫= k) s = k a s1.
Proof. unfold mbind, M_bind. intros ->. reflexivity. Qed.

Lemma constructEnvironments_returns cfg n :
  forall s,
    wf s -> config_ (this s) = cfg -> freshlyBuilt s ->
    returns (forEach (constructEnvironment cfg)
               (seqZ (Z.of_nat (length (envs_ (this s)))) (Z.of_nat n))) s
      (fun _ s' =>
         wf s' /\ config_ (this s') = cfg /\ freshlyBuilt s' /\
         length (envs_ (this s')) = (length (envs_ (this s)) + n)%nat /\
         log s' = log s).
Proof.
  induction n as [|n IH]; intros s Hwf Hcfg Hfb.
  - rewrite seqZ_nil by lia. unfold returns. simpl. split_ands; auto.
  - rewrite seqZ_cons by lia. simpl forEach. apply returns_bind.
    eapply returns_mono; [apply constructEnvironment_returns; assumption|].
    intros [] s1 (Hwf1 & Hcfg1 & Hfb1 & Hlen1 & Hlog1).
    replace (Z.succ (Z.of_nat (length (envs_ (this s)))))
      with (Z.of_nat (length (envs_ (this s1)))) by lia.
    replace (Z.pred (Z.of_nat (S n))) with (Z.of_nat n) by lia.
    eapply returns_mono; [apply IH; assumption|].
    intros [] s2 (Hwf2 & Hcfg2 & Hfb2 & Hlen2 & Hlog2).
    split_ands; auto; [lia | congruence].
Qed.

Lemma grows_with_this r s :
  config_ r = config_ (this s) ->
  (is_Some (resourceManager_ (this s)) -> is_Some (resourceManager_ r)) ->
  sceneManager_ r = sceneManager_ (this s) ->
  envs_ r = envs_ (this s) ->
  grows s (with_this r s).
Proof.
  intros H1 H2 H3 H4. split; simpl; auto.
  rewrite H3. reflexivity.
Qed.

(** The constructor's loop, from the empty object. *)
Lemma constructor_environments cfg rm :
  returns
    (modifyThis (with_resourceManager (Some rm));;
     modifyThis (with_sceneManager (mkSceneManager []));;
     forEach (constructEnvironment cfg) (seqZ 0 (numEnvironments cfg)))
    (unconstructed cfg)
    (fun _ s =>
       wf s /\ wf_count s /\ config_ (this s) = cfg /\ freshlyBuilt s /\ log s = []).
Proof.
  apply returns_bind. unfold returns at 1. simpl.
  apply returns_bind. unfold returns at 1. simpl.
  set (s0 := with_this _ _).
  assert (Hwf0 : wf s0).
  { split; simpl.
    - intros i e Hi. rewrite lookup_nil in Hi. done.
    - constructor.
    - intros n Hn. inversion Hn.
    - eauto. }
  assert (Hfb0 : freshlyBuilt s0).
  { intros e He. inversion He. }
  destruct (Z.le_gt_cases (numEnvironments cfg) 0) as [Hn | Hn].
  - rewrite seqZ_nil by lia. apply returns_ret. split_ands; auto.
    unfold wf_count. simpl. rewrite Z2Nat.nonpos by lia. reflexivity.
  - pose proof (constructEnvironments_returns cfg (Z.to_nat (numEnvironments cfg))
                  s0 Hwf0 eq_refl Hfb0) as H.
    simpl in H. rewrite Z2Nat.id in H by lia.
    eapply returns_mono; [exact H|].
    intros [] s1 (Hwf1 & Hcfg1 & Hfb1 & Hlen1 & Hlog1).
    split_ands; auto. unfold wf_count. rewrite Hcfg1. exact Hlen1.
Qed.

Lemma constructorBody_split bg cfg gl :
  constructorBody bg cfg gl =
  ((modifyThis (with_resourceManager
                  (Some (mkResourceManager None (assetOutcome gl))));;
    modifyThis (with_sceneManager (mkSceneManager []));;
    forEach (constructEnvironment cfg) (seqZ 0 (numEnvironments cfg)));;
   (if glHasCurrent gl then mret tt
    else c ← WindowlessContext_create gl (gpuDeviceId cfg);
         modifyThis (with_context (Some c)));;
   s ← getState;
   let flags := rendererFlagsFor bg cfg (bool_decide (is_Some (context_ (this s)))) in
   modifyThis (with_renderer (Some (mkRenderer flags false)));;
   modifyThis (with_renderer (Some (mkRenderer flags true)))).
Proof.
  unfold constructorBody, mbind, M_bind. reflexivity.
Qed.

(** The constructor returns when a GL context is current or can be created,
    and aborts otherwise, whatever the environment count. *)
Lemma constructor_returns bg cfg gl :
  glHasCurrent gl = true \/ glDeviceUsable gl (gpuDeviceId cfg) = true ->
  exists s, constructor bg cfg gl = Ok tt s.
Proof.
  intros Hgl. unfold constructor. rewrite constructorBody_split.
  destruct (proj1 (returns_Ok _ _ _) (constructor_environments cfg
              (mkResourceManager None (assetOutcome gl))))
    as ([] & s1 & Hs1 & _).
  rewrite (bind_Ok _ _ _ _ _ Hs1).
  unfold WindowlessContext_create.
  destruct (glHasCurrent gl) eqn:Hc.
  - eexists. reflexivity.
  - destruct Hgl as [Hgl | Hgl]; [done|]. rewrite Hgl. eexists. reflexivity.
Qed.

Lemma constructor_Ok bg cfg gl s :
  constructor bg cfg gl = Ok tt s ->
  wf s /\ wf_count s /\ config_ (this s) = cfg /\ freshlyBuilt s /\ log s = [].
Proof.
  unfold constructor. rewrite constructorBody_split.
  destruct (proj1 (returns_Ok _ _ _) (constructor_environments cfg
              (mkResourceManager None (assetOutcome gl))))
    as ([] & s1 & Hs1 & Hwf1 & Hcount1 & Hcfg1 & Hfb1 & Hlog1).
  rewrite (bind_Ok _ _ _ _ _ Hs1).
  intros H.
  assert (exists r, s = with_this r s1 /\ config_ r = config_ (this s1) /\
                    resourceManager_ r = resourceManager_ (this s1) /\
                    sceneManager_ r = sceneManager_ (this s1) /\
                    envs_ r = envs_ (this s1)) as (r & -> & Hr1 & Hr2 & Hr3 & Hr4).
  { unfold WindowlessContext_create in H.
    destruct (glHasCurrent gl).
    - injection H as <-. eexists. split; [reflexivity|]. simpl. auto.
    - destruct (glDeviceUsable gl (gpuDeviceId cfg)); [|done].
      injection H as <-. eexists. split; [reflexivity|]. simpl. auto. }
  split; [eapply wf_grows; [exact Hwf1 | apply grows_with_this; try assumption;
                            rewrite Hr2; auto]|].
  split; [unfold wf_count in *; simpl; congruence|].
  split; [simpl; congruence|].
  split; [|exact Hlog1].
  intros e He. simpl in He. rewrite Hr4 in He. apply Hfb1. exact He.
Qed.

(** ** Steps on behalf of one environment *)

Lemma envNodes_with_player p e : envNodes (with_player p e) = envNodes e.
Proof. reflexivity. Qed.

Lemma ownedNodes_alter (f : Player -> Player) i r :
  ownedNodes (with_envs (alter (fun e => with_player (f (player_ e)) e) i (envs_ r)) r)
  = ownedNodes r.
Proof.
  unfold ownedNodes. simpl. generalize (envs_ r). intros l. revert i.
  induction l as [|e l IH]; intros [|i]; simpl; try reflexivity.
  do 2 f_equal. apply IH.
Qed.

Lemma frame_owned i s s' : frame i s s' -> ownedNodes (this s') = ownedNodes (this s).
Proof.
  intros [_ _ [f Hf] _ _]. unfold ownedNodes at 1. rewrite Hf.
  apply (ownedNodes_alter f i (this s)).
Qed.

Lemma alter_player_id i (l : list EnvironmentRecord) :
  alter (fun e => with_player (id (player_ e)) e) i l = l.
Proof.
  revert i. induction l as [|e l IH]; intros [|i]; simpl; try reflexivity.
  - destruct e. reflexivity.
  - f_equal. apply IH.
Qed.

Lemma alter_player_compose (f g : Player -> Player) i (l : list EnvironmentRecord) :
  alter (fun e => with_player (g (player_ e)) e) i
    (alter (fun e => with_player (f (player_ e)) e) i l)
  = alter (fun e => with_player (g (f (player_ e))) e) i l.
Proof.
  revert i. induction l as [|e l IH]; intros [|i]; simpl; try reflexivity.
  f_equal. apply IH.
Qed.

Lemma frame_refl i s : frame i s s.
Proof.
  split; auto. exists id. symmetry. apply alter_player_id.
Qed.

Lemma frame_trans i s1 s2 s3 : frame i s1 s2 -> frame i s2 s3 -> frame i s1 s3.
Proof.
  intros F1 F2. pose proof (frame_owned _ _ _ F1) as Ho.
  destruct F1 as [a1 b1 [f Hf] d1 e1]. destruct F2 as [a2 b2 [g Hg] d2 e2].
  split; try congruence.
  - exists (fun p => g (f p)). rewrite Hg, Hf. apply alter_player_compose.
  - intros n Hn. rewrite d2 by (rewrite Ho; exact Hn). apply d1. exact Hn.
Qed.

Lemma frame_length i s s' :
  frame i s s' -> length (envs_ (this s')) = length (envs_ (this s)).
Proof. intros [_ _ [f ->] _ _]. apply length_alter. Qed.

Lemma frame_other i j s s' :
  frame i s s' -> j <> i -> envs_ (this s') !! j = envs_ (this s) !! j.
Proof. intros [_ _ [f ->] _ _] Hj. apply list_lookup_alter_ne. auto. Qed.

Lemma frame_count i s s' : frame i s s' -> wf_count s -> wf_count s'.
Proof.
  intros F. unfold wf_count. rewrite (frame_length _ _ _ F), (frame_config _ _ _ F).
  auto.
Qed.

(** Allocation is such a step. *)
Lemma frame_grows i s s' :
  wf s -> grows s s' -> sceneManager_ (this s') = sceneManager_ (this s) ->
  frame i s s'.
Proof.
  intros Hwf G Hsm. split.
  - apply G.
  - exact Hsm.
  - exists id. rewrite alter_player_id. apply G.
  - intros n Hn. destruct (wf_alive _ Hwf n Hn) as [x Hx]. rewrite Hx.
    eapply lookup_weaken; [exact Hx | apply G].
  - apply G.
Qed.

Lemma updatePlayer_run envIndex f s :
  updatePlayer envIndex f s = Ok tt (playerUpdated (Z.to_nat envIndex) f s).
Proof. reflexivity. Qed.

Lemma wf_playerUpdated i f s :
  wf s ->
  (forall p, assetCallbackEnvIdx (f p) = assetCallbackEnvIdx p) ->
  (forall e, envs_ (this s) !! i = Some e ->
     (length (keyframes_ (f (player_ e))) <= 1)%nat /\
     forall n, n ∈ createdInstances_ (f (player_ e)) -> n ∉ ownedNodes (this s)) ->
  wf (playerUpdated i f s) /\ frame i s (playerUpdated i f s).
Proof.
  intros Hwf Hidx Hf.
  assert (Ho : ownedNodes (this (playerUpdated i f s)) = ownedNodes (this s))
    by apply (ownedNodes_alter f i (this s)).
  split.
  - destruct Hwf as [He Hn Ha Hc]. split.
    + intros j e' Hj. simpl in Hj.
      destruct (decide (j = i)) as [-> | Hne].
      * rewrite list_lookup_alter_eq in Hj.
        destruct (envs_ (this s) !! i) as [e|] eqn:Hi; [|done].
        injection Hj as <-. destruct (He i e Hi) as [H1 H2 H3 H4 H5 H6 H7].
        destruct (Hf e eq_refl) as [Hk Hcr].
        split; [simpl; rewrite Hidx; exact H1 | exact H2 | exact Hk | exact H4
               | exact H5 | exact H6 |].
        intros n Hn'. rewrite Ho. apply Hcr. exact Hn'.
      * rewrite list_lookup_alter_ne in Hj by auto.
        destruct (He j e' Hj) as [H1 H2 H3 H4 H5 H6 H7].
        split; [exact H1 | exact H2 | exact H3 | exact H4 | exact H5 | exact H6 |].
        intros n Hn'. rewrite Ho. apply H7. exact Hn'.
    + rewrite Ho. exact Hn.
    + intros n Hn'. rewrite Ho in Hn'. apply Ha. exact Hn'.
    + exact Hc.
  - split; simpl; auto. exists f. reflexivity.
Qed.

Lemma wf_deleteNode i n s :
  wf s -> n ∉ ownedNodes (this s) ->
  wf (with_heap (delete n (heap s)) s) /\ frame i s (with_heap (delete n (heap s)) s).
Proof.
  intros Hwf Hn.
  assert (Hl : forall m, m ∈ ownedNodes (this s) -> delete n (heap s) !! m = heap s !! m).
  { intros m Hm. apply lookup_delete_ne. intros ->. exact (Hn Hm). }
  split.
  - destruct Hwf as [He Hnd Ha Hc]. split; simpl; auto.
    + intros j e Hj. destruct (He j e Hj). split; auto.
    + intros m Hm. rewrite Hl by exact Hm. apply Ha. exact Hm.
  - split; simpl; auto. exists id. symmetry. apply alter_player_id.
Qed.

Lemma deleteNodes_returns i (l : list NodeId) s :
  wf s -> (forall n, n ∈ l -> n ∉ ownedNodes (this s)) ->
  returns (forEach (fun n => modifyHeap (delete n)) l) s (fun _ s' =>
    wf s' /\ frame i s s' /\ this s' = this s).
Proof.
  intros Hwf Hl.
  apply (returns_forEach _ l (fun s' => wf s' /\ frame i s s' /\ this s' = this s)).
  - split; [exact Hwf|]. split; [apply frame_refl | reflexivity].
  - intros n s0 Hn (Hwf0 & F0 & Ht0). unfold returns. simpl.
    destruct (wf_deleteNode i n s0 Hwf0) as [Hwf1 F1].
    { rewrite Ht0. apply Hl. exact Hn. }
    split; [exact Hwf1|]. split; [eapply frame_trans; eassumption|exact Ht0].
Qed.

Lemma envIndexInRange_spec envIndex s :
  envIndexInRange envIndex s = true <->
  0 <= envIndex < Z.of_nat (length (envs_ (this s))).
Proof.
  unfold envIndexInRange. rewrite andb_true_iff, Z.leb_le, Z.ltb_lt. tauto.
Qed.

Lemma envIndexInRange_lookup envIndex s :
  envIndexInRange envIndex s = true ->
  exists e, envs_ (this s) !! Z.to_nat envIndex = Some e.
Proof.
  rewrite envIndexInRange_spec. intros H.
  apply lookup_lt_is_Some. lia.
Qed.

Lemma assertEnvIndex_run envIndex s :
  assertEnvIndex envIndex s = if envIndexInRange envIndex s then Ok tt s else Fatal.
Proof. reflexivity. Qed.

Lemma envAt_run envIndex s e :
  envs_ (this s) !! Z.to_nat envIndex = Some e -> envAt envIndex s = Ok e s.
Proof. unfold envAt. intros ->. reflexivity. Qed.

Lemma readPlayer_run envIndex s e :
  envs_ (this s) !! Z.to_nat envIndex = Some e ->
  readPlayer envIndex s = Ok (player_ e) s.
Proof. unfold readPlayer. intros ->. reflexivity. Qed.

Lemma Player_releaseInstances_returns envIndex s :
  wf s -> envIndexInRange envIndex s = true ->
  returns (Player_releaseInstances envIndex) s (fun _ s' =>
    wf s' /\ frame (Z.to_nat envIndex) s s' /\
    resourceManager_ (this s') = resourceManager_ (this s)).
Proof.
  intros Hwf Hr. destruct (envIndexInRange_lookup _ _ Hr) as [e He].
  unfold Player_releaseInstances. apply returns_bind. unfold returns at 1.
  rewrite (readPlayer_run _ _ _ He).
  apply returns_bind. eapply returns_mono.
  { apply (deleteNodes_returns (Z.to_nat envIndex) _ s Hwf).
    apply (wf_created _ _ _ (wf_envs _ Hwf _ _ He)). }
  intros [] s1 (Hwf1 & F1 & Ht1). unfold returns. rewrite updatePlayer_run.
  destruct (wf_playerUpdated (Z.to_nat envIndex)
              (fun p => mkPlayer (assetCallbackEnvIdx p) (keyframes_ p) []) s1 Hwf1)
    as [Hwf2 F2].
  - reflexivity.
  - intros e1 He1. split; [apply (wf_single _ _ _ (wf_envs _ Hwf1 _ _ He1))|].
    simpl. intros n Hn. inversion Hn.
  - split; [exact Hwf2|]. split; [eapply frame_trans; eassumption|].
    unfold playerUpdated. simpl. rewrite Ht1. reflexivity.
Qed.

(** The asset callback of a well-formed renderer allocates one node and
    touches nothing else. *)
Lemma leaves_bind {A B} (m : M A) (k : A -> M B) s E (Q : B -> State -> Prop) :
  leaves m s E (fun a s' => leaves (k a) s' E Q) -> leaves (m ≫= k) s E Q.
Proof. unfold leaves, mbind, M_bind. destruct (m s); auto. Qed.

Lemma returns_leaves {A} (m : M A) s E (Q : A -> State -> Prop) :
  returns m s Q -> leaves m s E Q.
Proof. unfold returns, leaves. destruct (m s); tauto. Qed.

Lemma leaves_mono {A} (m : M A) s (E E' : string -> State -> Prop)
  (Q Q' : A -> State -> Prop) :
  leaves m s E Q ->
  (forall msg s', E msg s' -> E' msg s') ->
  (forall a s', Q a s' -> Q' a s') ->
  leaves m s E' Q'.
Proof. unfold leaves. destruct (m s); auto. Qed.

Lemma leaves_forEach {A} (f : A -> M unit) (l : list A) (I : State -> Prop) E s :
  I s ->
  (forall a s0, a ∈ l -> I s0 -> leaves (f a) s0 E (fun _ s' => I s')) ->
  leaves (forEach f l) s E (fun _ s' => I s').
Proof.
  revert s. induction l as [|a l IH]; intros s Hs Hf; simpl.
  - exact Hs.
  - apply leaves_bind. eapply leaves_mono.
    + apply Hf; [left | exact Hs].
    + auto.
    + intros [] s' Hs'. apply IH; [exact Hs'|].
      intros b s0 Hb. apply Hf. right. exact Hb.
Qed.

(** The asset callback returns a node that did not exist, or hands on the
    failure of the cache and changes nothing. *)
Lemma assetCallback_leaves envIndex assetInfo creation s :
  wf s -> envIndexInRange envIndex s = true ->
  leaves (assetCallback envIndex assetInfo creation) s
    (fun msg s' => s' = s /\ assetFailsIn s (assetInfo, creation) msg)
    (fun n s' => grows s s' /\ this s' = this s /\ (n ∉ dom (heap s))).
Proof.
  intros Hwf Hr. destruct (envIndexInRange_lookup _ _ Hr) as [e He].
  unfold assetCallback, loadAndCreateRenderAssetInstance.
  apply leaves_bind. unfold leaves at 1. rewrite assertEnvIndex_run, Hr.
  apply leaves_bind. unfold leaves at 1. rewrite (envAt_run _ _ _ He).
  unfold ResourceManager_loadAndCreateRenderAssetInstance.
  apply leaves_bind. unfold leaves at 1. simpl.
  destruct (wf_cache _ Hwf) as [rm Hrm]. rewrite Hrm.
  destruct (assetOutcome_ rm assetInfo creation) as [msg | inSemantic placement] eqn:Ho.
  { unfold leaves, throw. split; [reflexivity|]. exists rm. auto. }
  assert (exists sceneID,
            [sceneID_ e; semanticSceneID_ e]
              !! (if inSemantic then 1%nat else 0%nat) = Some sceneID /\
            is_Some (SceneManager_lookup (sceneManager_ (this s)) sceneID))
    as (sceneID & -> & [g Hg]).
  { destruct (wf_envs _ Hwf _ _ He).
    destruct inSemantic; simpl; eauto. }
  apply returns_leaves.
  apply returns_bind. unfold returns at 1.
  unfold SceneManager_getSceneGraph. rewrite Hg.
  apply returns_bind. unfold returns at 1, SceneNode_createChild.
  set (n := fresh (dom (heap s))).
  assert (Hn : heap s !! n = None) by (apply not_elem_of_dom, is_fresh).
  apply returns_bind. unfold returns at 1, SceneNode_write. simpl.
  rewrite lookup_insert_eq. unfold returns. simpl.
  rewrite alter_insert_eq. simpl.
  split; [|split; [reflexivity | apply not_elem_of_dom; exact Hn]].
  split; simpl; auto; try reflexivity.
  apply insert_subseteq. exact Hn.
Qed.

Lemma Player_createInstance_leaves envIndex c s :
  wf s -> envIndexInRange envIndex s = true ->
  leaves (Player_createInstance assetCallback envIndex c) s
    (fun msg s' => s' = s /\ assetFailsIn s c msg)
    (fun _ s' =>
       wf s' /\ frame (Z.to_nat envIndex) s s' /\
       keyframesAt (Z.to_nat envIndex) s' = keyframesAt (Z.to_nat envIndex) s /\
       resourceManager_ (this s') = resourceManager_ (this s)).
Proof.
  intros Hwf Hr. destruct (envIndexInRange_lookup _ _ Hr) as [e He].
  pose proof (proj1 (envIndexInRange_spec _ _) Hr) as Hb.
  unfold Player_createInstance. apply leaves_bind. unfold leaves at 1.
  rewrite (readPlayer_run _ _ _ He).
  rewrite (wf_callback _ _ _ (wf_envs _ Hwf _ _ He)), Z2Nat.id by lia.
  apply leaves_bind.
  eapply leaves_mono; [apply assetCallback_leaves; assumption | | ].
  { intros msg s' [-> Hfail]. split; [reflexivity|]. destruct c. exact Hfail. }
  intros n s1 (G & Ht & Hn).
  pose proof (wf_grows _ _ Hwf G) as Hwf1.
  assert (F1 : frame (Z.to_nat envIndex) s s1).
  { apply frame_grows; [exact Hwf | exact G | rewrite Ht; reflexivity]. }
  unfold leaves. rewrite updatePlayer_run.
  destruct (wf_playerUpdated (Z.to_nat envIndex)
              (fun p => mkPlayer (assetCallbackEnvIdx p) (keyframes_ p)
                          (createdInstances_ p ++ [n])) s1 Hwf1)
    as [Hwf2 F2].
  - reflexivity.
  - intros e1 He1. split; [apply (wf_single _ _ _ (wf_envs _ Hwf1 _ _ He1))|].
    simpl. intros m Hm. apply elem_of_app in Hm as [Hm | Hm].
    + apply (wf_created _ _ _ (wf_envs _ Hwf1 _ _ He1)). exact Hm.
    + apply list_elem_of_singleton in Hm as ->. rewrite Ht. intros Ho.
      apply Hn. apply elem_of_dom. apply (wf_alive _ Hwf). exact Ho.
  - split; [exact Hwf2|]. split; [eapply frame_trans; eassumption|]. split.
    + unfold keyframesAt, playerUpdated. simpl.
      rewrite list_lookup_alter_eq, Ht.
      destruct (envs_ (this s) !! Z.to_nat envIndex); reflexivity.
    + unfold playerUpdated. simpl. rewrite Ht. reflexivity.
Qed.

Lemma lightCallback_returns i lightSetup s :
  wf s ->
  returns (lightCallback lightSetup) s (fun _ s' =>
    wf s' /\ frame i s s' /\ envs_ (this s') = envs_ (this s) /\
    resourceManager_ (this s') =
      (fun rm => mkResourceManager (Some lightSetup) (assetOutcome_ rm))
        <$> resourceManager_ (this s)).
Proof.
  intros Hwf. unfold lightCallback, ResourceManager_setLightSetup.
  apply returns_bind. unfold returns at 1. simpl.
  destruct (wf_cache _ Hwf) as [rm Hrm]. rewrite Hrm.
  unfold returns. simpl.
  set (s' := with_this _ s).
  assert (G : grows s s').
  { apply grows_with_this; simpl; eauto. }
  split; [eapply wf_grows; eassumption|].
  split; [apply frame_grows; [exact Hwf | exact G | reflexivity]|].
  split; reflexivity.
Qed.

(** Applying a keyframe returns, or stops at the first asset the cache fails
    on; either way the player holds the keyframe and only the player of the
    environment, nodes no record refers to and, when the keyframe was
    applied in full, the light setup have changed. *)
Lemma Player_setSingleKeyframe_leaves envIndex keyframe s :
  wf s -> envIndexInRange envIndex s = true ->
  leaves (Player_setSingleKeyframe assetCallback lightCallback envIndex keyframe) s
    (fun msg s' =>
       wf s' /\ frame (Z.to_nat envIndex) s s' /\
       keyframesAt (Z.to_nat envIndex) s' = Some [keyframe] /\
       resourceManager_ (this s') = resourceManager_ (this s) /\
       exists c, c ∈ creations keyframe /\ assetFailsIn s c msg)
    (fun _ s' =>
       wf s' /\ frame (Z.to_nat envIndex) s s' /\
       keyframesAt (Z.to_nat envIndex) s' = Some [keyframe] /\
       resourceManager_ (this s') =
         match lights keyframe with
         | Some l => (fun rm => mkResourceManager (Some l) (assetOutcome_ rm))
                       <$> resourceManager_ (this s)
         | None => resourceManager_ (this s)
         end).
Proof.
  intros Hwf Hr. set (i := Z.to_nat envIndex).
  assert (Hrange : forall s', frame i s s' -> envIndexInRange envIndex s' = true).
  { intros s' F. apply envIndexInRange_spec. rewrite (frame_length _ _ _ F).
    apply envIndexInRange_spec. exact Hr. }
  unfold Player_setSingleKeyframe. apply leaves_bind. apply returns_leaves.
  eapply returns_mono; [apply Player_releaseInstances_returns; assumption|].
  intros [] s1 (Hwf1 & F1 & Hrm1). fold i in F1.
  apply leaves_bind. unfold leaves at 1. rewrite updatePlayer_run. fold i.
  destruct (wf_playerUpdated i
              (fun p => mkPlayer (assetCallbackEnvIdx p) [keyframe]
                          (createdInstances_ p)) s1 Hwf1)
    as [Hwf2 F2].
  { reflexivity. }
  { intros e1 He1. split; [simpl; lia|].
    apply (wf_created _ _ _ (wf_envs _ Hwf1 _ _ He1)). }
  set (s2 := playerUpdated i _ s1) in *.
  assert (F02 : frame i s s2) by (eapply frame_trans; eassumption).
  assert (K2 : keyframesAt i s2 = Some [keyframe]).
  { destruct (envIndexInRange_lookup _ _ (Hrange s1 F1)) as [e1 He1].
    unfold keyframesAt, s2, playerUpdated. simpl.
    rewrite list_lookup_alter_eq. fold i in He1. rewrite He1. reflexivity. }
  assert (Hrm2 : resourceManager_ (this s2) = resourceManager_ (this s)).
  { unfold s2, playerUpdated. simpl. exact Hrm1. }
  apply leaves_bind.
  eapply leaves_mono.
  { apply (leaves_forEach _ (creations keyframe)
             (fun s' => wf s' /\ frame i s s' /\ keyframesAt i s' = Some [keyframe] /\
                        resourceManager_ (this s') = resourceManager_ (this s))
             (fun msg s' =>
                wf s' /\ frame i s s' /\ keyframesAt i s' = Some [keyframe] /\
                resourceManager_ (this s') = resourceManager_ (this s) /\
                exists c, c ∈ creations keyframe /\ assetFailsIn s c msg)).
    - auto.
    - intros c s0 Hc (Hwf0 & F0 & K0 & Hrm0).
      eapply leaves_mono;
        [apply Player_createInstance_leaves; [exact Hwf0 | apply Hrange; exact F0] | | ].
      + intros msg s' [-> (rm & Hrm & Hfail)]. split_ands; auto.
        exists c. split; [exact Hc|]. exists rm. split; [congruence | exact Hfail].
      + intros [] s' (Hwf' & F' & K' & Hrm'). fold i in F', K'.
        split; [exact Hwf'|]. split; [eapply frame_trans; eassumption|].
        split; congruence. }
  { auto. }
  intros [] s3 (Hwf3 & F3 & K3 & Hrm3).
  destruct (lights keyframe) as [l|].
  - apply returns_leaves.
    eapply returns_mono; [apply (lightCallback_returns i); exact Hwf3|].
    intros [] s4 (Hwf4 & F4 & He4 & Hrm4).
    split; [exact Hwf4|]. split; [eapply frame_trans; eassumption|]. split.
    + unfold keyframesAt in *. rewrite He4. exact K3.
    + rewrite Hrm4, Hrm3. reflexivity.
  - unfold leaves. simpl. auto.
Qed.

(** ** The sensor loop *)

Lemma writeTransform_lookup n t r h :
  writeTransform n t r h !! n = (fun node => mkSceneNode (nodeParent node) t r) <$> h !! n.
Proof.
  unfold writeTransform. rewrite !lookup_alter_eq.
  destruct (h !! n); reflexivity.
Qed.

Lemma writeTransform_lookup_ne n m t r h :
  n <> m -> writeTransform n t r h !! m = h !! m.
Proof. intros H. unfold writeTransform. rewrite !lookup_alter_ne by exact H. reflexivity. Qed.

Lemma writeTransform_is_Some n m t r h :
  is_Some (writeTransform n t r h !! m) <-> is_Some (h !! m).
Proof.
  destruct (decide (n = m)) as [-> | Hne].
  - rewrite writeTransform_lookup. apply fmap_is_Some.
  - rewrite writeTransform_lookup_ne by exact Hne. reflexivity.
Qed.

Lemma setSensorTransform_found envIndex prefix player kv t r s :
  Player_getUserTransform player (prefix +:+ kv.1) = Some (t, r) ->
  is_Some (heap s !! sensorNode kv.2) ->
  setSensorTransform envIndex prefix player kv s =
  Ok tt (mkState (this s) (writeTransform (sensorNode kv.2) t r (heap s))
           (log s ++ [EvSetRotation (sensorNode kv.2) r;
                      EvSetTranslation (sensorNode kv.2) t])).
Proof.
  intros H [node Hnode]. unfold setSensorTransform. rewrite H.
  unfold mbind, M_bind, ESP_CHECK. simpl.
  unfold setRotation, setTranslation, mbind, M_bind, SceneNode_write, writeTransform.
  simpl. rewrite Hnode. simpl.
  rewrite lookup_alter_eq, Hnode. simpl.
  unfold with_heap, with_log. simpl.
  rewrite <- app_assoc. reflexivity.
Qed.

Lemma setSensorTransform_dead envIndex prefix player kv t r s :
  Player_getUserTransform player (prefix +:+ kv.1) = Some (t, r) ->
  heap s !! sensorNode kv.2 = None ->
  setSensorTransform envIndex prefix player kv s = Undefined.
Proof.
  intros H Hnode. unfold setSensorTransform. rewrite H.
  unfold mbind, M_bind, ESP_CHECK. simpl.
  unfold setRotation, mbind, M_bind, SceneNode_write. simpl.
  rewrite Hnode. reflexivity.
Qed.

Lemma setSensorTransform_missing envIndex prefix player kv s :
  Player_getUserTransform player (prefix +:+ kv.1) = None ->
  setSensorTransform envIndex prefix player kv s =
  Error (noUserTransformMessage (prefix +:+ kv.1) envIndex) s.
Proof.
  intros H. unfold setSensorTransform. rewrite H. reflexivity.
Qed.

(** Whatever the outcome, the loop leaves the renderer object alone, keeps
    every node in the store and writes only to nodes of the sensors it was
    given. *)
Lemma sensorLoop_footprint envIndex prefix player l :
  forall s,
    (forall n, n ∈ sensorNodes l -> is_Some (heap s !! n)) ->
    exists s',
      stateAfter (forEach (setSensorTransform envIndex prefix player) l s) = Some s' /\
      this s' = this s /\
      (forall n, is_Some (heap s' !! n) <-> is_Some (heap s !! n)) /\
      (forall n, n ∉ sensorNodes l -> heap s' !! n = heap s !! n).
Proof.
  induction l as [|kv l IH]; intros s Halive; simpl.
  - exists s. auto.
  - destruct (Player_getUserTransform player (prefix +:+ kv.1)) as [[t r]|] eqn:Hf.
    + unfold mbind, M_bind.
      rewrite (setSensorTransform_found _ _ _ _ _ _ _ Hf (Halive _ ltac:(left))).
      destruct (IH (mkState (this s) (writeTransform (sensorNode kv.2) t r (heap s))
                      (log s ++ [EvSetRotation (sensorNode kv.2) r;
                                 EvSetTranslation (sensorNode kv.2) t])))
        as (s' & Hs' & Ht & Hd & Hh).
      { intros n Hn. simpl. apply writeTransform_is_Some. apply Halive. right. exact Hn. }
      exists s'. split; [exact Hs'|]. split; [exact Ht|]. split.
      * intros n. rewrite Hd. simpl. apply writeTransform_is_Some.
      * intros n Hn. apply not_elem_of_cons in Hn as [Hn1 Hn2].
        rewrite Hh by exact Hn2. simpl. apply writeTransform_lookup_ne. auto.
    + unfold mbind, M_bind. rewrite (setSensorTransform_missing _ _ _ _ _ Hf).
      exists s. auto.
Qed.

(** The same of any state the loop leaves, wherever it was started. *)
Lemma sensorLoop_footprint_after envIndex prefix player l :
  forall s s',
    stateAfter (forEach (setSensorTransform envIndex prefix player) l s) = Some s' ->
    this s' = this s /\
    (forall n, is_Some (heap s' !! n) <-> is_Some (heap s !! n)) /\
    (forall n, n ∉ sensorNodes l -> heap s' !! n = heap s !! n).
Proof.
  induction l as [|kv l IH]; intros s s'; simpl.
  - intros [= <-]. auto.
  - destruct (Player_getUserTransform player (prefix +:+ kv.1)) as [[t r]|] eqn:Hf.
    + unfold mbind, M_bind.
      destruct (heap s !! sensorNode kv.2) as [node|] eqn:Hnode;
        [|rewrite (setSensorTransform_dead _ _ _ _ _ _ _ Hf Hnode); discriminate].
      rewrite (setSensorTransform_found _ _ _ _ _ _ _ Hf (ex_intro _ _ Hnode)).
      intros Hs'. destruct (IH _ _ Hs') as (Ht & Hd & Hh).
      split; [exact Ht|]. split.
      * intros n. rewrite Hd. simpl. apply writeTransform_is_Some.
      * intros n Hn. apply not_elem_of_cons in Hn as [Hn1 Hn2].
        rewrite Hh by exact Hn2. simpl. apply writeTransform_lookup_ne. auto.
    + unfold mbind, M_bind. rewrite (setSensorTransform_missing _ _ _ _ _ Hf).
      intros [= <-]. auto.
Qed.

Lemma sensorLoop_ok envIndex prefix player l :
  forall s,
    (forall kv, kv ∈ l -> is_Some (Player_getUserTransform player (prefix +:+ kv.1))) ->
    (forall n, n ∈ sensorNodes l -> is_Some (heap s !! n)) ->
    exists s',
      forEach (setSensorTransform envIndex prefix player) l s = Ok tt s' /\
      log s' = log s ++ (l ≫= sensorWrites prefix player) /\
      (NoDup (sensorNodes l) ->
       forall kv t r, kv ∈ l ->
         Player_getUserTransform player (prefix +:+ kv.1) = Some (t, r) ->
         heap s' !! sensorNode kv.2 =
         (fun node => mkSceneNode (nodeParent node) t r) <$> heap s !! sensorNode kv.2).
Proof.
  induction l as [|kv l IH]; intros s Hall Halive; simpl.
  - exists s. split; [reflexivity|]. split; [rewrite app_nil_r; reflexivity|].
    intros _ kv t r Hkv. inversion Hkv.
  - destruct (Hall kv) as [[t r] Hf]; [left|].
    unfold mbind at 1, M_bind.
    rewrite (setSensorTransform_found _ _ _ _ _ _ _ Hf (Halive _ ltac:(left))).
    set (s1 := mkState _ _ _).
    assert (Halive1 : forall n, n ∈ sensorNodes l -> is_Some (heap s1 !! n)).
    { intros n Hn. unfold s1. simpl. apply writeTransform_is_Some.
      apply Halive. right. exact Hn. }
    destruct (IH s1) as (s' & Hrun & Hlog & Hheap).
    { intros kv' Hkv'. apply Hall. right. exact Hkv'. }
    { exact Halive1. }
    destruct (sensorLoop_footprint envIndex prefix player l s1 Halive1)
      as (s'' & Hs'' & _ & _ & Hother).
    rewrite Hrun in Hs''. injection Hs'' as <-.
    exists s'. split; [exact Hrun|]. split.
    + rewrite Hlog. unfold s1. simpl. rewrite <- app_assoc. f_equal.
      unfold sensorWrites at 2. rewrite Hf. reflexivity.
    + intros Hnd kv' t' r' Hkv' Hf'. apply NoDup_cons in Hnd as [Hnotin Hnd].
      apply elem_of_cons in Hkv' as [-> | Hkv'].
      * rewrite Hother by exact Hnotin. unfold s1. simpl.
        rewrite Hf in Hf'. injection Hf' as <- <-. apply writeTransform_lookup.
      * rewrite (Hheap Hnd kv' t' r' Hkv' Hf'). unfold s1. simpl.
        rewrite writeTransform_lookup_ne; [reflexivity|].
        intros Heq. apply Hnotin. rewrite Heq.
        apply (list_elem_of_fmap_2 (fun kv => sensorNode kv.2)). exact Hkv'.
Qed.

Lemma forEach_app_Error {A} (f : A -> M unit) l1 a l2 s s1 msg s2 :
  forEach f l1 s = Ok tt s1 -> f a s1 = Error msg s2 ->
  forEach f (l1 ++ a :: l2) s = Error msg s2.
Proof.
  revert s. induction l1 as [|b l1 IH]; intros s; simpl.
  - intros [= ->] Ha. unfold mbind, M_bind. rewrite Ha. reflexivity.
  - unfold mbind, M_bind. destruct (f b s) as [[] s0| | |]; [|done|done|done].
    intros H1 Ha. exact (IH s0 H1 Ha).
Qed.

(** ** The two mutating operations *)

Lemma setSensorTransformsFromKeyframe_run envIndex prefix s e :
  envIndexInRange envIndex s = true ->
  envs_ (this s) !! Z.to_nat envIndex = Some e ->
  setSensorTransformsFromKeyframe envIndex prefix s =
  if Player_getNumKeyframes (player_ e) =? 1
  then forEach (setSensorTransform envIndex prefix (player_ e)) (sensorMap_ e) s
  else Error (noKeyframeMessage envIndex) s.
Proof.
  intros Hr He. unfold setSensorTransformsFromKeyframe.
  unfold mbind at 1, M_bind. rewrite assertEnvIndex_run, Hr.
  unfold mbind at 1, M_bind. rewrite (envAt_run _ _ _ He).
  unfold mbind, M_bind, ESP_CHECK.
  destruct (Player_getNumKeyframes (player_ e) =? 1); reflexivity.
Qed.

Lemma setSensorTransformsFromKeyframe_out_of_range envIndex prefix s :
  envIndexInRange envIndex s = false ->
  setSensorTransformsFromKeyframe envIndex prefix s = Fatal.
Proof.
  intros Hr. unfold setSensorTransformsFromKeyframe.
  unfold mbind at 1, M_bind. rewrite assertEnvIndex_run, Hr. reflexivity.
Qed.

Lemma setSensorTransformsFromKeyframe_footprint envIndex prefix s s' :
  stateAfter (setSensorTransformsFromKeyframe envIndex prefix s) = Some s' ->
  this s' = this s /\
  (forall n, is_Some (heap s' !! n) <-> is_Some (heap s !! n)) /\
  (forall e, envs_ (this s) !! Z.to_nat envIndex = Some e ->
             forall n, n ∉ sensorNodes (sensorMap_ e) -> heap s' !! n = heap s !! n).
Proof.
  destruct (envIndexInRange envIndex s) eqn:Hr.
  - destruct (envIndexInRange_lookup _ _ Hr) as [e He].
    rewrite (setSensorTransformsFromKeyframe_run _ _ _ _ Hr He).
    destruct (Player_getNumKeyframes (player_ e) =? 1).
    + intros Hs'.
      destruct (sensorLoop_footprint_after _ _ _ _ _ _ Hs') as (Ht & Hd & Hh).
      split; [exact Ht|]. split; [exact Hd|].
      intros e' He'. rewrite He in He'. injection He' as <-. exact Hh.
    + simpl. intros [= <-]. split; [reflexivity|]. split; [reflexivity|]. auto.
  - rewrite (setSensorTransformsFromKeyframe_out_of_range _ _ _ Hr). discriminate.
Qed.

Lemma wf_same_this s s' :
  this s' = this s ->
  (forall n, is_Some (heap s !! n) -> is_Some (heap s' !! n)) ->
  wf s -> wf s'.
Proof.
  intros Ht Hh [He Hn Ha Hc]. split; rewrite ?Ht; auto.
  intros i e Hi. destruct (He i e Hi) as [H1 H2 H3 H4 H5 H6 H7].
  split; rewrite ?Ht; auto.
Qed.

Lemma setEnvironmentKeyframe_out_of_range parse envIndex serKeyframe s :
  envIndexInRange envIndex s = false ->
  setEnvironmentKeyframe parse envIndex serKeyframe s = Fatal.
Proof.
  intros Hr. unfold setEnvironmentKeyframe.
  unfold mbind at 1, M_bind. rewrite assertEnvIndex_run, Hr. reflexivity.
Qed.

Lemma setEnvironmentKeyframe_parse_error parse envIndex serKeyframe msg s :
  envIndexInRange envIndex s = true ->
  parse serKeyframe = inl msg ->
  setEnvironmentKeyframe parse envIndex serKeyframe s = Error msg s.
Proof.
  intros Hr Hp. unfold setEnvironmentKeyframe.
  unfold mbind at 1, M_bind. rewrite assertEnvIndex_run, Hr.
  unfold mbind, M_bind, Player_keyframeFromString. rewrite Hp. reflexivity.
Qed.

Lemma setEnvironmentKeyframe_parsed parse envIndex serKeyframe keyframe s :
  envIndexInRange envIndex s = true ->
  parse serKeyframe = inr keyframe ->
  setEnvironmentKeyframe parse envIndex serKeyframe s =
  Player_setSingleKeyframe assetCallback lightCallback envIndex keyframe s.
Proof.
  intros Hr Hp. unfold setEnvironmentKeyframe.
  unfold mbind at 1, M_bind. rewrite assertEnvIndex_run, Hr.
  unfold mbind at 1, M_bind, Player_keyframeFromString. rewrite Hp. reflexivity.
Qed.

Lemma setEnvironmentKeyframe_outcome parse envIndex serKeyframe s s' :
  wf s ->
  stateAfter (setEnvironmentKeyframe parse envIndex serKeyframe s) = Some s' ->
  wf s' /\ frame (Z.to_nat envIndex) s s'.
Proof.
  intros Hwf. destruct (envIndexInRange envIndex s) eqn:Hr.
  - destruct (parse serKeyframe) as [msg|keyframe] eqn:Hp.
    + rewrite (setEnvironmentKeyframe_parse_error _ _ _ _ _ Hr Hp).
      intros [= <-]. split; [exact Hwf | apply frame_refl].
    + rewrite (setEnvironmentKeyframe_parsed _ _ _ _ _ Hr Hp).
      pose proof (Player_setSingleKeyframe_leaves envIndex keyframe s Hwf Hr) as H.
      unfold leaves in H.
      destruct (Player_setSingleKeyframe _ _ _ _ s) as [[] s1|msg s1| |];
        try contradiction; intros [= <-]; split; apply H.
  - rewrite (setEnvironmentKeyframe_out_of_range _ _ _ _ Hr). discriminate.
Qed.

Lemma reachable_wf parse bg s : reachable parse bg s -> wf s /\ wf_count s.
Proof.
  induction 1 as [cfg gl s Hc | s envIndex ser s' _ [Hwf Hcount] Hs'
                 | s envIndex prefix s' _ [Hwf Hcount] Hs'].
  - apply constructor_Ok in Hc. tauto.
  - destruct (setEnvironmentKeyframe_outcome _ _ _ _ _ Hwf Hs') as [Hwf' F].
    split; [exact Hwf' | eapply frame_count; eassumption].
  - destruct (setSensorTransformsFromKeyframe_footprint _ _ _ _ Hs') as (Ht & Hd & _).
    split.
    + eapply wf_same_this; [exact Ht | | exact Hwf]. intros n. apply Hd.
    + unfold wf_count in *. rewrite Ht. exact Hcount.
Qed.

(** ** Facts about the sensor map of a well-formed state *)

Lemma find_first {A} (p : A -> bool) (l : list A) x :
  List.find p l = Some x ->
  exists l1 l2, l = l1 ++ x :: l2 /\ p x = true /\ forall y, y ∈ l1 -> p y = false.
Proof.
  induction l as [|a l IH]; simpl; [discriminate|].
  destruct (p a) eqn:Ha.
  - intros [= <-]. exists [], l. split; [reflexivity|]. split; [exact Ha|].
    intros y Hy. inversion Hy.
  - intros H. destruct (IH H) as (l1 & l2 & -> & Hx & Hl1).
    exists (a :: l1), l2. split; [reflexivity|]. split; [exact Hx|].
    intros y Hy. apply elem_of_cons in Hy as [-> | Hy]; auto.
Qed.

Lemma find_is_Some {A} (p : A -> bool) (l : list A) y :
  y ∈ l -> p y = true -> is_Some (List.find p l).
Proof.
  intros Hy Hp. destruct (List.find p l) eqn:Hf; [eauto|].
  apply list_elem_of_In in Hy.
  rewrite (find_none _ _ Hf y Hy) in Hp. discriminate.
Qed.

Lemma Player_getUserTransform_single p kf name :
  keyframes_ p = [kf] ->
  Player_getUserTransform p name =
  (fun t => (translation t, rotation t)) <$> userTransforms kf !! name.
Proof.
  intros H. unfold Player_getUserTransform. rewrite H. simpl.
  destruct (userTransforms kf !! name); reflexivity.
Qed.

Lemma firstMissing_Some kf prefix m missing :
  firstMissing kf prefix m = Some missing ->
  exists l1 sensor l2,
    m = l1 ++ (missing, sensor) :: l2 /\
    userTransforms kf !! (prefix +:+ missing) = None /\
    forall kv, kv ∈ l1 -> is_Some (userTransforms kf !! (prefix +:+ kv.1)).
Proof.
  unfold firstMissing. intros H.
  destruct (List.find _ m) as [[k sensor]|] eqn:Hf; [|discriminate].
  injection H as ->.
  apply find_first in Hf as (l1 & l2 & -> & Hk & Hl1).
  exists l1, sensor, l2. split; [reflexivity|]. split.
  - apply bool_decide_eq_true in Hk. exact Hk.
  - intros kv Hkv. specialize (Hl1 kv Hkv). apply bool_decide_eq_false in Hl1.
    destruct (userTransforms kf !! (prefix +:+ kv.1)); [eauto | done].
Qed.

Lemma firstMissing_is_Some kf prefix m name sensor :
  (name, sensor) ∈ m ->
  userTransforms kf !! (prefix +:+ name) = None ->
  is_Some (firstMissing kf prefix m).
Proof.
  intros Hin Hnone. unfold firstMissing. apply fmap_is_Some.
  apply (find_is_Some _ _ (name, sensor)); [exact Hin|].
  apply bool_decide_eq_true. exact Hnone.
Qed.

Lemma sorted_split (l1 l2 : SensorMap) k sensor :
  StronglySorted string_lt (map fst (l1 ++ (k, sensor) :: l2)) ->
  (forall kv, kv ∈ l1 -> string_lt kv.1 k) /\
  (forall kv, kv ∈ l2 -> string_lt k kv.1).
Proof.
  rewrite map_app. simpl. intros H.
  apply StronglySorted_app in H as (H12 & _ & H2). split.
  - intros kv Hkv. apply H12.
    + apply (list_elem_of_fmap_2 fst). exact Hkv.
    + left.
  - intros kv Hkv. inversion H2 as [|? ? _ Hall]; subst.
    rewrite Forall_forall in Hall. apply Hall.
    apply (list_elem_of_fmap_2 fst). exact Hkv.
Qed.

Lemma filter_before (l1 l2 : SensorMap) k sensor :
  StronglySorted string_lt (map fst (l1 ++ (k, sensor) :: l2)) ->
  List.filter (fun kv => String.ltb kv.1 k) (l1 ++ (k, sensor) :: l2) = l1.
Proof.
  intros H. destruct (sorted_split _ _ _ _ H) as [H1 H2].
  rewrite List.filter_app. simpl.
  assert (Hk : String.ltb k k = false).
  { destruct (String.ltb k k) eqn:E; [|reflexivity].
    destruct (string_lt_irrefl k E). }
  rewrite Hk.
  assert (E1 : List.filter (fun kv => String.ltb kv.1 k) l1 = l1).
  { clear H H2. induction l1 as [|a l1 IH]; simpl; [reflexivity|].
    rewrite (H1 a) by left. f_equal. apply IH. intros kv Hkv. apply H1. right. exact Hkv. }
  assert (E2 : List.filter (fun kv => String.ltb kv.1 k) l2 = []).
  { clear H H1 E1. induction l2 as [|a l2 IH]; simpl; [reflexivity|].
    destruct (String.ltb a.1 k) eqn:E.
    - destruct (string_lt_asym _ _ E). apply H2. left.
    - apply IH. intros kv Hkv. apply H2. right. exact Hkv. }
  rewrite E1, E2. apply app_nil_r.
Qed.

Lemma bind_lookup_disjoint {A B} (f : A -> list B) (l : list A) i j a b x :
  NoDup (l ≫= f) -> l !! i = Some a -> l !! j = Some b -> i <> j ->
  x ∈ f a -> x ∉ f b.
Proof.
  revert i j. induction l as [|c l IH]; intros i j Hnd Hi Hj Hij Ha Hb.
  - rewrite lookup_nil in Hi. discriminate.
  - rewrite bind_cons in Hnd. apply NoDup_app in Hnd as (_ & Hdis & Hnd).
    destruct i as [|i], j as [|j]; simpl in Hi, Hj.
    + congruence.
    + injection Hi as ->. apply (Hdis x Ha). apply list_elem_of_bind.
      exists b. split; [exact Hb|]. eapply list_elem_of_lookup_2. exact Hj.
    + injection Hj as ->. apply (Hdis x Hb). apply list_elem_of_bind.
      exists a. split; [exact Ha|]. eapply list_elem_of_lookup_2. exact Hi.
    + apply (IH i j Hnd Hi Hj); [congruence | exact Ha | exact Hb].
Qed.

Lemma bind_lookup_NoDup {A B} (f : A -> list B) (l : list A) i a :
  NoDup (l ≫= f) -> l !! i = Some a -> NoDup (f a).
Proof.
  revert i. induction l as [|c l IH]; intros i Hnd Hi.
  - rewrite lookup_nil in Hi. discriminate.
  - rewrite bind_cons in Hnd. apply NoDup_app in Hnd as (Hc & _ & Hnd).
    destruct i as [|i]; simpl in Hi.
    + injection Hi as ->. exact Hc.
    + exact (IH i Hnd Hi).
Qed.

Lemma wf_sensorNodes s i e :
  wf s -> envs_ (this s) !! i = Some e ->
  NoDup (sensorNodes (sensorMap_ e)) /\
  forall n, n ∈ sensorNodes (sensorMap_ e) -> is_Some (heap s !! n).
Proof.
  intros Hwf He. split.
  - pose proof (bind_lookup_NoDup envNodes _ i e (wf_nodup _ Hwf) He) as H.
    unfold envNodes in H. apply NoDup_cons in H. tauto.
  - intros n Hn. apply (wf_alive _ Hwf). apply ownedNodes_spec.
    exists e. split; [eapply list_elem_of_lookup_2; exact He|]. right. exact Hn.
Qed.

Lemma envIndex_lookup_range envIndex s e :
  0 <= envIndex -> envs_ (this s) !! Z.to_nat envIndex = Some e ->
  envIndexInRange envIndex s = true.
Proof.
  intros H0 He. apply envIndexInRange_spec. apply lookup_lt_Some in He. lia.
Qed.

Lemma firstMissing_None kf prefix (m : SensorMap) :
  firstMissing kf prefix m = None ->
  forall name sensor, (name, sensor) ∈ m ->
    is_Some (userTransforms kf !! (prefix +:+ name)).
Proof.
  intros H name sensor Hin.
  destruct (userTransforms kf !! (prefix +:+ name)) eqn:E; [eauto|].
  destruct (firstMissing_is_Some _ _ _ _ _ Hin E) as [x Hx]. congruence.
Qed.

(** ** Sensor transforms from a keyframe *)

(** C1. In a constructed renderer, when the player of a valid environment
    holds exactly one keyframe and that keyframe records a user transform
    named [prefix + s] for every sensor [s] of the environment's sensor map,
    [setSensorTransformsFromKeyframe] returns normally and afterwards the
    node of every sensor [s] carries exactly the translation and the rotation
    recorded under [prefix + s]. *)
Theorem setSensorTransformsFromKeyframe_roundtrip
  parse bg s envIndex prefix e kf :
  reachable parse bg s ->
  0 <= envIndex ->
  envs_ (this s) !! Z.to_nat envIndex = Some e ->
  keyframes_ (player_ e) = [kf] ->
  (forall name sensor, (name, sensor) ∈ sensorMap_ e ->
     is_Some (userTransforms kf !! (prefix +:+ name))) ->
  exists s',
    setSensorTransformsFromKeyframe envIndex prefix s = Ok tt s' /\
    forall name sensor t,
      (name, sensor) ∈ sensorMap_ e ->
      userTransforms kf !! (prefix +:+ name) = Some t ->
      exists node,
        heap s' !! sensorNode sensor = Some node /\
        nodeTranslation node = translation t /\
        nodeRotation node = rotation t.
Proof.
  intros Hreach H0 He Hkf Hall.
  destruct (reachable_wf _ _ _ Hreach) as [Hwf _].
  pose proof (envIndex_lookup_range _ _ _ H0 He) as Hr.
  rewrite (setSensorTransformsFromKeyframe_run _ _ _ _ Hr He).
  unfold Player_getNumKeyframes. rewrite Hkf. simpl.
  destruct (sensorLoop_ok envIndex prefix (player_ e) (sensorMap_ e) s)
    as (s' & Hrun & _ & Hheap).
  { intros [name sensor] Hin. rewrite (Player_getUserTransform_single _ _ _ Hkf).
    apply fmap_is_Some. exact (Hall name sensor Hin). }
  { exact (proj2 (wf_sensorNodes _ _ _ Hwf He)). }
  exists s'. split; [exact Hrun|].
  intros name sensor t Hin Ht.
  destruct (wf_sensorNodes _ _ _ Hwf He) as [Hnd Halive].
  destruct (Halive (sensorNode sensor)) as [node0 Hnode0].
  { apply (list_elem_of_fmap_2 (fun kv => sensorNode kv.2) _ (name, sensor)). exact Hin. }
  exists (mkSceneNode (nodeParent node0) (translation t) (rotation t)).
  split; [|split; reflexivity].
  assert (Hrec : Player_getUserTransform (player_ e) (prefix +:+ name)
                 = Some (translation t, rotation t)).
  { rewrite (Player_getUserTransform_single _ _ _ Hkf), Ht. reflexivity. }
  pose proof (Hheap Hnd (name, sensor) _ _ Hin Hrec) as Hh. simpl in Hh.
  rewrite Hh, Hnode0. reflexivity.
Qed.

(** C2. When the player of a valid environment holds no keyframe,
    [setSensorTransformsFromKeyframe] reports an error whose text names the
    environment index and tells the caller that [setEnvironmentKeyframe] has
    not been called; the state it leaves, and so every sensor transform, is
    the state it was called in. *)
Theorem setSensorTransformsFromKeyframe_without_keyframe
  s envIndex prefix e :
  0 <= envIndex ->
  envs_ (this s) !! Z.to_nat envIndex = Some e ->
  keyframes_ (player_ e) = [] ->
  setSensorTransformsFromKeyframe envIndex prefix s =
  Error ("setSensorTransformsFromKeyframe: for environment " +:+ pretty envIndex
         +:+ ", you have not yet called setEnvironmentKeyframe.") s.
Proof.
  intros H0 He Hkf.
  pose proof (envIndex_lookup_range _ _ _ H0 He) as Hr.
  rewrite (setSensorTransformsFromKeyframe_run _ _ _ _ Hr He).
  unfold Player_getNumKeyframes. rewrite Hkf. reflexivity.
Qed.

(** The state of the sensor loop when it stops at the first sensor without a
    recorded transform. *)
Lemma setSensorTransformsFromKeyframe_stops
  s envIndex prefix e kf l1 missing sensor l2 :
  wf s ->
  0 <= envIndex ->
  envs_ (this s) !! Z.to_nat envIndex = Some e ->
  keyframes_ (player_ e) = [kf] ->
  sensorMap_ e = l1 ++ (missing, sensor) :: l2 ->
  userTransforms kf !! (prefix +:+ missing) = None ->
  (forall kv, kv ∈ l1 -> is_Some (userTransforms kf !! (prefix +:+ kv.1))) ->
  exists s',
    setSensorTransformsFromKeyframe envIndex prefix s =
      Error (noUserTransformMessage (prefix +:+ missing) envIndex) s' /\
    this s' = this s /\
    log s' = log s ++ (l1 ≫= sensorWrites prefix (player_ e)) /\
    (forall name' sensor' t,
       (name', sensor') ∈ l1 ->
       userTransforms kf !! (prefix +:+ name') = Some t ->
       exists node,
         heap s' !! sensorNode sensor' = Some node /\
         nodeTranslation node = translation t /\
         nodeRotation node = rotation t) /\
    (forall n, n ∉ sensorNodes l1 -> heap s' !! n = heap s !! n).
Proof.
  intros Hwf H0 He Hkf Hsplit Hnone Hl1.
  pose proof (envIndex_lookup_range _ _ _ H0 He) as Hr.
  rewrite (setSensorTransformsFromKeyframe_run _ _ _ _ Hr He).
  unfold Player_getNumKeyframes. rewrite Hkf. simpl. rewrite Hsplit.
  assert (Halive1 : forall n, n ∈ sensorNodes l1 -> is_Some (heap s !! n)).
  { intros n Hn. apply (proj2 (wf_sensorNodes _ _ _ Hwf He)).
    rewrite Hsplit. unfold sensorNodes in *. rewrite map_app.
    apply elem_of_app. left. exact Hn. }
  destruct (sensorLoop_ok envIndex prefix (player_ e) l1 s)
    as (s' & Hrun & Hlog & Hheap).
  { intros kv Hin. rewrite (Player_getUserTransform_single _ _ _ Hkf).
    apply fmap_is_Some. exact (Hl1 kv Hin). }
  { exact Halive1. }
  destruct (sensorLoop_footprint envIndex prefix (player_ e) l1 s Halive1)
    as (s'' & Hs'' & Ht & _ & Hother).
  rewrite Hrun in Hs''. injection Hs'' as <-.
  exists s'. split.
  { eapply forEach_app_Error; [exact Hrun|].
    apply (setSensorTransform_missing envIndex prefix (player_ e) (missing, sensor)).
    rewrite (Player_getUserTransform_single _ _ _ Hkf). simpl. rewrite Hnone.
    reflexivity. }
  split; [exact Ht|]. split; [exact Hlog|]. split; [|exact Hother].
  intros name' sensor' t Hin Hrec.
  destruct (wf_sensorNodes _ _ _ Hwf He) as [Hnd Halive].
  rewrite Hsplit in Hnd, Halive. unfold sensorNodes in Hnd, Halive.
  rewrite map_app in Hnd, Halive. apply NoDup_app in Hnd as (Hnd1 & _ & _).
  destruct (Halive (sensorNode sensor')) as [node0 Hnode0].
  { apply elem_of_app. left.
    apply (list_elem_of_fmap_2 (fun kv => sensorNode kv.2) _ (name', sensor')). exact Hin. }
  exists (mkSceneNode (nodeParent node0) (translation t) (rotation t)).
  split; [|split; reflexivity].
  assert (Hrec' : Player_getUserTransform (player_ e) (prefix +:+ name')
                  = Some (translation t, rotation t)).
  { rewrite (Player_getUserTransform_single _ _ _ Hkf), Hrec. reflexivity. }
  pose proof (Hheap Hnd1 (name', sensor') _ _ Hin Hrec') as Hh. simpl in Hh.
  rewrite Hh, Hnode0. reflexivity.
Qed.

(** Where a sensor of the map lies relative to the first missing one. *)
Lemma sensor_position (l1 l2 : SensorMap) missing sensor0 name sensor :
  StronglySorted string_lt (map fst (l1 ++ (missing, sensor0) :: l2)) ->
  (name, sensor) ∈ l1 ++ (missing, sensor0) :: l2 ->
  (string_lt name missing /\ (name, sensor) ∈ l1) \/
  (~ string_lt name missing /\ (name, sensor) ∈ (missing, sensor0) :: l2).
Proof.
  intros Hs Hin. destruct (sorted_split _ _ _ _ Hs) as [H1 H2].
  apply elem_of_app in Hin as [Hin | Hin].
  - left. split; [exact (H1 _ Hin) | exact Hin].
  - right. split; [|exact Hin].
    apply elem_of_cons in Hin as [[= -> ->] | Hin].
    + apply string_lt_irrefl.
    + apply string_lt_asym. exact (H2 _ Hin).
Qed.

(** C3. In a constructed renderer whose environment holds one keyframe, when
    the keyframe records no user transform [prefix + s] for some sensor [s]
    of the environment, [setSensorTransformsFromKeyframe] reports an error
    whose text names the environment index and the missing transform: the
    one of the first sensor, in the order of the sensor map, that has none
    (that is [s] itself or a sensor before it, and [s] itself when every
    sensor before [s] has one).  The sensors before it keep the transforms
    the call gave them: nothing is rolled back. *)
Theorem setSensorTransformsFromKeyframe_missing_transform
  parse bg s envIndex prefix e kf name sensor :
  reachable parse bg s ->
  0 <= envIndex ->
  envs_ (this s) !! Z.to_nat envIndex = Some e ->
  keyframes_ (player_ e) = [kf] ->
  (name, sensor) ∈ sensorMap_ e ->
  userTransforms kf !! (prefix +:+ name) = None ->
  exists missing s',
    firstMissing kf prefix (sensorMap_ e) = Some missing /\
    missing ∈ map fst (sensorMap_ e) /\
    userTransforms kf !! (prefix +:+ missing) = None /\
    (missing = name \/ string_lt missing name) /\
    ((forall name' sensor',
        (name', sensor') ∈ sensorMap_ e -> string_lt name' name ->
        is_Some (userTransforms kf !! (prefix +:+ name'))) ->
     missing = name) /\
    setSensorTransformsFromKeyframe envIndex prefix s =
      Error ("setSensorTransformsFromKeyframe: couldn't find user transform "
             +:+ dquote +:+ (prefix +:+ missing) +:+ dquote
             +:+ " for environment " +:+ pretty envIndex +:+ ".") s' /\
    forall name' sensor',
      (name', sensor') ∈ sensorMap_ e ->
      string_lt name' missing ->
      exists t node,
        userTransforms kf !! (prefix +:+ name') = Some t /\
        heap s' !! sensorNode sensor' = Some node /\
        nodeTranslation node = translation t /\
        nodeRotation node = rotation t.
Proof.
  intros Hreach H0 He Hkf Hin Hnone.
  destruct (reachable_wf _ _ _ Hreach) as [Hwf _].
  destruct (firstMissing_is_Some _ _ _ _ _ Hin Hnone) as [missing Hm].
  destruct (firstMissing_Some _ _ _ _ Hm) as (l1 & sensor0 & l2 & Hsplit & Hmnone & Hl1).
  pose proof (wf_sorted _ _ _ (wf_envs _ Hwf _ _ He)) as Hsorted.
  rewrite Hsplit in Hsorted.
  destruct (setSensorTransformsFromKeyframe_stops s envIndex prefix e kf l1 missing
              sensor0 l2 Hwf H0 He Hkf Hsplit Hmnone Hl1)
    as (s' & Hrun & _ & _ & Happlied & _).
  exists missing, s'. split; [exact Hm|]. split.
  { rewrite Hsplit, map_app. apply elem_of_app. right. left. }
  split; [exact Hmnone|].
  assert (Hpos : missing = name \/ string_lt missing name).
  { rewrite Hsplit in Hin.
    destruct (sorted_split _ _ _ _ Hsorted) as [_ H2].
    apply elem_of_app in Hin as [Hin | Hin].
    - destruct (Hl1 _ Hin) as [t Ht]. simpl in Ht. congruence.
    - apply elem_of_cons in Hin as [[= -> ->] | Hin]; [left; reflexivity|].
      right. exact (H2 _ Hin). }
  split; [exact Hpos|]. split.
  { intros Hbefore. destruct Hpos as [Heq | Hlt]; [exact Heq|].
    destruct (Hbefore missing sensor0) as [t Ht]; [|exact Hlt|congruence].
    rewrite Hsplit. apply elem_of_app. right. left. }
  split; [exact Hrun|].
  intros name' sensor' Hin' Hlt. rewrite Hsplit in Hin'.
  destruct (sensor_position _ _ _ _ _ _ Hsorted Hin') as [[_ Hin1] | [Hge _]];
    [|contradiction].
  destruct (Hl1 _ Hin1) as [t Ht]. simpl in Ht.
  destruct (Happlied name' sensor' t Hin1 Ht) as (node & Hnode & Htr & Hrot).
  exists t, node. auto.
Qed.

(** C10. The sensor map is in strictly ascending byte-wise order of sensor
    name and [setSensorTransformsFromKeyframe] visits it in that order.  So
    when the call fails on the first missing transform [prefix + s], it has
    written, in ascending order, to the sensors whose names are smaller than
    [s] and to no other: each of those carries its recorded transform, and
    the node of every other sensor of the environment is as it was. *)
Theorem setSensorTransformsFromKeyframe_ascending_order
  parse bg s envIndex prefix e kf missing :
  reachable parse bg s ->
  0 <= envIndex ->
  envs_ (this s) !! Z.to_nat envIndex = Some e ->
  keyframes_ (player_ e) = [kf] ->
  firstMissing kf prefix (sensorMap_ e) = Some missing ->
  StronglySorted string_lt (map fst (sensorMap_ e)) /\
  exists s',
    setSensorTransformsFromKeyframe envIndex prefix s =
      Error (noUserTransformMessage (prefix +:+ missing) envIndex) s' /\
    log s' = log s ++
             (List.filter (fun kv => String.ltb kv.1 missing) (sensorMap_ e)
                ≫= sensorWrites prefix (player_ e)) /\
    forall name sensor,
      (name, sensor) ∈ sensorMap_ e ->
      (string_lt name missing ->
       exists t node,
         userTransforms kf !! (prefix +:+ name) = Some t /\
         heap s' !! sensorNode sensor = Some node /\
         nodeTranslation node = translation t /\
         nodeRotation node = rotation t) /\
      (~ string_lt name missing ->
       heap s' !! sensorNode sensor = heap s !! sensorNode sensor).
Proof.
  intros Hreach H0 He Hkf Hm.
  destruct (reachable_wf _ _ _ Hreach) as [Hwf _].
  destruct (firstMissing_Some _ _ _ _ Hm) as (l1 & sensor0 & l2 & Hsplit & Hmnone & Hl1).
  pose proof (wf_sorted _ _ _ (wf_envs _ Hwf _ _ He)) as Hsorted.
  split; [exact Hsorted|].
  rewrite Hsplit in Hsorted.
  destruct (setSensorTransformsFromKeyframe_stops s envIndex prefix e kf l1 missing
              sensor0 l2 Hwf H0 He Hkf Hsplit Hmnone Hl1)
    as (s' & Hrun & _ & Hlog & Happlied & Hother).
  exists s'. split; [exact Hrun|]. split.
  { rewrite Hsplit, (filter_before _ _ _ _ Hsorted). exact Hlog. }
  intros name sensor Hin. rewrite Hsplit in Hin.
  destruct (sensor_position _ _ _ _ _ _ Hsorted Hin) as [[Hlt Hin1] | [Hge Hin2]].
  - split; [|contradiction]. intros _.
    destruct (Hl1 _ Hin1) as [t Ht]. simpl in Ht.
    destruct (Happlied name sensor t Hin1 Ht) as (node & Hnode & Htr & Hrot).
    exists t, node. auto.
  - split; [contradiction|]. intros _. apply Hother.
    destruct (wf_sensorNodes _ _ _ Hwf He) as [Hnd _].
    rewrite Hsplit in Hnd. unfold sensorNodes in Hnd. rewrite map_app in Hnd.
    apply NoDup_app in Hnd as (_ & Hdis & _).
    intros Hn1. apply (Hdis _ Hn1).
    apply (list_elem_of_fmap_2 (fun kv => sensorNode kv.2) _ (name, sensor)). exact Hin2.
Qed.

(** ** Scene graph accessors *)

Lemma getSceneGraph_run envIndex s e :
  envIndexInRange envIndex s = true ->
  envs_ (this s) !! Z.to_nat envIndex = Some e ->
  getSceneGraph envIndex s = SceneManager_getSceneGraphRef (sceneID_ e) s.
Proof.
  intros Hr He. unfold getSceneGraph.
  unfold mbind at 1, M_bind. rewrite assertEnvIndex_run, Hr.
  unfold mbind at 1, M_bind. rewrite (envAt_run _ _ _ He). reflexivity.
Qed.

Lemma getSemanticSceneGraph_run ID_UNDEFINED envIndex s e :
  envIndexInRange envIndex s = true ->
  envs_ (this s) !! Z.to_nat envIndex = Some e ->
  getSemanticSceneGraph ID_UNDEFINED envIndex s =
  SceneManager_getSceneGraphRef
    (if semanticSceneID_ e =? ID_UNDEFINED then sceneID_ e else semanticSceneID_ e) s.
Proof.
  intros Hr He. unfold getSemanticSceneGraph.
  unfold mbind at 1, M_bind. rewrite assertEnvIndex_run, Hr.
  unfold mbind at 1, M_bind. rewrite (envAt_run _ _ _ He). reflexivity.
Qed.

(** C4. For a valid environment of a constructed renderer, [getSceneGraph]
    and [getSemanticSceneGraph] both return a graph of the store: the same
    one when the renderer was configured with
    [forceSeparateSemanticSceneGraph = false], two different ones when it was
    configured with [true].  And in any state, [getSemanticSceneGraph] is
    [getSceneGraph] whenever the record's semantic id is [ID_UNDEFINED] or the
    primary id.  ([ID_UNDEFINED] is declared outside this file; all that is
    used of it is that it is negative, so never an id of the store.) *)
Theorem getSemanticSceneGraph_identity
  parse bg ID_UNDEFINED s envIndex e :
  ID_UNDEFINED < 0 ->
  0 <= envIndex ->
  envs_ (this s) !! Z.to_nat envIndex = Some e ->
  (reachable parse bg s ->
   exists g g',
     getSceneGraph envIndex s = Ok g s /\
     getSemanticSceneGraph ID_UNDEFINED envIndex s = Ok g' s /\
     (forceSeparateSemanticSceneGraph (config_ (this s)) = false -> g' = g) /\
     (forceSeparateSemanticSceneGraph (config_ (this s)) = true -> g' <> g)) /\
  (semanticSceneID_ e = ID_UNDEFINED \/ semanticSceneID_ e = sceneID_ e ->
   getSemanticSceneGraph ID_UNDEFINED envIndex s = getSceneGraph envIndex s).
Proof.
  intros Hneg H0 He.
  pose proof (envIndex_lookup_range _ _ _ H0 He) as Hr.
  rewrite (getSceneGraph_run _ _ _ Hr He).
  rewrite (getSemanticSceneGraph_run _ _ _ _ Hr He).
  split.
  - intros Hreach. destruct (reachable_wf _ _ _ Hreach) as [Hwf _].
    destruct (wf_envs _ Hwf _ _ He) as [_ _ _ Hscene Hsem Hflag _].
    assert (Hne : (semanticSceneID_ e =? ID_UNDEFINED) = false).
    { apply Z.eqb_neq. destruct Hsem as [g Hg].
      apply SceneManager_lookup_Some in Hg. lia. }
    rewrite Hne.
    exists (Z.to_nat (sceneID_ e)), (Z.to_nat (semanticSceneID_ e)).
    split; [apply SceneManager_getSceneGraphRef_returns; exact Hscene|].
    split; [apply SceneManager_getSceneGraphRef_returns; exact Hsem|].
    destruct Hscene as [g1 Hg1]. destruct Hsem as [g2 Hg2].
    apply SceneManager_lookup_Some in Hg1. apply SceneManager_lookup_Some in Hg2.
    destruct (forceSeparateSemanticSceneGraph (config_ (this s))).
    + split; [discriminate|]. intros _ Heq. apply Hflag. lia.
    + split; [|discriminate]. intros _. rewrite Hflag. reflexivity.
  - intros [Hu | Hs].
    + rewrite Hu, Z.eqb_refl. reflexivity.
    + rewrite Hs. destruct (sceneID_ e =? ID_UNDEFINED); reflexivity.
Qed.

(** ** Setting a keyframe *)

(** C5. For a valid environment of a constructed renderer and a blob that
    parses, [setEnvironmentKeyframe] leaves a state in which the
    environment's player holds exactly the parsed keyframe, whatever it held
    before.  The call returns normally, unless the resource cache fails on
    one of the asset references of the keyframe: then the failure of the
    cache goes to the caller as it is, and the player holds the parsed
    keyframe all the same. *)
Theorem setEnvironmentKeyframe_replaces
  parse bg s envIndex serKeyframe keyframe e :
  reachable parse bg s ->
  0 <= envIndex ->
  envs_ (this s) !! Z.to_nat envIndex = Some e ->
  parse serKeyframe = inr keyframe ->
  exists s' e',
    stateAfter (setEnvironmentKeyframe parse envIndex serKeyframe s) = Some s' /\
    envs_ (this s') !! Z.to_nat envIndex = Some e' /\
    keyframes_ (player_ e') = [keyframe] /\
    Player_getNumKeyframes (player_ e') = 1 /\
    (setEnvironmentKeyframe parse envIndex serKeyframe s = Ok tt s' \/
     exists msg c,
       c ∈ creations keyframe /\ assetFailsIn s c msg /\
       setEnvironmentKeyframe parse envIndex serKeyframe s = Error msg s').
Proof.
  intros Hreach H0 He Hp.
  destruct (reachable_wf _ _ _ Hreach) as [Hwf _].
  pose proof (envIndex_lookup_range _ _ _ H0 He) as Hr.
  rewrite (setEnvironmentKeyframe_parsed _ _ _ _ _ Hr Hp).
  pose proof (Player_setSingleKeyframe_leaves envIndex keyframe s Hwf Hr) as H.
  unfold leaves in H.
  assert (Hheld : forall s', keyframesAt (Z.to_nat envIndex) s' = Some [keyframe] ->
            exists e', envs_ (this s') !! Z.to_nat envIndex = Some e' /\
                       keyframes_ (player_ e') = [keyframe] /\
                       Player_getNumKeyframes (player_ e') = 1).
  { intros s' K. unfold keyframesAt in K.
    destruct (envs_ (this s') !! Z.to_nat envIndex) as [e'|]; [|discriminate].
    injection K as K. exists e'. split; [reflexivity|]. split; [exact K|].
    unfold Player_getNumKeyframes. rewrite K. reflexivity. }
  destruct (Player_setSingleKeyframe _ _ _ _ s) as [[] s'|msg s'| |];
    try contradiction.
  - destruct H as (_ & _ & K & _). destruct (Hheld s' K) as (e' & He' & K1 & K2).
    exists s', e'. split_ands; auto.
  - destruct H as (_ & _ & K & _ & c & Hc & Hfail).
    destruct (Hheld s' K) as (e' & He' & K1 & K2).
    exists s', e'. split_ands; auto. right. exists msg, c. auto.
Qed.

(** ** Index checks *)

Lemma assert_fails {A} (k : EnvironmentRecord -> M A) envIndex s :
  envIndexInRange envIndex s = false ->
  (assertEnvIndex envIndex;; env ← envAt envIndex; k env) s = Fatal.
Proof.
  intros Hr. unfold mbind at 1, M_bind. rewrite assertEnvIndex_run, Hr. reflexivity.
Qed.

(** C6. On a constructed renderer with [N] environments, each of the seven
    operations that take an environment index aborts on its assertion when
    the index is negative or at least [N]: it neither returns nor reports an
    error. *)
Theorem out_of_range_index_aborts
  parse bg ID_UNDEFINED s envIndex :
  reachable parse bg s ->
  envIndex < 0 \/ numEnvironments (config_ (this s)) <= envIndex ->
  (forall serKeyframe,
     setEnvironmentKeyframe parse envIndex serKeyframe s = Fatal) /\
  (forall prefix, setSensorTransformsFromKeyframe envIndex prefix s = Fatal) /\
  getEnvironmentSensorParentNode envIndex s = Fatal /\
  getEnvironmentSensors envIndex s = Fatal /\
  getSceneGraph envIndex s = Fatal /\
  getSemanticSceneGraph ID_UNDEFINED envIndex s = Fatal /\
  (forall assetInfo creation,
     loadAndCreateRenderAssetInstance envIndex assetInfo creation s = Fatal).
Proof.
  intros Hreach Hout.
  destruct (reachable_wf _ _ _ Hreach) as [_ Hcount].
  assert (Hr : envIndexInRange envIndex s = false).
  { destruct (envIndexInRange envIndex s) eqn:E; [|reflexivity].
    apply envIndexInRange_spec in E. rewrite Hcount in E. lia. }
  split_ands.
  - intros ser. apply setEnvironmentKeyframe_out_of_range. exact Hr.
  - intros prefix. apply setSensorTransformsFromKeyframe_out_of_range. exact Hr.
  - apply (assert_fails (fun env => mret (sensorParentNode_ env))). exact Hr.
  - apply (assert_fails (fun env => mret (sensorMap_ env))). exact Hr.
  - apply (assert_fails (fun env => SceneManager_getSceneGraphRef (sceneID_ env))).
    exact Hr.
  - apply (assert_fails (fun env => SceneManager_getSceneGraphRef _)). exact Hr.
  - intros assetInfo creation.
    apply (assert_fails (fun env => ResourceManager_loadAndCreateRenderAssetInstance _ _ _)).
    exact Hr.
Qed.

(** ** Construction without environments *)

(** C7, as the code has it.  With [numEnvironments] zero or negative the
    constructor reports no error: its loop runs zero times and, when a GL
    context is current or can be created (as for any count), it completes
    with a renderer that has no environment. *)
Theorem constructor_without_environments bg cfg gl :
  numEnvironments cfg <= 0 ->
  glHasCurrent gl = true \/ glDeviceUsable gl (gpuDeviceId cfg) = true ->
  exists s,
    constructor bg cfg gl = Ok tt s /\
    envs_ (this s) = [] /\
    config_ (this s) = cfg.
Proof.
  intros Hn Hgl. destruct (constructor_returns bg cfg gl Hgl) as [s Hs].
  exists s. split; [exact Hs|].
  destruct (constructor_Ok _ _ _ _ Hs) as (_ & Hcount & Hcfg & _).
  split; [|exact Hcfg].
  unfold wf_count in Hcount. rewrite Hcfg, Z2Nat.nonpos in Hcount by exact Hn.
  destruct (envs_ (this s)); [reflexivity | discriminate].
Qed.

(** ** The destructor *)








(** ** Other environments *)

Lemma setSensorTransformsFromKeyframe_leaves_state envIndex prefix s :
  wf s -> envIndexInRange envIndex s = true ->
  exists s', stateAfter (setSensorTransformsFromKeyframe envIndex prefix s) = Some s'.
Proof.
  intros Hwf Hr. destruct (envIndexInRange_lookup _ _ Hr) as [e He].
  rewrite (setSensorTransformsFromKeyframe_run _ _ _ _ Hr He).
  destruct (Player_getNumKeyframes (player_ e) =? 1).
  - destruct (sensorLoop_footprint envIndex prefix (player_ e) (sensorMap_ e) s
                (proj2 (wf_sensorNodes _ _ _ Hwf He)))
      as (s' & Hs' & _). eauto.
  - simpl. eauto.
Qed.

Lemma setEnvironmentKeyframe_leaves_state parse envIndex serKeyframe s :
  wf s -> envIndexInRange envIndex s = true ->
  exists s', stateAfter (setEnvironmentKeyframe parse envIndex serKeyframe s) = Some s'.
Proof.
  intros Hwf Hr. destruct (parse serKeyframe) as [msg|keyframe] eqn:Hp.
  - rewrite (setEnvironmentKeyframe_parse_error _ _ _ _ _ Hr Hp). simpl. eauto.
  - rewrite (setEnvironmentKeyframe_parsed _ _ _ _ _ Hr Hp).
    pose proof (Player_setSingleKeyframe_leaves envIndex keyframe s Hwf Hr) as H.
    unfold leaves in H.
    destruct (Player_setSingleKeyframe _ _ _ _ s) as [[] s1|msg s1| |];
      try contradiction; simpl; eauto.
Qed.

(** C9. On a constructed renderer, for valid environments [i] and [j] with
    [j] different from [i], [setEnvironmentKeyframe] and
    [setSensorTransformsFromKeyframe] called for [i] leave a state, whether
    they return or report an error, and in it the record of environment [j]
    is the record it was (player and held keyframe, sensor map, the two scene
    graph ids, sensor-parent node) and the sensor-parent node and every
    sensor node of [j] carry what they carried. *)
Theorem other_environments_unchanged
  parse bg s envIndex j ej serKeyframe prefix :
  reachable parse bg s ->
  0 <= envIndex < numEnvironments (config_ (this s)) ->
  envs_ (this s) !! j = Some ej ->
  j <> Z.to_nat envIndex ->
  (exists s1,
     stateAfter (setEnvironmentKeyframe parse envIndex serKeyframe s) = Some s1 /\
     envs_ (this s1) !! j = Some ej /\
     forall n, n ∈ envNodes ej -> heap s1 !! n = heap s !! n) /\
  (exists s2,
     stateAfter (setSensorTransformsFromKeyframe envIndex prefix s) = Some s2 /\
     envs_ (this s2) !! j = Some ej /\
     forall n, n ∈ envNodes ej -> heap s2 !! n = heap s !! n).
Proof.
  intros Hreach Hi Hj Hne.
  destruct (reachable_wf _ _ _ Hreach) as [Hwf Hcount].
  assert (Hr : envIndexInRange envIndex s = true).
  { apply envIndexInRange_spec. rewrite Hcount. lia. }
  split.
  - destruct (setEnvironmentKeyframe_leaves_state parse envIndex serKeyframe s Hwf Hr)
      as [s1 Hs1].
    destruct (setEnvironmentKeyframe_outcome _ _ _ _ _ Hwf Hs1) as [_ F].
    exists s1. split; [exact Hs1|]. split.
    + rewrite (frame_other _ _ _ _ F Hne). exact Hj.
    + intros n Hn. apply (frame_heap _ _ _ F). apply ownedNodes_spec.
      exists ej. split; [eapply list_elem_of_lookup_2; exact Hj | exact Hn].
  - destruct (setSensorTransformsFromKeyframe_leaves_state envIndex prefix s Hwf Hr)
      as [s2 Hs2].
    destruct (setSensorTransformsFromKeyframe_footprint _ _ _ _ Hs2) as (Ht & _ & Hh).
    destruct (envIndexInRange_lookup _ _ Hr) as [ei Hei].
    exists s2. split; [exact Hs2|]. split; [rewrite Ht; exact Hj|].
    intros n Hn. apply (Hh ei Hei). intros Hin.
    apply (bind_lookup_disjoint envNodes (envs_ (this s)) j (Z.to_nat envIndex)
             ej ei n (wf_nodup _ Hwf) Hj Hei Hne Hn).
    right. exact Hin.
Qed.

(** ** The properties on the sample renderer *)

Lemma sample_constructed_reachable :
  reachable Sample.keyframeFromString false Sample.constructed.
Proof.
  apply (reachable_constructor _ _ Sample.cfg Sample.gl). vm_compute. reflexivity.
Qed.

Lemma sample_constructedSeparate_reachable :
  reachable Sample.keyframeFromString false Sample.constructedSeparate.
Proof.
  apply (reachable_constructor _ _ Sample.cfgSeparate Sample.gl). vm_compute. reflexivity.
Qed.

Lemma sample_withFull_reachable :
  reachable Sample.keyframeFromString false Sample.withFull.
Proof.
  apply (reachable_setEnvironmentKeyframe _ _ Sample.constructed 0 "full").
  - exact sample_constructed_reachable.
  - vm_compute. reflexivity.
Qed.

Lemma sample_withDepth_reachable :
  reachable Sample.keyframeFromString false Sample.withDepth.
Proof.
  apply (reachable_setEnvironmentKeyframe _ _ Sample.constructed 0 "depth").
  - exact sample_constructed_reachable.
  - vm_compute. reflexivity.
Qed.

(** Right after construction no player holds a keyframe. *)
Lemma constructor_holds_no_keyframe bg cfg gl s i e :
  constructor bg cfg gl = Ok tt s ->
  envs_ (this s) !! i = Some e ->
  keyframes_ (player_ e) = [].
Proof.
  intros Hc He. destruct (constructor_Ok _ _ _ _ Hc) as (_ & _ & _ & Hfb & _).
  apply (Hfb e). eapply list_elem_of_lookup_2. exact He.
Qed.

(** With no pose recorded for either sensor, the error names the transform
    of the first sensor of the map, and nothing was written. *)
Example sample_bare_names_first_sensor :
  setSensorTransformsFromKeyframe 0 "sensor_" Sample.withBare =
  Error (noUserTransformMessage "sensor_depth" 0) Sample.withBare.
Proof. vm_compute. reflexivity. Qed.

(** A blob that does not parse: the parser's error goes to the caller and
    the state is the one before the call. *)
Example sample_parse_error :
  setEnvironmentKeyframe Sample.keyframeFromString 1 "{" Sample.withFull =
  Error "keyframeFromString: parse error" Sample.withFull.
Proof. vm_compute. reflexivity. Qed.

Lemma setSensorTransformsFromKeyframe_roundtrip_witness :
  exists s',
    setSensorTransformsFromKeyframe 0 "sensor_" Sample.withFull = Ok tt s' /\
    forall name sensor t,
      (name, sensor) ∈ sensorMap_ (Sample.env Sample.withFull 0) ->
      userTransforms Sample.fullKeyframe !! ("sensor_" +:+ name) = Some t ->
      exists node,
        heap s' !! sensorNode sensor = Some node /\
        nodeTranslation node = translation t /\
        nodeRotation node = rotation t.
Proof.
  apply (setSensorTransformsFromKeyframe_roundtrip Sample.keyframeFromString false
           Sample.withFull 0 "sensor_" (Sample.env Sample.withFull 0)
           Sample.fullKeyframe).
  - exact sample_withFull_reachable.
  - lia.
  - vm_compute. reflexivity.
  - vm_compute. reflexivity.
  - apply firstMissing_None. vm_compute. reflexivity.
Defined.

Lemma setSensorTransformsFromKeyframe_without_keyframe_witness :
  setSensorTransformsFromKeyframe 0 "sensor_" Sample.constructed =
  Error ("setSensorTransformsFromKeyframe: for environment " +:+ pretty 0
         +:+ ", you have not yet called setEnvironmentKeyframe.") Sample.constructed.
Proof.
  apply (setSensorTransformsFromKeyframe_without_keyframe Sample.constructed 0
           "sensor_" (Sample.env Sample.constructed 0)).
  - lia.
  - vm_compute. reflexivity.
  - vm_compute. reflexivity.
Defined.

Lemma setSensorTransformsFromKeyframe_missing_transform_witness :
  exists missing s',
    firstMissing Sample.depthKeyframe "sensor_"
      (sensorMap_ (Sample.env Sample.withDepth 0)) = Some missing /\
    missing ∈ map fst (sensorMap_ (Sample.env Sample.withDepth 0)) /\
    userTransforms Sample.depthKeyframe !! ("sensor_" +:+ missing) = None /\
    (missing = "rgb"%string \/ string_lt missing "rgb") /\
    ((forall name' sensor',
        (name', sensor') ∈ sensorMap_ (Sample.env Sample.withDepth 0) ->
        string_lt name' "rgb" ->
        is_Some (userTransforms Sample.depthKeyframe !! ("sensor_" +:+ name'))) ->
     missing = "rgb"%string) /\
    setSensorTransformsFromKeyframe 0 "sensor_" Sample.withDepth =
      Error ("setSensorTransformsFromKeyframe: couldn't find user transform "
             +:+ dquote +:+ ("sensor_" +:+ missing) +:+ dquote
             +:+ " for environment " +:+ pretty 0 +:+ ".") s' /\
    forall name' sensor',
      (name', sensor') ∈ sensorMap_ (Sample.env Sample.withDepth 0) ->
      string_lt name' missing ->
      exists t node,
        userTransforms Sample.depthKeyframe !! ("sensor_" +:+ name') = Some t /\
        heap s' !! sensorNode sensor' = Some node /\
        nodeTranslation node = translation t /\
        nodeRotation node = rotation t.
Proof.
  apply (setSensorTransformsFromKeyframe_missing_transform Sample.keyframeFromString
           false Sample.withDepth 0 "sensor_" (Sample.env Sample.withDepth 0)
           Sample.depthKeyframe "rgb" (mkSensor 2%nat (mkSensorSpec "rgb"))).
  - exact sample_withDepth_reachable.
  - lia.
  - vm_compute. reflexivity.
  - vm_compute. reflexivity.
  - vm_compute. right. left.
  - vm_compute. reflexivity.
Defined.

(** C3, as stated, fails: in a constructed renderer whose player for
    environment [0] holds one keyframe that records no user transform at
    all, the transform of the sensor [rgb] is missing, yet the error names
    the transform of the sensor [depth], the first of the map whose
    transform is missing, and not the one of [rgb]. *)
Lemma missing_transform_error_names_first_missing :
  reachable Sample.keyframeFromString false Sample.withBare /\
  envs_ (this Sample.withBare) !! Z.to_nat 0 = Some (Sample.env Sample.withBare 0) /\
  keyframes_ (player_ (Sample.env Sample.withBare 0)) = [Sample.bareKeyframe] /\
  "rgb"%string ∈ map fst (sensorMap_ (Sample.env Sample.withBare 0)) /\
  userTransforms Sample.bareKeyframe !! ("sensor_" +:+ "rgb") = None /\
  setSensorTransformsFromKeyframe 0 "sensor_" Sample.withBare =
    Error (noUserTransformMessage ("sensor_" +:+ "depth") 0) Sample.withBare /\
  noUserTransformMessage ("sensor_" +:+ "depth") 0 <>
    noUserTransformMessage ("sensor_" +:+ "rgb") 0.
Proof.
  split.
  { apply (reachable_setEnvironmentKeyframe _ _ Sample.constructed 0 "bare").
    - exact sample_constructed_reachable.
    - vm_compute. reflexivity. }
  split; [vm_compute; reflexivity|].
  split; [vm_compute; reflexivity|].
  split; [vm_compute; right; left|].
  split; [vm_compute; reflexivity|].
  split; [vm_compute; reflexivity|].
  vm_compute. discriminate.
Qed.

Lemma getSemanticSceneGraph_identity_witness :
  exists g g',
    getSceneGraph 0 Sample.constructedSeparate = Ok g Sample.constructedSeparate /\
    getSemanticSceneGraph (-1) 0 Sample.constructedSeparate
      = Ok g' Sample.constructedSeparate /\
    (forceSeparateSemanticSceneGraph (config_ (this Sample.constructedSeparate)) = false
     -> g' = g) /\
    (forceSeparateSemanticSceneGraph (config_ (this Sample.constructedSeparate)) = true
     -> g' <> g).
Proof.
  destruct (getSemanticSceneGraph_identity Sample.keyframeFromString false (-1)
              Sample.constructedSeparate 0 (Sample.env Sample.constructedSeparate 0))
    as [H _].
  - lia.
  - lia.
  - vm_compute. reflexivity.
  - apply H. exact sample_constructedSeparate_reachable.
Defined.

(** Without the flag, one graph serves both. *)
Example sample_shared_scene_graph :
  getSceneGraph 1 Sample.constructed = Ok 1%nat Sample.constructed /\
  getSemanticSceneGraph (-1) 1 Sample.constructed = Ok 1%nat Sample.constructed.
Proof. split; vm_compute; reflexivity. Qed.

(** With the flag, environment [1] has graphs [2] and [3]. *)
Example sample_separate_scene_graph :
  getSceneGraph 1 Sample.constructedSeparate = Ok 2%nat Sample.constructedSeparate /\
  getSemanticSceneGraph (-1) 1 Sample.constructedSeparate
  = Ok 3%nat Sample.constructedSeparate.
Proof. split; vm_compute; reflexivity. Qed.

Lemma setEnvironmentKeyframe_replaces_witness :
  exists s' e',
    stateAfter (setEnvironmentKeyframe Sample.keyframeFromString 0 "full"
                  Sample.withDepth) = Some s' /\
    envs_ (this s') !! Z.to_nat 0 = Some e' /\
    keyframes_ (player_ e') = [Sample.fullKeyframe] /\
    Player_getNumKeyframes (player_ e') = 1 /\
    (setEnvironmentKeyframe Sample.keyframeFromString 0 "full" Sample.withDepth
       = Ok tt s' \/
     exists msg c,
       c ∈ creations Sample.fullKeyframe /\ assetFailsIn Sample.withDepth c msg /\
       setEnvironmentKeyframe Sample.keyframeFromString 0 "full" Sample.withDepth
         = Error msg s').
Proof.
  apply (setEnvironmentKeyframe_replaces Sample.keyframeFromString false
           Sample.withDepth 0 "full" Sample.fullKeyframe
           (Sample.env Sample.withDepth 0)).
  - exact sample_withDepth_reachable.
  - lia.
  - vm_compute. reflexivity.
  - vm_compute. reflexivity.
Defined.

(** A keyframe with an asset the cache does not find: the failure of the
    cache goes to the caller, the asset before it has been instantiated and
    the player holds the keyframe. *)
Example sample_broken_keyframe :
  exists s',
    setEnvironmentKeyframe Sample.keyframeFromString 0 "broken" Sample.withDepth =
      Error "ResourceManager: cannot load missing.glb" s' /\
    keyframes_ (player_ (Sample.env s' 0)) = [Sample.brokenKeyframe] /\
    length (createdInstances_ (player_ (Sample.env s' 0))) = 1%nat.
Proof. eexists. split; [vm_compute; reflexivity|]. split; vm_compute; reflexivity. Qed.

Lemma out_of_range_index_aborts_witness :
  (forall serKeyframe,
     setEnvironmentKeyframe Sample.keyframeFromString 2 serKeyframe Sample.constructed
     = Fatal) /\
  (forall prefix, setSensorTransformsFromKeyframe 2 prefix Sample.constructed = Fatal) /\
  getEnvironmentSensorParentNode 2 Sample.constructed = Fatal /\
  getEnvironmentSensors 2 Sample.constructed = Fatal /\
  getSceneGraph 2 Sample.constructed = Fatal /\
  getSemanticSceneGraph (-1) 2 Sample.constructed = Fatal /\
  (forall assetInfo creation,
     loadAndCreateRenderAssetInstance 2 assetInfo creation Sample.constructed = Fatal).
Proof.
  apply (out_of_range_index_aborts Sample.keyframeFromString false (-1)
           Sample.constructed 2).
  - exact sample_constructed_reachable.
  - right. vm_compute. discriminate.
Defined.

(** C7, as stated, fails: with [numEnvironments = 0] the constructor reports
    no error and completes, and the renderer it yields has no environment. *)
Lemma constructor_zero_environments_completes :
  numEnvironments Sample.cfgEmpty <= 0 /\
  (forall msg s, constructor false Sample.cfgEmpty Sample.gl <> Error msg s) /\
  exists s,
    constructor false Sample.cfgEmpty Sample.gl = Ok tt s /\
    envs_ (this s) = [].
Proof.
  split; [vm_compute; discriminate|]. split.
  - intros msg s. vm_compute. discriminate.
  - eexists. split; vm_compute; reflexivity.
Qed.

(** A negative count behaves as zero. *)
Example sample_negative_count :
  exists s,
    constructor false (mkConfiguration (-3) [mkSensorSpec "rgb"] 0 false false)
      Sample.gl = Ok tt s /\
    envs_ (this s) = [].
Proof. eexists. split; vm_compute; reflexivity. Qed.

Lemma constructor_without_environments_witness :
  exists s,
    constructor false Sample.cfgEmpty Sample.gl = Ok tt s /\
    envs_ (this s) = [] /\
    config_ (this s) = Sample.cfgEmpty.
Proof.
  apply (constructor_without_environments false Sample.cfgEmpty Sample.gl).
  - vm_compute. discriminate.
  - left. reflexivity.
Defined.


Lemma other_environments_unchanged_witness :
  (exists s1,
     stateAfter (setEnvironmentKeyframe Sample.keyframeFromString 0 "depth"
                   Sample.withFull) = Some s1 /\
     envs_ (this s1) !! 1%nat = Some (Sample.env Sample.withFull 1) /\
     forall n, n ∈ envNodes (Sample.env Sample.withFull 1) ->
               heap s1 !! n = heap Sample.withFull !! n) /\
  (exists s2,
     stateAfter (setSensorTransformsFromKeyframe 0 "sensor_" Sample.withFull) = Some s2 /\
     envs_ (this s2) !! 1%nat = Some (Sample.env Sample.withFull 1) /\
     forall n, n ∈ envNodes (Sample.env Sample.withFull 1) ->
               heap s2 !! n = heap Sample.withFull !! n).
Proof.
  apply (other_environments_unchanged Sample.keyframeFromString false
           Sample.withFull 0 1 (Sample.env Sample.withFull 1) "depth" "sensor_").
  - exact sample_withFull_reachable.
  - vm_compute. split; [discriminate | reflexivity].
  - vm_compute. reflexivity.
  - vm_compute. discriminate.
Defined.

Lemma setSensorTransformsFromKeyframe_ascending_order_witness :
  StronglySorted string_lt (map fst (sensorMap_ (Sample.env Sample.withDepth 0))) /\
  exists s',
    setSensorTransformsFromKeyframe 0 "sensor_" Sample.withDepth =
      Error (noUserTransformMessage ("sensor_" +:+ "rgb") 0) s' /\
    log s' = log Sample.withDepth ++
             (List.filter (fun kv => String.ltb kv.1 "rgb")
                (sensorMap_ (Sample.env Sample.withDepth 0))
                ≫= sensorWrites "sensor_" (player_ (Sample.env Sample.withDepth 0))) /\
    forall name sensor,
      (name, sensor) ∈ sensorMap_ (Sample.env Sample.withDepth 0) ->
      (string_lt name "rgb" ->
       exists t node,
         userTransforms Sample.depthKeyframe !! ("sensor_" +:+ name) = Some t /\
         heap s' !! sensorNode sensor = Some node /\
         nodeTranslation node = translation t /\
         nodeRotation node = rotation t) /\
      (~ string_lt name "rgb" ->
       heap s' !! sensorNode sensor = heap Sample.withDepth !! sensorNode sensor).
Proof.
  apply (setSensorTransformsFromKeyframe_ascending_order Sample.keyframeFromString
           false Sample.withDepth 0 "sensor_" (Sample.env Sample.withDepth 0)
           Sample.depthKeyframe "rgb").
  - exact sample_withDepth_reachable.
  - lia.
  - vm_compute. reflexivity.
  - vm_compute. reflexivity.
  - vm_compute. reflexivity.
Defined.


(** * Further properties of the renderer *)

(** ** The records the constructor builds *)

Lemma names_emplace_keys k v (m : SensorMap) :
  map fst (SensorMap_emplace k v m) = names_emplace k (map fst m).
Proof.
  induction m as [|[k' v'] m IH]; simpl; [reflexivity|].
  destruct (String.compare k k'); simpl; [reflexivity | reflexivity |].
  rewrite IH. reflexivity.
Qed.

Lemma SensorMap_emplace_elem k v (m : SensorMap) kv :
  kv ∈ SensorMap_emplace k v m -> kv = (k, v) \/ kv ∈ m.
Proof.
  destruct (SensorMap_emplace_cases k v m) as [-> | (m1 & m2 & -> & ->)]; [auto|].
  rewrite !elem_of_app, elem_of_cons. tauto.
Qed.

Lemma SensorFactory_createSensors_built parent specs :
  forall acc s,
    returns (SensorFactory_createSensors parent specs acc) s (fun m s' =>
      this s' = this s /\ log s' = log s /\ heap s ⊆ heap s' /\
      map fst m = foldl (fun ks spec => names_emplace (uuid spec) ks) (map fst acc) specs /\
      (Forall namedByUuid acc -> Forall namedByUuid m) /\
      (forall kv, kv ∈ m ->
         kv ∈ acc \/ heap s' !! sensorNode kv.2 = Some (newNode (Some parent)))).
Proof.
  induction specs as [|spec specs IH]; intros acc s; simpl.
  - apply returns_ret. split_ands; auto.
  - apply returns_bind. unfold returns at 1, SceneNode_createChild.
    set (n := fresh (dom (heap s))).
    set (s1 := with_heap _ s).
    assert (Hsub : heap s ⊆ heap s1).
    { apply insert_subseteq. apply not_elem_of_dom. apply is_fresh. }
    eapply returns_mono; [apply IH|].
    intros m s' (Ht & Hl & Hh & Hk & Hu & Hn).
    split; [exact Ht|]. split; [exact Hl|]. split; [etransitivity; eassumption|].
    split; [rewrite Hk, names_emplace_keys; reflexivity|]. split.
    + intros Hacc. apply Hu. apply Forall_forall. intros kv Hkv.
      apply SensorMap_emplace_elem in Hkv as [-> | Hkv]; [reflexivity|].
      rewrite Forall_forall in Hacc. apply Hacc. exact Hkv.
    + intros kv Hkv. destruct (Hn kv Hkv) as [Hin | Hnew]; [|right; exact Hnew].
      apply SensorMap_emplace_elem in Hin as [-> | Hin]; [|left; exact Hin].
      right. simpl. eapply lookup_weaken; [|exact Hh].
      unfold s1. simpl. apply lookup_insert_eq.
Qed.

Lemma SceneManager_lookup_weaken sm sm' sceneID g :
  sceneGraphs_ sm `prefix_of` sceneGraphs_ sm' ->
  SceneManager_lookup sm sceneID = Some g ->
  SceneManager_lookup sm' sceneID = Some g.
Proof.
  unfold SceneManager_lookup. intros Hp. destruct (0 <=? sceneID); [|discriminate].
  intros Hg. eapply prefix_lookup_Some; eassumption.
Qed.

Lemma built_env_mono s s' i e :
  config_ (this s') = config_ (this s) ->
  sceneGraphs_ (sceneManager_ (this s)) `prefix_of`
    sceneGraphs_ (sceneManager_ (this s')) ->
  (forall n node, n ∈ envNodes e -> heap s !! n = Some node ->
     exists node', heap s' !! n = Some node' /\ nodeParent node' = nodeParent node) ->
  built_env s i e -> built_env s' i e.
Proof.
  intros Hc Hp Hh [H1 H2 H3 H4 (g & node & Hg & Hn & Hpar) H6].
  split; rewrite ?Hc; auto.
  - destruct (Hh _ _ (list_elem_of_here _ _) Hn) as (node' & Hn' & Hp').
    exists g, node'. split; [eapply SceneManager_lookup_weaken; eassumption|].
    split; [exact Hn' | congruence].
  - intros kv Hkv. destruct (H6 kv Hkv) as (node0 & Hn0 & Hp0).
    destruct (Hh (sensorNode kv.2) node0) as (node' & Hn' & Hp'); [|exact Hn0|].
    { right. apply (list_elem_of_fmap_2 (fun kv => sensorNode kv.2)). exact Hkv. }
    exists node'. split; [exact Hn' | congruence].
Qed.

Lemma SceneManager_lookup_new graphs g rest :
  SceneManager_lookup (mkSceneManager (graphs ++ g :: rest)) (Z.of_nat (length graphs))
  = Some g.
Proof.
  unfold SceneManager_lookup. simpl.
  destruct (Z.leb_spec 0 (Z.of_nat (length graphs))); [|lia].
  rewrite Nat2Z.id, lookup_app_r by lia. rewrite Nat.sub_diag. reflexivity.
Qed.

Lemma constructEnvironment_built cfg s :
  built s -> config_ (this s) = cfg ->
  returns (constructEnvironment cfg (Z.of_nat (length (envs_ (this s))))) s
    (fun _ s' =>
       built s' /\ config_ (this s') = cfg /\
       length (envs_ (this s')) = S (length (envs_ (this s))) /\
       context_ (this s') = context_ (this s) /\
       renderer_ (this s') = renderer_ (this s) /\
       resourceManager_ (this s') = resourceManager_ (this s) /\
       log s' = log s).
Proof.
  intros [Hgraphs Henvs] Hcfg. unfold constructEnvironment.
  set (graphs := sceneGraphs_ (sceneManager_ (this s))) in *.
  set (root := fresh (dom (heap s))).
  apply returns_bind. unfold returns at 1, SceneManager_initSceneGraph. fold graphs root.
  set (s1 := mkState _ _ _).
  (* the semantic graph *)
  assert (Hsem : returns (if forceSeparateSemanticSceneGraph cfg
                          then SceneManager_initSceneGraph
                          else mret (Z.of_nat (length graphs))) s1
            (fun semanticSceneID s2 =>
               exists rest,
                 this s2 = with_sceneManager
                             (mkSceneManager (graphs ++ mkSceneGraph root :: rest)) (this s) /\
                 log s2 = log s /\ heap s1 ⊆ heap s2 /\
                 S (length rest) = graphsPerEnvironment cfg /\
                 semanticSceneID =
                 Z.of_nat (length graphs + (graphsPerEnvironment cfg - 1)))).
  { unfold graphsPerEnvironment. destruct (forceSeparateSemanticSceneGraph cfg).
    - unfold returns, SceneManager_initSceneGraph. simpl.
      exists [mkSceneGraph (fresh (dom (heap s1)))].
      split; [rewrite <- app_assoc; reflexivity|]. split; [reflexivity|].
      split; [apply insert_subseteq, not_elem_of_dom, is_fresh|].
      split; [reflexivity|]. rewrite length_app. simpl. f_equal; lia.
    - apply returns_ret. exists []. split; [reflexivity|]. split; [reflexivity|].
      split; [reflexivity|]. split; [reflexivity|]. f_equal. simpl. lia. }
  apply returns_bind. eapply returns_mono; [exact Hsem|]. clear Hsem.
  intros semanticSceneID s2 (rest & Ht2 & Hl2 & Hh2 & Hrest & Hsemid).
  assert (Hlk : SceneManager_lookup (sceneManager_ (this s2)) (Z.of_nat (length graphs))
                = Some (mkSceneGraph root)).
  { rewrite Ht2. apply SceneManager_lookup_new. }
  apply returns_bind. unfold returns at 1.
  rewrite (SceneManager_getSceneGraphRef_returns _ _ (ex_intro _ _ Hlk)).
  apply returns_bind. unfold returns at 1, SceneGraph_getRootNode.
  rewrite Nat2Z.id, Ht2. simpl. rewrite lookup_app_r by lia.
  rewrite Nat.sub_diag. simpl.
  apply returns_bind. unfold returns at 1, SceneNode_createChild.
  set (parentNode := fresh (dom (heap s2))).
  set (s3 := with_heap _ s2).
  assert (Hh3 : heap s2 ⊆ heap s3).
  { apply insert_subseteq, not_elem_of_dom, is_fresh. }
  apply returns_bind.
  eapply returns_mono;
    [apply (SensorFactory_createSensors_built parentNode (sensorSpecifications cfg) [] s3)|].
  intros sensorMap s4 (Ht4 & Hl4 & Hh4 & Hkeys & Huuid & Hnodes).
  unfold returns. simpl.
  set (e := mkEnvironmentRecord _ _ _ _ _).
  assert (Hheap : heap s ⊆ heap s4).
  { etransitivity; [|exact Hh4]. etransitivity; [|exact Hh3].
    etransitivity; [|exact Hh2]. apply insert_subseteq, not_elem_of_dom, is_fresh. }
  assert (Hthis : this s4 = with_sceneManager
                    (mkSceneManager (graphs ++ mkSceneGraph root :: rest)) (this s)).
  { rewrite Ht4. exact Ht2. }
  rewrite Hthis. simpl. fold graphs.
  split; [|split_ands; auto; rewrite ?length_app; simpl; try lia; rewrite Hl4; exact Hl2].
  split; simpl.
  - rewrite Hcfg, !length_app. simpl. fold graphs in Hgraphs.
    rewrite Hcfg in Hgraphs. lia.
  - intros i e0 Hi. apply lookup_app_Some in Hi as [Hi | [Hlen Hi]].
    + apply (built_env_mono s); simpl; [reflexivity | | | apply Henvs; exact Hi].
      * fold graphs. apply prefix_app_r. reflexivity.
      * intros n node _ Hn. exists node. split; [|reflexivity].
        eapply lookup_weaken; eassumption.
    + destruct (i - length (envs_ (this s)))%nat eqn:Hd; simpl in Hi; [|done].
      injection Hi as <-. assert (i = length (envs_ (this s))) as -> by lia.
      fold graphs in Hgraphs. rewrite Hcfg in Hgraphs.
      split; simpl; rewrite ?Hcfg.
      * f_equal. lia.
      * rewrite Hsemid. f_equal. lia.
      * exact Hkeys.
      * apply Huuid. constructor.
      * exists (mkSceneGraph root), (newNode (Some root)).
        split; [apply SceneManager_lookup_new|]. split; [|reflexivity].
        eapply lookup_weaken; [|exact Hh4]. unfold s3. simpl. apply lookup_insert_eq.
      * intros kv Hkv. destruct (Hnodes kv Hkv) as [Hin | Hnew]; [inversion Hin|].
        exists (newNode (Some parentNode)). split; [exact Hnew | reflexivity].
Qed.

Lemma constructEnvironments_built cfg n :
  forall s,
    built s -> config_ (this s) = cfg ->
    returns (forEach (constructEnvironment cfg)
               (seqZ (Z.of_nat (length (envs_ (this s)))) (Z.of_nat n))) s
      (fun _ s' =>
         built s' /\ config_ (this s') = cfg /\
         context_ (this s') = context_ (this s) /\
         renderer_ (this s') = renderer_ (this s) /\
         resourceManager_ (this s') = resourceManager_ (this s) /\
         log s' = log s).
Proof.
  induction n as [|n IH]; intros s Hb Hcfg.
  - rewrite seqZ_nil by lia. apply returns_ret. split_ands; auto.
  - rewrite seqZ_cons by lia. simpl forEach. apply returns_bind.
    eapply returns_mono; [apply constructEnvironment_built; assumption|].
    intros [] s1 (Hb1 & Hcfg1 & Hlen1 & Hc1 & Hr1 & Hm1 & Hl1).
    replace (Z.succ (Z.of_nat (length (envs_ (this s)))))
      with (Z.of_nat (length (envs_ (this s1)))) by lia.
    replace (Z.pred (Z.of_nat (S n))) with (Z.of_nat n) by lia.
    eapply returns_mono; [apply IH; assumption|].
    intros [] s2 (Hb2 & Hcfg2 & Hc2 & Hr2 & Hm2 & Hl2).
    split_ands; auto; congruence.
Qed.

Lemma constructor_environments_built cfg rm :
  returns
    (modifyThis (with_resourceManager (Some rm));;
     modifyThis (with_sceneManager (mkSceneManager []));;
     forEach (constructEnvironment cfg) (seqZ 0 (numEnvironments cfg)))
    (unconstructed cfg)
    (fun _ s =>
       built s /\ config_ (this s) = cfg /\ context_ (this s) = None /\
       renderer_ (this s) = None /\
       resourceManager_ (this s) = Some rm /\
       log s = []).
Proof.
  apply returns_bind. unfold returns at 1. simpl.
  apply returns_bind. unfold returns at 1. simpl.
  set (s0 := with_this _ _).
  assert (Hb0 : built s0).
  { split; simpl.
    - lia.
    - intros i e Hi. rewrite lookup_nil in Hi. done. }
  destruct (Z.le_gt_cases (numEnvironments cfg) 0) as [Hn | Hn].
  - rewrite seqZ_nil by lia. apply returns_ret. split_ands; auto.
  - pose proof (constructEnvironments_built cfg (Z.to_nat (numEnvironments cfg))
                  s0 Hb0 eq_refl) as H.
    simpl in H. rewrite Z2Nat.id in H by lia.
    eapply returns_mono; [exact H|].
    intros [] s1 (Hb1 & Hcfg1 & Hc1 & Hr1 & Hm1 & Hl1). split_ands; auto.
Qed.

(** A state of the same renderer: the configuration, the scene graphs and,
    but for the players, the records are those of [s]. *)
Lemma built_same_shape s s' :
  config_ (this s') = config_ (this s) ->
  sceneManager_ (this s') = sceneManager_ (this s) ->
  (exists i f, envs_ (this s') =
               alter (fun e => with_player (f (player_ e)) e) i (envs_ (this s))) ->
  (forall n node, n ∈ ownedNodes (this s) -> heap s !! n = Some node ->
     exists node', heap s' !! n = Some node' /\ nodeParent node' = nodeParent node) ->
  built s -> built s'.
Proof.
  intros Hc Hsm (i & f & He) Hh [Hg Hb]. split.
  - rewrite Hc, Hsm, He, length_alter. exact Hg.
  - intros j e' Hj. rewrite He in Hj.
    assert (exists e, envs_ (this s) !! j = Some e /\
                      (e' = e \/ e' = with_player (f (player_ e)) e)) as (e & Hje & He').
    { destruct (decide (i = j)) as [-> | Hne].
      - rewrite list_lookup_alter_eq in Hj.
        destruct (envs_ (this s) !! j) as [e|]; [|discriminate].
        injection Hj as <-. eauto.
      - rewrite list_lookup_alter_ne in Hj by exact Hne. eauto. }
    assert (Hbe : built_env s' j e).
    { apply (built_env_mono s); [exact Hc | rewrite Hsm; reflexivity | | apply Hb; exact Hje].
      intros n node Hn. apply Hh. apply ownedNodes_spec. exists e.
      split; [eapply list_elem_of_lookup_2; exact Hje | exact Hn]. }
    destruct He' as [-> | ->]; [exact Hbe|].
    destruct Hbe as [H1 H2 H3 H4 H5 H6]. split; assumption.
Qed.

Lemma constructor_built bg cfg gl s :
  constructor bg cfg gl = Ok tt s ->
  built s /\
  config_ (this s) = cfg /\
  context_ (this s) =
    (if glHasCurrent gl then None else Some (mkWindowlessContext (gpuDeviceId cfg))) /\
  renderer_ (this s) =
    Some (mkRenderer (rendererFlagsFor bg cfg (negb (glHasCurrent gl))) true) /\
  resourceManager_ (this s) = Some (mkResourceManager None (assetOutcome gl)).
Proof.
  unfold constructor. rewrite constructorBody_split.
  destruct (proj1 (returns_Ok _ _ _) (constructor_environments_built cfg
              (mkResourceManager None (assetOutcome gl))))
    as ([] & s1 & Hs1 & Hb1 & Hcfg1 & Hc1 & Hr1 & Hm1 & Hl1).
  rewrite (bind_Ok _ _ _ _ _ Hs1).
  unfold WindowlessContext_create.
  assert (Hkeep : forall r,
            config_ r = config_ (this s1) ->
            sceneManager_ r = sceneManager_ (this s1) ->
            envs_ r = envs_ (this s1) ->
            built (with_this r s1)).
  { intros r H1 H2 H3. apply (built_same_shape s1); simpl; auto.
    - exists 0%nat, id. rewrite alter_player_id. exact H3.
    - intros n node _ Hn. eauto. }
  destruct (glHasCurrent gl).
  - intros [= <-]. simpl. rewrite Hc1. simpl.
    split; [apply Hkeep; reflexivity|]. split_ands; auto.
  - destruct (glDeviceUsable gl (gpuDeviceId cfg)); [|discriminate].
    intros [= <-]. simpl.
    split; [apply Hkeep; reflexivity|]. split_ands; auto.
Qed.

Lemma sensorLoop_parents envIndex prefix player l :
  forall s s',
    stateAfter (forEach (setSensorTransform envIndex prefix player) l s) = Some s' ->
    forall n node, heap s !! n = Some node ->
      exists node', heap s' !! n = Some node' /\ nodeParent node' = nodeParent node.
Proof.
  induction l as [|kv l IH]; intros s s'; simpl.
  - intros [= <-] n node Hn. eauto.
  - destruct (Player_getUserTransform player (prefix +:+ kv.1)) as [[t r]|] eqn:Hf.
    + unfold mbind, M_bind.
      destruct (heap s !! sensorNode kv.2) as [node0|] eqn:Hnode0;
        [|rewrite (setSensorTransform_dead _ _ _ _ _ _ _ Hf Hnode0); discriminate].
      rewrite (setSensorTransform_found _ _ _ _ _ _ _ Hf (ex_intro _ _ Hnode0)).
      intros Hs' n node Hn.
      assert (exists node1,
                writeTransform (sensorNode kv.2) t r (heap s) !! n = Some node1 /\
                nodeParent node1 = nodeParent node) as (node1 & Hn1 & Hp1).
      { destruct (decide (sensorNode kv.2 = n)) as [<- | Hne].
        - rewrite writeTransform_lookup, Hn. simpl. eauto.
        - rewrite writeTransform_lookup_ne by exact Hne. eauto. }
      destruct (IH _ _ Hs' n node1 Hn1) as (node' & Hn' & Hp').
      exists node'. split; [exact Hn' | congruence].
    + unfold mbind, M_bind. rewrite (setSensorTransform_missing _ _ _ _ _ Hf).
      intros [= <-] n node Hn. eauto.
Qed.

Lemma setSensorTransformsFromKeyframe_parents envIndex prefix s s' :
  stateAfter (setSensorTransformsFromKeyframe envIndex prefix s) = Some s' ->
  forall n node, heap s !! n = Some node ->
    exists node', heap s' !! n = Some node' /\ nodeParent node' = nodeParent node.
Proof.
  destruct (envIndexInRange envIndex s) eqn:Hr.
  - destruct (envIndexInRange_lookup _ _ Hr) as [e He].
    rewrite (setSensorTransformsFromKeyframe_run _ _ _ _ Hr He).
    destruct (Player_getNumKeyframes (player_ e) =? 1).
    + apply sensorLoop_parents.
    + simpl. intros [= <-] n node Hn. eauto.
  - rewrite (setSensorTransformsFromKeyframe_out_of_range _ _ _ Hr). discriminate.
Qed.

Lemma reachable_built parse bg s : reachable parse bg s -> built s.
Proof.
  intros Hreach. induction Hreach as [cfg gl s Hc | s envIndex ser s' Hreach IH Hs'
                                     | s envIndex prefix s' Hreach IH Hs'].
  - apply constructor_built in Hc. tauto.
  - destruct (reachable_wf _ _ _ Hreach) as [Hwf _].
    destruct (setEnvironmentKeyframe_outcome _ _ _ _ _ Hwf Hs') as [_ F].
    apply (built_same_shape s); [apply F | apply F | | | exact IH].
    + destruct (frame_envs _ _ _ F) as [f Hf]. eauto.
    + intros n node Hn Hnode. exists node. split; [|reflexivity].
      rewrite (frame_heap _ _ _ F n Hn). exact Hnode.
  - destruct (setSensorTransformsFromKeyframe_footprint _ _ _ _ Hs') as (Ht & _ & _).
    apply (built_same_shape s); rewrite ?Ht; auto.
    + exists 0%nat, id. rewrite alter_player_id. reflexivity.
    + intros n node _. apply (setSensorTransformsFromKeyframe_parents _ _ _ _ Hs').
Qed.

Lemma names_emplace_elem k ks x :
  x ∈ names_emplace k ks <-> x = k \/ x ∈ ks.
Proof.
  induction ks as [|k' rest IH]; simpl.
  - rewrite list_elem_of_singleton, elem_of_nil. tauto.
  - destruct (String.compare k k') eqn:E.
    + apply String.compare_eq_iff in E. subst k'.
      rewrite elem_of_cons. tauto.
    + rewrite !elem_of_cons. tauto.
    + rewrite !elem_of_cons, IH. tauto.
Qed.

Lemma names_emplace_length k ks :
  (length (names_emplace k ks) <= S (length ks))%nat.
Proof.
  induction ks as [|k' rest IH]; simpl; [lia|].
  destruct (String.compare k k'); simpl; lia.
Qed.

Lemma foldl_names_elem specs :
  forall acc k,
    k ∈ foldl (fun ks spec => names_emplace (uuid spec) ks) acc specs <->
    k ∈ acc \/ exists spec, spec ∈ specs /\ uuid spec = k.
Proof.
  induction specs as [|spec rest IH]; intros acc k; simpl.
  - split; [auto|]. intros [H | (spec & H & _)]; [exact H|]. inversion H.
  - rewrite IH, names_emplace_elem. split.
    + intros [[-> | H] | (spec' & H & Hu)]; eauto.
      * right. exists spec. split; [left | reflexivity].
      * right. exists spec'. split; [right; exact H | exact Hu].
    + intros [H | (spec' & H & Hu)]; [auto|].
      apply elem_of_cons in H as [-> | H]; [auto|]. right. eauto.
Qed.

Lemma foldl_names_length specs :
  forall acc,
    (length (foldl (fun ks spec => names_emplace (uuid spec) ks) acc specs)
     <= length acc + length specs)%nat.
Proof.
  induction specs as [|spec rest IH]; intros acc; simpl; [lia|].
  specialize (IH (names_emplace (uuid spec) acc)).
  pose proof (names_emplace_length (uuid spec) acc). lia.
Qed.

Lemma sensorNames_elem specs k :
  k ∈ sensorNames specs <-> exists spec, spec ∈ specs /\ uuid spec = k.
Proof.
  unfold sensorNames. rewrite foldl_names_elem. split; [|auto].
  intros [H | H]; [inversion H | exact H].
Qed.

Lemma reachable_in_range parse bg s envIndex :
  reachable parse bg s ->
  0 <= envIndex < numEnvironments (config_ (this s)) ->
  envIndexInRange envIndex s = true.
Proof.
  intros Hreach Hi. destruct (reachable_wf _ _ _ Hreach) as [_ Hcount].
  apply envIndexInRange_spec. unfold wf_count in Hcount. rewrite Hcount. lia.
Qed.

(** ** The constructor *)

(** X1. When the constructor returns, the renderer owns a GL context exactly
    when none was current, created on the configured device; the renderer
    object has acquired the context; and its flags are: with the background
    renderer built in, [BackgroundRenderer] exactly when the renderer owns
    its context and [LeaveContextWithBackgroundRenderer] exactly when, in
    addition, the configuration asks for it; without it, no flag at all. *)
Theorem constructor_context_and_flags bg cfg gl s :
  constructor bg cfg gl = Ok tt s ->
  context_ (this s) =
    (if glHasCurrent gl then None else Some (mkWindowlessContext (gpuDeviceId cfg))) /\
  (exists flags,
     renderer_ (this s) = Some (mkRenderer flags true) /\
     flagBackgroundRenderer flags = bg && negb (glHasCurrent gl) /\
     flagLeaveContextWithBackgroundRenderer flags =
       bg && negb (glHasCurrent gl) && leaveContextWithBackgroundRenderer cfg).
Proof.
  intros Hc.
  destruct (constructor_built _ _ _ _ Hc) as (_ & _ & Hctx & Hrd & _).
  split; [exact Hctx|].
  exists (rendererFlagsFor bg cfg (negb (glHasCurrent gl))).
  split; [exact Hrd|].
  unfold rendererFlagsFor. destruct bg; simpl; auto.
Qed.

(** X3. In every state of a constructed renderer there are as many
    environment records as the configuration asks for (none for a count
    below one), and the asset callback of the player at position [i] carries
    the index [i]: a player never instantiates assets for another
    environment than its own. *)
Theorem environments_match_configuration parse bg s :
  reachable parse bg s ->
  length (envs_ (this s)) = Z.to_nat (numEnvironments (config_ (this s))) /\
  forall i e, envs_ (this s) !! i = Some e ->
    assetCallbackEnvIdx (player_ e) = Z.of_nat i.
Proof.
  intros Hreach. destruct (reachable_wf _ _ _ Hreach) as [Hwf Hcount].
  split; [exact Hcount|].
  intros i e He. exact (wf_callback _ _ _ (wf_envs _ Hwf _ _ He)).
Qed.

(** X4. In every state of a constructed renderer the sensor map of every
    environment has the same keys: the names of the configuration's sensor
    specifications, each once, in ascending order.  A name is a key exactly
    when some specification carries it, the sensor stored under a key was
    made from a specification of that name, and there are never more sensors
    than specifications. *)
Theorem sensor_names_from_configuration parse bg s i e :
  reachable parse bg s ->
  envs_ (this s) !! i = Some e ->
  map fst (sensorMap_ e) = sensorNames (sensorSpecifications (config_ (this s))) /\
  StronglySorted string_lt (map fst (sensorMap_ e)) /\
  (forall k, k ∈ map fst (sensorMap_ e) <->
             exists spec, spec ∈ sensorSpecifications (config_ (this s)) /\
                          uuid spec = k) /\
  (forall k sensor, (k, sensor) ∈ sensorMap_ e -> uuid (sensorSpec sensor) = k) /\
  (length (sensorMap_ e) <= length (sensorSpecifications (config_ (this s))))%nat.
Proof.
  intros Hreach He.
  destruct (reachable_wf _ _ _ Hreach) as [Hwf _].
  pose proof (built_envs _ (reachable_built _ _ _ Hreach) _ _ He) as Hb.
  pose proof (built_names _ _ _ Hb) as Hnames.
  split_ands.
  - exact Hnames.
  - exact (wf_sorted _ _ _ (wf_envs _ Hwf _ _ He)).
  - intros k. rewrite Hnames. apply sensorNames_elem.
  - intros k sensor Hin.
    pose proof (built_uuid _ _ _ Hb) as Hu.
    rewrite Forall_forall in Hu. exact (Hu (k, sensor) Hin).
  - rewrite <- (length_map fst), Hnames. unfold sensorNames.
    pose proof (foldl_names_length (sensorSpecifications (config_ (this s))) []).
    simpl in *. lia.
Qed.

(** X5. The scene graphs of a constructed renderer are numbered by
    environment: with a shared semantic graph the store holds one graph per
    environment and environment [i] uses graph [i] for both purposes; with
    [forceSeparateSemanticSceneGraph] it holds two per environment, [2 i] the
    primary and [2 i + 1] the semantic one.  So no graph is used by two
    environments. *)
Theorem scene_graph_ids parse bg s :
  reachable parse bg s ->
  length (sceneGraphs_ (sceneManager_ (this s))) =
    (graphsPerEnvironment (config_ (this s)) * length (envs_ (this s)))%nat /\
  forall i e, envs_ (this s) !! i = Some e ->
    sceneID_ e = Z.of_nat (graphsPerEnvironment (config_ (this s)) * i) /\
    semanticSceneID_ e =
      (if forceSeparateSemanticSceneGraph (config_ (this s))
       then sceneID_ e + 1 else sceneID_ e) /\
    forall j e', envs_ (this s) !! j = Some e' -> i <> j ->
      sceneID_ e <> sceneID_ e' /\
      sceneID_ e <> semanticSceneID_ e' /\
      semanticSceneID_ e <> sceneID_ e' /\
      semanticSceneID_ e <> semanticSceneID_ e'.
Proof.
  intros Hreach. pose proof (reachable_built _ _ _ Hreach) as Hb.
  split; [exact (built_graphs _ Hb)|].
  intros i e He.
  destruct (built_envs _ Hb _ _ He) as [Hs Hm _ _ _ _].
  assert (Hsem : semanticSceneID_ e =
                 (if forceSeparateSemanticSceneGraph (config_ (this s))
                  then sceneID_ e + 1 else sceneID_ e)).
  { rewrite Hm, Hs. unfold graphsPerEnvironment.
    destruct (forceSeparateSemanticSceneGraph (config_ (this s))); lia. }
  split; [exact Hs|]. split; [exact Hsem|].
  intros j e' He' Hij.
  destruct (built_envs _ Hb _ _ He') as [Hs' Hm' _ _ _ _].
  rewrite Hm, Hm', Hs, Hs'. unfold graphsPerEnvironment.
  destruct (forceSeparateSemanticSceneGraph (config_ (this s))); split_ands; lia.
Qed.

(** ** The accessors *)

Lemma getEnvironmentSensorParentNode_run envIndex s e :
  envIndexInRange envIndex s = true ->
  envs_ (this s) !! Z.to_nat envIndex = Some e ->
  getEnvironmentSensorParentNode envIndex s = Ok (sensorParentNode_ e) s.
Proof.
  intros Hr He. unfold getEnvironmentSensorParentNode.
  unfold mbind at 1, M_bind. rewrite assertEnvIndex_run, Hr.
  unfold mbind at 1, M_bind. rewrite (envAt_run _ _ _ He). reflexivity.
Qed.

Lemma getEnvironmentSensors_run envIndex s e :
  envIndexInRange envIndex s = true ->
  envs_ (this s) !! Z.to_nat envIndex = Some e ->
  getEnvironmentSensors envIndex s = Ok (sensorMap_ e) s.
Proof.
  intros Hr He. unfold getEnvironmentSensors.
  unfold mbind at 1, M_bind. rewrite assertEnvIndex_run, Hr.
  unfold mbind at 1, M_bind. rewrite (envAt_run _ _ _ He). reflexivity.
Qed.

(** X6. For a valid index of a constructed renderer the accessors return
    without changing anything, and what they return fits together: the node
    [getEnvironmentSensorParentNode] returns is alive and is a child of the
    root of the graph [getSceneGraph] returns; the node of every sensor in
    the map [getEnvironmentSensors] returns is alive and is a child of that
    sensor parent node; and these nodes are pairwise different. *)
Theorem accessors_agree parse bg s envIndex :
  reachable parse bg s ->
  0 <= envIndex < numEnvironments (config_ (this s)) ->
  exists p m g root pnode,
    getEnvironmentSensorParentNode envIndex s = Ok p s /\
    getEnvironmentSensors envIndex s = Ok m s /\
    getSceneGraph envIndex s = Ok g s /\
    SceneGraph_getRootNode g s = Ok root s /\
    heap s !! p = Some pnode /\
    nodeParent pnode = Some root /\
    (forall name sensor, (name, sensor) ∈ m ->
       exists node,
         heap s !! sensorNode sensor = Some node /\ nodeParent node = Some p) /\
    NoDup (p :: sensorNodes m).
Proof.
  intros Hreach Hi.
  pose proof (reachable_in_range _ _ _ _ Hreach Hi) as Hr.
  destruct (envIndexInRange_lookup _ _ Hr) as [e He].
  destruct (reachable_wf _ _ _ Hreach) as [Hwf _].
  destruct (built_envs _ (reachable_built _ _ _ Hreach) _ _ He)
    as [_ _ _ _ (g & pnode & Hg & Hp & Hpp) Hsensors].
  exists (sensorParentNode_ e), (sensorMap_ e), (Z.to_nat (sceneID_ e)),
    (rootNode g), pnode.
  split_ands.
  - exact (getEnvironmentSensorParentNode_run _ _ _ Hr He).
  - exact (getEnvironmentSensors_run _ _ _ Hr He).
  - rewrite (getSceneGraph_run _ _ _ Hr He).
    apply SceneManager_getSceneGraphRef_returns. rewrite Hg. eauto.
  - apply SceneManager_lookup_Some in Hg as (_ & Hg & _).
    unfold SceneGraph_getRootNode. rewrite Hg. reflexivity.
  - exact Hp.
  - exact Hpp.
  - intros name sensor Hin. exact (Hsensors (name, sensor) Hin).
  - exact (bind_lookup_NoDup envNodes _ _ _ (wf_nodup _ Hwf) He).
Qed.

(** X7. In a constructed renderer two different valid indices never lead to
    the same scene graph: the primary and the semantic graph of one
    environment are both different from the primary and the semantic graph
    of the other.  ([ID_UNDEFINED] is only known to be negative.) *)
Theorem environments_have_own_scene_graphs parse bg ID_UNDEFINED s i j :
  reachable parse bg s ->
  ID_UNDEFINED < 0 ->
  0 <= i < numEnvironments (config_ (this s)) ->
  0 <= j < numEnvironments (config_ (this s)) ->
  i <> j ->
  exists gi gi' gj gj',
    getSceneGraph i s = Ok gi s /\
    getSemanticSceneGraph ID_UNDEFINED i s = Ok gi' s /\
    getSceneGraph j s = Ok gj s /\
    getSemanticSceneGraph ID_UNDEFINED j s = Ok gj' s /\
    gi <> gj /\ gi <> gj' /\ gi' <> gj /\ gi' <> gj'.
Proof.
  intros Hreach Hneg Hi Hj Hij.
  pose proof (reachable_in_range _ _ _ _ Hreach Hi) as Hri.
  pose proof (reachable_in_range _ _ _ _ Hreach Hj) as Hrj.
  destruct (envIndexInRange_lookup _ _ Hri) as [ei Hei].
  destruct (envIndexInRange_lookup _ _ Hrj) as [ej Hej].
  destruct (reachable_wf _ _ _ Hreach) as [Hwf _].
  pose proof (reachable_built _ _ _ Hreach) as Hb.
  destruct (wf_envs _ Hwf _ _ Hei) as [_ _ _ Hsi Hmi _ _].
  destruct (wf_envs _ Hwf _ _ Hej) as [_ _ _ Hsj Hmj _ _].
  destruct (built_envs _ Hb _ _ Hei) as [Bsi Bmi _ _ _ _].
  destruct (built_envs _ Hb _ _ Hej) as [Bsj Bmj _ _ _ _].
  assert (Hui : (semanticSceneID_ ei =? ID_UNDEFINED) = false)
    by (apply Z.eqb_neq; lia).
  assert (Huj : (semanticSceneID_ ej =? ID_UNDEFINED) = false)
    by (apply Z.eqb_neq; lia).
  exists (Z.to_nat (sceneID_ ei)), (Z.to_nat (semanticSceneID_ ei)),
    (Z.to_nat (sceneID_ ej)), (Z.to_nat (semanticSceneID_ ej)).
  rewrite (getSceneGraph_run _ _ _ Hri Hei), (getSceneGraph_run _ _ _ Hrj Hej).
  rewrite (getSemanticSceneGraph_run _ _ _ _ Hri Hei), Hui.
  rewrite (getSemanticSceneGraph_run _ _ _ _ Hrj Hej), Huj.
  split; [apply SceneManager_getSceneGraphRef_returns; exact Hsi|].
  split; [apply SceneManager_getSceneGraphRef_returns; exact Hmi|].
  split; [apply SceneManager_getSceneGraphRef_returns; exact Hsj|].
  split; [apply SceneManager_getSceneGraphRef_returns; exact Hmj|].
  assert (Hne : Z.to_nat i <> Z.to_nat j) by lia.
  rewrite Bsi, Bmi, Bsj, Bmj, !Nat2Z.id. unfold graphsPerEnvironment.
  destruct (forceSeparateSemanticSceneGraph (config_ (this s))); split_ands; lia.
Qed.

(** ** What the sensor loop may touch *)

(** X9. For a valid index of a constructed renderer
    [setSensorTransformsFromKeyframe] returns or reports an error, and in
    both cases the state it leaves differs from the one it was called in at
    most in the translation and rotation of nodes of that environment's
    sensors: the renderer object is the same, no node is added or removed,
    every node keeps its parent, and every node that is not a sensor node of
    the environment keeps its contents. *)
Theorem setSensorTransformsFromKeyframe_only_moves_sensors
  parse bg s envIndex prefix e :
  reachable parse bg s ->
  0 <= envIndex ->
  envs_ (this s) !! Z.to_nat envIndex = Some e ->
  exists s',
    stateAfter (setSensorTransformsFromKeyframe envIndex prefix s) = Some s' /\
    this s' = this s /\
    (forall n, is_Some (heap s' !! n) <-> is_Some (heap s !! n)) /\
    (forall n node, heap s !! n = Some node ->
       exists node', heap s' !! n = Some node' /\ nodeParent node' = nodeParent node) /\
    (forall n, n ∉ sensorNodes (sensorMap_ e) -> heap s' !! n = heap s !! n).
Proof.
  intros Hreach H0 He.
  destruct (reachable_wf _ _ _ Hreach) as [Hwf _].
  pose proof (envIndex_lookup_range _ _ _ H0 He) as Hr.
  destruct (setSensorTransformsFromKeyframe_leaves_state envIndex prefix s Hwf Hr)
    as [s' Hs'].
  destruct (setSensorTransformsFromKeyframe_footprint _ _ _ _ Hs') as (Ht & Hd & Hh).
  exists s'. split_ands; auto.
  - exact (setSensorTransformsFromKeyframe_parents _ _ _ _ Hs').
  - exact (Hh e He).
Qed.

Lemma writeTransform_same n t r h node :
  h !! n = Some node -> nodeTranslation node = t -> nodeRotation node = r ->
  writeTransform n t r h = h.
Proof.
  intros Hn Ht Hrot. apply map_eq. intros m.
  destruct (decide (n = m)) as [<- | Hne].
  - rewrite writeTransform_lookup, Hn. simpl. destruct node. simpl in *.
    subst. reflexivity.
  - apply writeTransform_lookup_ne. exact Hne.
Qed.

Lemma sensorLoop_fixed envIndex prefix player l :
  forall s,
    (forall kv, kv ∈ l ->
       exists t r node,
         Player_getUserTransform player (prefix +:+ kv.1) = Some (t, r) /\
         heap s !! sensorNode kv.2 = Some node /\
         nodeTranslation node = t /\ nodeRotation node = r) ->
    exists s',
      forEach (setSensorTransform envIndex prefix player) l s = Ok tt s' /\
      heap s' = heap s /\ this s' = this s.
Proof.
  induction l as [|kv l IH]; intros s Hall; simpl.
  - exists s. auto.
  - destruct (Hall kv) as (t & r & node & Hf & Hn & Ht & Hrot); [left|].
    unfold mbind, M_bind.
    rewrite (setSensorTransform_found _ _ _ _ _ _ _ Hf (ex_intro _ _ Hn)).
    rewrite (writeTransform_same _ _ _ _ _ Hn Ht Hrot).
    destruct (IH (mkState (this s) (heap s)
                    (log s ++ [EvSetRotation (sensorNode kv.2) r;
                               EvSetTranslation (sensorNode kv.2) t])))
      as (s' & Hrun & Hh & Hthis).
    { intros kv' Hin. apply Hall. right. exact Hin. }
    exists s'. auto.
Qed.

Lemma sensorLoop_Ok_inv envIndex prefix player l :
  forall s s',
    forEach (setSensorTransform envIndex prefix player) l s = Ok tt s' ->
    forall kv, kv ∈ l -> is_Some (Player_getUserTransform player (prefix +:+ kv.1)).
Proof.
  induction l as [|kv l IH]; intros s s' Hrun kv' Hin; [inversion Hin|].
  simpl in Hrun. unfold mbind, M_bind in Hrun.
  destruct (Player_getUserTransform player (prefix +:+ kv.1)) as [[t r]|] eqn:Hf.
  - destruct (heap s !! sensorNode kv.2) as [node|] eqn:Hnode;
      [|rewrite (setSensorTransform_dead _ _ _ _ _ _ _ Hf Hnode) in Hrun; discriminate].
    rewrite (setSensorTransform_found _ _ _ _ _ _ _ Hf (ex_intro _ _ Hnode)) in Hrun.
    apply elem_of_cons in Hin as [-> | Hin]; [rewrite Hf; eauto|].
    exact (IH _ _ Hrun kv' Hin).
  - rewrite (setSensorTransform_missing _ _ _ _ _ Hf) in Hrun. discriminate.
Qed.

(** X10. [setSensorTransformsFromKeyframe] is idempotent on a constructed
    renderer: when a call has returned normally, the same call again returns
    normally and leaves every node, and the renderer object, as the first
    call left them. *)
Theorem setSensorTransformsFromKeyframe_idempotent parse bg s envIndex prefix s1 :
  reachable parse bg s ->
  setSensorTransformsFromKeyframe envIndex prefix s = Ok tt s1 ->
  exists s2,
    setSensorTransformsFromKeyframe envIndex prefix s1 = Ok tt s2 /\
    heap s2 = heap s1 /\
    this s2 = this s1.
Proof.
  intros Hreach Hrun.
  destruct (reachable_wf _ _ _ Hreach) as [Hwf _].
  destruct (envIndexInRange envIndex s) eqn:Hr;
    [|rewrite (setSensorTransformsFromKeyframe_out_of_range _ _ _ Hr) in Hrun;
      discriminate].
  destruct (envIndexInRange_lookup _ _ Hr) as [e He].
  assert (Hthis : this s1 = this s).
  { apply (setSensorTransformsFromKeyframe_footprint envIndex prefix s s1).
    rewrite Hrun. reflexivity. }
  rewrite (setSensorTransformsFromKeyframe_run _ _ _ _ Hr He) in Hrun.
  assert (Hr1 : envIndexInRange envIndex s1 = true).
  { unfold envIndexInRange in *. rewrite Hthis. exact Hr. }
  rewrite (setSensorTransformsFromKeyframe_run envIndex prefix s1 e Hr1)
    by (rewrite Hthis; exact He).
  destruct (Player_getNumKeyframes (player_ e) =? 1); [|discriminate].
  pose proof (sensorLoop_Ok_inv _ _ _ _ _ _ Hrun) as Hall.
  destruct (wf_sensorNodes _ _ _ Hwf He) as [Hnd Halive].
  destruct (sensorLoop_ok envIndex prefix (player_ e) (sensorMap_ e) s Hall Halive)
    as (s' & Hrun' & _ & Hheap).
  assert (s' = s1) as -> by congruence.
  apply sensorLoop_fixed. intros kv Hin.
  destruct (Hall kv Hin) as [[t r] Hf].
  destruct (Halive (sensorNode kv.2)) as [node0 Hnode0].
  { apply (list_elem_of_fmap_2 (fun kv => sensorNode kv.2)). exact Hin. }
  exists t, r, (mkSceneNode (nodeParent node0) t r).
  split; [exact Hf|]. split; [|split; reflexivity].
  rewrite (Hheap Hnd kv t r Hin Hf), Hnode0. reflexivity.
Qed.

(** X11. For a valid index of a constructed renderer
    [setSensorTransformsFromKeyframe] has exactly three outcomes, decided by
    the player and the sensor map alone: the player holds no keyframe and
    the call reports that [setEnvironmentKeyframe] was not called, leaving
    the state as it was; the player holds one keyframe that records a
    transform for every sensor and the call returns; or the player holds one
    keyframe and the call reports the first sensor, in the order of the map,
    whose transform it does not record.  It never ends in the assertion and
    never leaves the contract of the code it calls. *)
Theorem setSensorTransformsFromKeyframe_outcomes parse bg s envIndex prefix e :
  reachable parse bg s ->
  0 <= envIndex ->
  envs_ (this s) !! Z.to_nat envIndex = Some e ->
  (keyframes_ (player_ e) = [] /\
   setSensorTransformsFromKeyframe envIndex prefix s =
     Error (noKeyframeMessage envIndex) s) \/
  (exists kf s',
     keyframes_ (player_ e) = [kf] /\
     firstMissing kf prefix (sensorMap_ e) = None /\
     setSensorTransformsFromKeyframe envIndex prefix s = Ok tt s') \/
  (exists kf missing s',
     keyframes_ (player_ e) = [kf] /\
     firstMissing kf prefix (sensorMap_ e) = Some missing /\
     setSensorTransformsFromKeyframe envIndex prefix s =
       Error (noUserTransformMessage (prefix +:+ missing) envIndex) s').
Proof.
  intros Hreach H0 He.
  destruct (reachable_wf _ _ _ Hreach) as [Hwf _].
  pose proof (envIndex_lookup_range _ _ _ H0 He) as Hr.
  pose proof (wf_single _ _ _ (wf_envs _ Hwf _ _ He)) as Hsingle.
  destruct (keyframes_ (player_ e)) as [|kf [|kf' rest]] eqn:Hkf;
    [| |simpl in Hsingle; lia].
  - left. split; [reflexivity|].
    rewrite (setSensorTransformsFromKeyframe_run _ _ _ _ Hr He).
    unfold Player_getNumKeyframes. rewrite Hkf. reflexivity.
  - right. destruct (firstMissing kf prefix (sensorMap_ e)) as [missing|] eqn:Hm.
    + right. destruct (firstMissing_Some _ _ _ _ Hm) as (l1 & sensor & l2 & Hl & Hnone & Hbefore).
      destruct (setSensorTransformsFromKeyframe_stops s envIndex prefix e kf l1 missing
                  sensor l2 Hwf H0 He Hkf Hl Hnone Hbefore) as (s' & Hrun & _).
      exists kf, missing, s'. auto.
    + left. pose proof (firstMissing_None _ _ _ Hm) as Hall.
      rewrite (setSensorTransformsFromKeyframe_run _ _ _ _ Hr He).
      unfold Player_getNumKeyframes. rewrite Hkf. simpl.
      destruct (sensorLoop_ok envIndex prefix (player_ e) (sensorMap_ e) s)
        as (s' & Hrun & _).
      { intros [name sensor] Hin. rewrite (Player_getUserTransform_single _ _ _ Hkf).
        apply fmap_is_Some. exact (Hall name sensor Hin). }
      { exact (proj2 (wf_sensorNodes _ _ _ Hwf He)). }
      exists kf, s'. auto.
Qed.

(** ** Setting a keyframe, and then the sensor transforms *)

(** X12. When the index is inside [envs_] and the blob does not parse,
    [setEnvironmentKeyframe] reports the parser's error and changes nothing:
    the player keeps the keyframe it held, no asset is instantiated and the
    light setup is not touched.  This holds in any state. *)
Theorem setEnvironmentKeyframe_rejects_unparsable
  parse s envIndex serKeyframe msg e :
  0 <= envIndex ->
  envs_ (this s) !! Z.to_nat envIndex = Some e ->
  parse serKeyframe = inl msg ->
  setEnvironmentKeyframe parse envIndex serKeyframe s = Error msg s.
Proof.
  intros H0 He Hparse.
  apply setEnvironmentKeyframe_parse_error; [|exact Hparse].
  exact (envIndex_lookup_range _ _ _ H0 He).
Qed.





(** ** The light setup *)


(** ** What the destructor leaves in the node store *)










(** ** A renderer nobody has used yet *)

(** X18. On a renderer that has just been constructed,
    [setSensorTransformsFromKeyframe] reports for every valid index that
    [setEnvironmentKeyframe] has not been called for that environment, and
    leaves the state as it is. *)
Theorem constructor_leaves_neutral_state bg cfg gl s envIndex prefix :
  constructor bg cfg gl = Ok tt s ->
  0 <= envIndex < numEnvironments cfg ->
  setSensorTransformsFromKeyframe envIndex prefix s =
  Error (noKeyframeMessage envIndex) s.
Proof.
  intros Hc Hi.
  destruct (constructor_Ok _ _ _ _ Hc) as (_ & Hcount & Hcfg & Hfresh & _).
  assert (Hr : envIndexInRange envIndex s = true).
  { apply envIndexInRange_spec. unfold wf_count in Hcount.
    rewrite Hcount, Hcfg. lia. }
  destruct (envIndexInRange_lookup _ _ Hr) as [e He].
  destruct (Hfresh e) as [_ Hkf];
    [eapply list_elem_of_lookup_2; exact He|].
  rewrite (setSensorTransformsFromKeyframe_run _ _ _ e Hr He).
  unfold Player_getNumKeyframes. rewrite Hkf. reflexivity.
Qed.

(** ** The writes of a successful call, and the two error texts *)

Lemma sensorWrites_length prefix player (l : SensorMap) :
  (forall kv, kv ∈ l -> is_Some (Player_getUserTransform player (prefix +:+ kv.1))) ->
  length (l ≫= sensorWrites prefix player) = (2 * length l)%nat.
Proof.
  induction l as [|kv l IH]; intros Hall; [reflexivity|].
  change ((kv :: l) ≫= sensorWrites prefix player)
    with (sensorWrites prefix player kv ++ (l ≫= sensorWrites prefix player)).
  rewrite length_app, IH by (intros kv' Hin; apply Hall; right; exact Hin).
  destruct (Hall kv) as [[t r] Hf]; [left|].
  unfold sensorWrites. rewrite Hf. simpl. lia.
Qed.

(** X19. In a constructed renderer, when the player of a valid environment
    holds one keyframe that records a transform for every sensor of the map,
    [setSensorTransformsFromKeyframe] returns and what it has written is, in
    this order: for each sensor, in the order of the map, the rotation of
    its node and then the translation of its node, and nothing else; so two
    writes per sensor. *)
Theorem setSensorTransformsFromKeyframe_write_order
  parse bg s envIndex prefix e kf :
  reachable parse bg s ->
  0 <= envIndex ->
  envs_ (this s) !! Z.to_nat envIndex = Some e ->
  keyframes_ (player_ e) = [kf] ->
  firstMissing kf prefix (sensorMap_ e) = None ->
  exists s',
    setSensorTransformsFromKeyframe envIndex prefix s = Ok tt s' /\
    log s' = log s ++ (sensorMap_ e ≫= sensorWrites prefix (player_ e)) /\
    length (log s') = (length (log s) + 2 * length (sensorMap_ e))%nat.
Proof.
  intros Hreach H0 He Hkf Hm.
  destruct (reachable_wf _ _ _ Hreach) as [Hwf _].
  pose proof (envIndex_lookup_range _ _ _ H0 He) as Hr.
  assert (Hall : forall kv, kv ∈ sensorMap_ e ->
                   is_Some (Player_getUserTransform (player_ e) (prefix +:+ kv.1))).
  { intros [name sensor] Hin. rewrite (Player_getUserTransform_single _ _ _ Hkf).
    apply fmap_is_Some. exact (firstMissing_None _ _ _ Hm name sensor Hin). }
  rewrite (setSensorTransformsFromKeyframe_run _ _ _ _ Hr He).
  unfold Player_getNumKeyframes. rewrite Hkf. simpl.
  destruct (sensorLoop_ok envIndex prefix (player_ e) (sensorMap_ e) s Hall
              (proj2 (wf_sensorNodes _ _ _ Hwf He)))
    as (s' & Hrun & Hlog & _).
  exists s'. split; [exact Hrun|]. split; [exact Hlog|].
  rewrite Hlog, length_app, (sensorWrites_length _ _ _ Hall). reflexivity.
Qed.

Lemma messages_differ envIndex userName envIndex' :
  noKeyframeMessage envIndex <> noUserTransformMessage userName envIndex'.
Proof.
  unfold noKeyframeMessage, noUserTransformMessage. cbn [String.append].
  intros H. discriminate H.
Qed.

Lemma sensorLoop_Error envIndex prefix player l :
  forall s msg s',
    forEach (setSensorTransform envIndex prefix player) l s = Error msg s' ->
    exists kv, kv ∈ l /\ msg = noUserTransformMessage (prefix +:+ kv.1) envIndex.
Proof.
  induction l as [|kv l IH]; intros s msg s' Hrun; [discriminate|].
  simpl in Hrun. unfold mbind, M_bind in Hrun.
  destruct (Player_getUserTransform player (prefix +:+ kv.1)) as [[t r]|] eqn:Hf.
  - destruct (heap s !! sensorNode kv.2) as [node|] eqn:Hnode;
      [|rewrite (setSensorTransform_dead _ _ _ _ _ _ _ Hf Hnode) in Hrun; discriminate].
    rewrite (setSensorTransform_found _ _ _ _ _ _ _ Hf (ex_intro _ _ Hnode)) in Hrun.
    destruct (IH _ _ _ Hrun) as (kv' & Hin & Hmsg).
    exists kv'. split; [right; exact Hin | exact Hmsg].
  - rewrite (setSensorTransform_missing _ _ _ _ _ Hf) in Hrun.
    injection Hrun as <- _. exists kv. split; [left | reflexivity].
Qed.

(** X20. For a valid index of a constructed renderer
    [setSensorTransformsFromKeyframe] reports that [setEnvironmentKeyframe]
    has not been called exactly when the player of the environment holds no
    keyframe: the text of that report is never the text of a missing user
    transform, whatever the names of the sensors and the prefix. *)
Theorem no_keyframe_report_iff_no_keyframe parse bg s envIndex prefix e :
  reachable parse bg s ->
  0 <= envIndex ->
  envs_ (this s) !! Z.to_nat envIndex = Some e ->
  (exists s', setSensorTransformsFromKeyframe envIndex prefix s =
              Error (noKeyframeMessage envIndex) s') <->
  keyframes_ (player_ e) = [].
Proof.
  intros Hreach H0 He.
  destruct (reachable_wf _ _ _ Hreach) as [Hwf _].
  pose proof (envIndex_lookup_range _ _ _ H0 He) as Hr.
  pose proof (wf_single _ _ _ (wf_envs _ Hwf _ _ He)) as Hsingle.
  rewrite (setSensorTransformsFromKeyframe_run _ _ _ _ Hr He).
  unfold Player_getNumKeyframes.
  destruct (keyframes_ (player_ e)) as [|kf [|kf' rest]]; [| |simpl in Hsingle; lia].
  - simpl. split; [reflexivity|]. intros _. exists s. reflexivity.
  - simpl. split; [|discriminate]. intros [s' Hrun].
    apply sensorLoop_Error in Hrun as (kv & _ & Hmsg).
    exfalso. exact (messages_differ _ _ _ Hmsg).
Qed.

(** ** The further properties on the sample renderer *)

Lemma constructor_context_and_flags_witness :
  context_ (this (Sample.stateOf
                    (constructor true Sample.cfg
                       (mkPlatform false (fun _ => true) Sample.assets)))) =
    (if glHasCurrent (mkPlatform false (fun _ => true) Sample.assets) then None
     else Some (mkWindowlessContext (gpuDeviceId Sample.cfg))) /\
  (exists flags,
     renderer_ (this (Sample.stateOf
                        (constructor true Sample.cfg
                           (mkPlatform false (fun _ => true) Sample.assets)))) =
       Some (mkRenderer flags true) /\
     flagBackgroundRenderer flags =
       true && negb (glHasCurrent (mkPlatform false (fun _ => true) Sample.assets)) /\
     flagLeaveContextWithBackgroundRenderer flags =
       true && negb (glHasCurrent (mkPlatform false (fun _ => true) Sample.assets))
       && leaveContextWithBackgroundRenderer Sample.cfg).
Proof.
  apply (constructor_context_and_flags true Sample.cfg
           (mkPlatform false (fun _ => true) Sample.assets)).
  vm_compute. reflexivity.
Defined.

Lemma environments_match_configuration_witness :
  length (envs_ (this Sample.withFull)) =
    Z.to_nat (numEnvironments (config_ (this Sample.withFull))) /\
  forall i e, envs_ (this Sample.withFull) !! i = Some e ->
    assetCallbackEnvIdx (player_ e) = Z.of_nat i.
Proof.
  apply (environments_match_configuration Sample.keyframeFromString false
           Sample.withFull).
  exact sample_withFull_reachable.
Defined.

Lemma sensor_names_from_configuration_witness :
  map fst (sensorMap_ (Sample.env Sample.withFull 1)) =
    sensorNames (sensorSpecifications (config_ (this Sample.withFull))) /\
  StronglySorted string_lt (map fst (sensorMap_ (Sample.env Sample.withFull 1))) /\
  (forall k, k ∈ map fst (sensorMap_ (Sample.env Sample.withFull 1)) <->
             exists spec, spec ∈ sensorSpecifications (config_ (this Sample.withFull)) /\
                          uuid spec = k) /\
  (forall k sensor, (k, sensor) ∈ sensorMap_ (Sample.env Sample.withFull 1) ->
                    uuid (sensorSpec sensor) = k) /\
  (length (sensorMap_ (Sample.env Sample.withFull 1)) <=
   length (sensorSpecifications (config_ (this Sample.withFull))))%nat.
Proof.
  apply (sensor_names_from_configuration Sample.keyframeFromString false
           Sample.withFull 1 (Sample.env Sample.withFull 1)).
  - exact sample_withFull_reachable.
  - vm_compute. reflexivity.
Defined.

Lemma scene_graph_ids_witness :
  length (sceneGraphs_ (sceneManager_ (this Sample.constructedSeparate))) =
    (graphsPerEnvironment (config_ (this Sample.constructedSeparate))
     * length (envs_ (this Sample.constructedSeparate)))%nat /\
  forall i e, envs_ (this Sample.constructedSeparate) !! i = Some e ->
    sceneID_ e =
      Z.of_nat (graphsPerEnvironment (config_ (this Sample.constructedSeparate)) * i) /\
    semanticSceneID_ e =
      (if forceSeparateSemanticSceneGraph (config_ (this Sample.constructedSeparate))
       then sceneID_ e + 1 else sceneID_ e) /\
    forall j e', envs_ (this Sample.constructedSeparate) !! j = Some e' -> i <> j ->
      sceneID_ e <> sceneID_ e' /\
      sceneID_ e <> semanticSceneID_ e' /\
      semanticSceneID_ e <> sceneID_ e' /\
      semanticSceneID_ e <> semanticSceneID_ e'.
Proof.
  apply (scene_graph_ids Sample.keyframeFromString false Sample.constructedSeparate).
  exact sample_constructedSeparate_reachable.
Defined.

Lemma accessors_agree_witness :
  exists p m g root pnode,
    getEnvironmentSensorParentNode 1 Sample.withFull = Ok p Sample.withFull /\
    getEnvironmentSensors 1 Sample.withFull = Ok m Sample.withFull /\
    getSceneGraph 1 Sample.withFull = Ok g Sample.withFull /\
    SceneGraph_getRootNode g Sample.withFull = Ok root Sample.withFull /\
    heap Sample.withFull !! p = Some pnode /\
    nodeParent pnode = Some root /\
    (forall name sensor, (name, sensor) ∈ m ->
       exists node,
         heap Sample.withFull !! sensorNode sensor = Some node /\
         nodeParent node = Some p) /\
    NoDup (p :: sensorNodes m).
Proof.
  apply (accessors_agree Sample.keyframeFromString false Sample.withFull 1).
  - exact sample_withFull_reachable.
  - vm_compute. split; [discriminate | reflexivity].
Defined.

Lemma environments_have_own_scene_graphs_witness :
  exists gi gi' gj gj',
    getSceneGraph 0 Sample.constructedSeparate = Ok gi Sample.constructedSeparate /\
    getSemanticSceneGraph (-1) 0 Sample.constructedSeparate
      = Ok gi' Sample.constructedSeparate /\
    getSceneGraph 1 Sample.constructedSeparate = Ok gj Sample.constructedSeparate /\
    getSemanticSceneGraph (-1) 1 Sample.constructedSeparate
      = Ok gj' Sample.constructedSeparate /\
    gi <> gj /\ gi <> gj' /\ gi' <> gj /\ gi' <> gj'.
Proof.
  apply (environments_have_own_scene_graphs Sample.keyframeFromString false (-1)
           Sample.constructedSeparate 0 1).
  - exact sample_constructedSeparate_reachable.
  - lia.
  - vm_compute. split; [discriminate | reflexivity].
  - vm_compute. split; [discriminate | reflexivity].
  - lia.
Defined.

Lemma setSensorTransformsFromKeyframe_only_moves_sensors_witness :
  exists s',
    stateAfter (setSensorTransformsFromKeyframe 0 "sensor_" Sample.withDepth) = Some s' /\
    this s' = this Sample.withDepth /\
    (forall n, is_Some (heap s' !! n) <-> is_Some (heap Sample.withDepth !! n)) /\
    (forall n node, heap Sample.withDepth !! n = Some node ->
       exists node', heap s' !! n = Some node' /\ nodeParent node' = nodeParent node) /\
    (forall n, n ∉ sensorNodes (sensorMap_ (Sample.env Sample.withDepth 0)) ->
               heap s' !! n = heap Sample.withDepth !! n).
Proof.
  apply (setSensorTransformsFromKeyframe_only_moves_sensors
           Sample.keyframeFromString false Sample.withDepth 0 "sensor_"
           (Sample.env Sample.withDepth 0)).
  - exact sample_withDepth_reachable.
  - lia.
  - vm_compute. reflexivity.
Defined.

Lemma setSensorTransformsFromKeyframe_idempotent_witness :
  exists s2,
    setSensorTransformsFromKeyframe 0 "sensor_"
      (Sample.stateOf (setSensorTransformsFromKeyframe 0 "sensor_" Sample.withFull))
    = Ok tt s2 /\
    heap s2 =
      heap (Sample.stateOf (setSensorTransformsFromKeyframe 0 "sensor_" Sample.withFull)) /\
    this s2 =
      this (Sample.stateOf (setSensorTransformsFromKeyframe 0 "sensor_" Sample.withFull)).
Proof.
  apply (setSensorTransformsFromKeyframe_idempotent Sample.keyframeFromString false
           Sample.withFull 0 "sensor_").
  - exact sample_withFull_reachable.
  - vm_compute. reflexivity.
Defined.

Lemma setSensorTransformsFromKeyframe_outcomes_witness :
  (keyframes_ (player_ (Sample.env Sample.withDepth 0)) = [] /\
   setSensorTransformsFromKeyframe 0 "sensor_" Sample.withDepth =
     Error (noKeyframeMessage 0) Sample.withDepth) \/
  (exists kf s',
     keyframes_ (player_ (Sample.env Sample.withDepth 0)) = [kf] /\
     firstMissing kf "sensor_" (sensorMap_ (Sample.env Sample.withDepth 0)) = None /\
     setSensorTransformsFromKeyframe 0 "sensor_" Sample.withDepth = Ok tt s') \/
  (exists kf missing s',
     keyframes_ (player_ (Sample.env Sample.withDepth 0)) = [kf] /\
     firstMissing kf "sensor_" (sensorMap_ (Sample.env Sample.withDepth 0))
       = Some missing /\
     setSensorTransformsFromKeyframe 0 "sensor_" Sample.withDepth =
       Error (noUserTransformMessage ("sensor_" +:+ missing) 0) s').
Proof.
  apply (setSensorTransformsFromKeyframe_outcomes Sample.keyframeFromString false
           Sample.withDepth 0 "sensor_" (Sample.env Sample.withDepth 0)).
  - exact sample_withDepth_reachable.
  - lia.
  - vm_compute. reflexivity.
Defined.

Lemma setEnvironmentKeyframe_rejects_unparsable_witness :
  setEnvironmentKeyframe Sample.keyframeFromString 1 "{" Sample.withFull =
  Error "keyframeFromString: parse error" Sample.withFull.
Proof.
  apply (setEnvironmentKeyframe_rejects_unparsable Sample.keyframeFromString
           Sample.withFull 1 "{" "keyframeFromString: parse error"
           (Sample.env Sample.withFull 1)).
  - lia.
  - vm_compute. reflexivity.
  - vm_compute. reflexivity.
Defined.





Lemma constructor_leaves_neutral_state_witness :
  setSensorTransformsFromKeyframe 1 "sensor_" Sample.constructed =
  Error (noKeyframeMessage 1) Sample.constructed.
Proof.
  apply (constructor_leaves_neutral_state false Sample.cfg Sample.gl
           Sample.constructed 1 "sensor_").
  - vm_compute. reflexivity.
  - vm_compute. split; [discriminate | reflexivity].
Defined.

Lemma setSensorTransformsFromKeyframe_write_order_witness :
  exists s',
    setSensorTransformsFromKeyframe 0 "sensor_" Sample.withFull = Ok tt s' /\
    log s' = log Sample.withFull ++
             (sensorMap_ (Sample.env Sample.withFull 0)
                ≫= sensorWrites "sensor_" (player_ (Sample.env Sample.withFull 0))) /\
    length (log s') =
      (length (log Sample.withFull)
       + 2 * length (sensorMap_ (Sample.env Sample.withFull 0)))%nat.
Proof.
  apply (setSensorTransformsFromKeyframe_write_order Sample.keyframeFromString false
           Sample.withFull 0 "sensor_" (Sample.env Sample.withFull 0)
           Sample.fullKeyframe).
  - exact sample_withFull_reachable.
  - lia.
  - vm_compute. reflexivity.
  - vm_compute. reflexivity.
  - vm_compute. reflexivity.
Defined.

Lemma no_keyframe_report_iff_no_keyframe_witness :
  (exists s', setSensorTransformsFromKeyframe 1 "sensor_" Sample.withFull =
              Error (noKeyframeMessage 1) s') <->
  keyframes_ (player_ (Sample.env Sample.withFull 1)) = [].
Proof.
  apply (no_keyframe_report_iff_no_keyframe Sample.keyframeFromString false
           Sample.withFull 1 "sensor_" (Sample.env Sample.withFull 1)).
  - exact sample_withFull_reachable.
  - lia.
  - vm_compute. reflexivity.
Defined.
